(** * create-az-vm.js: argument resolution, credential generation and
      the provisioning sequence, verified over a shallow embedding.

    JavaScript strings are modelled as [string] (sequences of ASCII code
    units), numbers that hold integers as [Z], objects used as maps as
    [gmap string _].  The clock, the random source and the external
    command-line tool are oracles carried in an explicit [World]. *)

From Stdlib Require Import ZArith Ascii String List Lia Permutation.
From stdpp Require Import base gmap strings list pretty.

Set Warnings "-register-all".

Local Open Scope Z_scope.
Local Open Scope nat_scope.

(** ** String.prototype methods used by the program *)

Module Str.

Definition dquote : ascii := "034"%char.
Definition dollar : ascii := "$"%char.
Definition backslash : ascii := "\"%char.
Definition equals : ascii := "="%char.

Definition code (c : ascii) : nat := nat_of_ascii c.

Definition is_upper (c : ascii) : bool :=
  (65 <=? code c) && (code c <=? 90).

(** [toLowerCase] on one code unit: A..Z move to a..z, every other code
    unit of the ASCII text modelled here stays as it is. *)
Definition lower_char (c : ascii) : ascii :=
  if is_upper c then ascii_of_nat (code c + 32) else c.

Fixpoint toLowerCase (s : string) : string :=
  match s with
  | EmptyString => EmptyString
  | String c s' => String (lower_char c) (toLowerCase s')
  end.

(** [s.startsWith(p)] *)
Fixpoint startsWith (s p : string) : bool :=
  match p, s with
  | EmptyString, _ => true
  | String _ _, EmptyString => false
  | String a p', String b s' =>
      if decide (a = b) then startsWith s' p' else false
  end.

(** [s.includes(p)] *)
Fixpoint includes (s p : string) : bool :=
  startsWith s p ||
  match s with
  | EmptyString => false
  | String _ s' => includes s' p
  end.

(** [s.replace(/c/g, rep)] for a pattern that is one literal character
    and a replacement text without substitution patterns. *)
Fixpoint replaceAll (c : ascii) (rep : string) (s : string) : string :=
  match s with
  | EmptyString => EmptyString
  | String a s' =>
      if decide (a = c) then rep +:+ replaceAll c rep s'
      else String a (replaceAll c rep s')
  end.

(** [s.split(sep)] for a one-character separator: the pieces between
    the separators, in order; an empty string gives one empty piece. *)
Fixpoint split (sep : ascii) (s : string) : list string :=
  match s with
  | EmptyString => [EmptyString]
  | String a s' =>
      if decide (a = sep) then EmptyString :: split sep s'
      else match split sep s' with
           | p :: ps => String a p :: ps
           | [] => [String a EmptyString]
           end
  end.

(** [s.substring(n)] *)
Fixpoint substring_from (n : nat) (s : string) : string :=
  match n, s with
  | O, _ => s
  | S n', String _ s' => substring_from n' s'
  | S _, EmptyString => EmptyString
  end.

(** [s.slice(-n)]: the last [n] code units, the whole string when it
    is shorter. *)
Definition slice_last (n : nat) (s : string) : string :=
  substring_from (String.length s - n) s.

(** [s.trim()] *)
Fixpoint trimStart (s : string) : string :=
  match s with
  | EmptyString => EmptyString
  | String a s' => if Ascii.is_space a then trimStart s' else s
  end.

Fixpoint trimEnd (s : string) : string :=
  match s with
  | EmptyString => EmptyString
  | String a s' =>
      match trimEnd s' with
      | EmptyString => if Ascii.is_space a then EmptyString
                       else String a EmptyString
      | t => String a t
      end
  end.

Definition trim (s : string) : string := trimEnd (trimStart s).

(** [Array.prototype.join("")] on an array of single characters. *)
Definition join (cs : list ascii) : string := string_of_list_ascii cs.

(** [s[i]] for an index inside the string. *)
Definition charAt (s : string) (i : nat) : option ascii := String.get i s.

(** [n.toString()] and template interpolation of an integer Number. *)
Definition ofNumber (n : Z) : string := pretty n.

End Str.

(** ** Values, errors and the outside world *)

(** The JavaScript values that can end up in the argument object. *)
Inductive JsVal :=
| VUndefined
| VNull
| VStr (s : string)
| VFun (name : string)        (* the built-in function inherited under [name] *)
| VObjectPrototype.           (* Object.prototype itself *)

Global Instance JsVal_eq_dec : EqDecision JsVal.
Proof. solve_decision. Defined.

Definition truthy (v : JsVal) : bool :=
  match v with
  | VUndefined | VNull => false
  | VStr s => if decide (s = "") then false else true
  | VFun _ | VObjectPrototype => true
  end.

(** ToString, as applied by template literals and property keys.  Every
    value the program interpolates is a string or [null]; the text for
    the two object cases is never looked at. *)
Definition toString (v : JsVal) : string :=
  match v with
  | VUndefined => "undefined"
  | VNull => "null"
  | VStr s => s
  | VFun name => "function " +:+ name +:+ "() { [native code] }"
  | VObjectPrototype => "[object Object]"
  end.

Inductive JsError :=
| TypeError (message : string)
| SyntaxError (message : string)
| ChildProcessError (message : string) (stdout : string).

Definition error_message (e : JsError) : string :=
  match e with
  | TypeError m | SyntaxError m | ChildProcessError m _ => m
  end.

(** [error.stdout]: only a failed child process carries one. *)
Definition error_stdout (e : JsError) : JsVal :=
  match e with
  | ChildProcessError _ out => VStr out
  | _ => VUndefined
  end.

(** What one run of an external command does: it exits with status 0
    and has written [stdout], or it fails. *)
Inductive ExecResult :=
| ExecOk (stdout : string)
| ExecFail (stdout : string) (message : string).

Inductive Line :=
| Out (text : string)         (* console.log *)
| Err (text : string).        (* console.error *)

Record World := mkWorld {
  clock : nat -> Z;                       (* successive Date.now() readings *)
  ticks : nat;                            (* readings taken so far *)
  entropy : nat -> nat;                   (* successive secure random draws *)
  draws : nat;                            (* draws taken so far *)
  shell : nat -> string -> ExecResult;    (* the n-th execSync call, by command *)
  calls : list (string * ExecResult);     (* commands run so far and how they
                                             ended, oldest first *)
  console : list Line                     (* lines printed so far, oldest first *)
}.

(** A computation returns, throws, or ends the process. *)
Inductive Res (A : Type) :=
| Ret (a : A)
| Throw (e : JsError)
| Exit (status : Z).
Arguments Ret {A} a.
Arguments Throw {A} e.
Arguments Exit {A} status.

Definition M (A : Type) : Type := World -> Res A * World.

Definition ret {A} (a : A) : M A := fun w => (Ret a, w).

Definition bind {A B} (m : M A) (k : A -> M B) : M B :=
  fun w =>
    match m w with
    | (Ret a, w') => k a w'
    | (Throw e, w') => (Throw e, w')
    | (Exit c, w') => (Exit c, w')
    end.

Definition throw {A} (e : JsError) : M A := fun w => (Throw e, w).

(** [process.exit(status)] *)
Definition process_exit {A} (status : Z) : M A := fun w => (Exit status, w).

(** [try { body } catch (error) { handler }]; leaving the process is not
    an exception and is not caught. *)
Definition try_catch {A} (body : M A) (handler : JsError -> M A) : M A :=
  fun w =>
    match body w with
    | (Throw e, w') => handler e w'
    | r => r
    end.

Global Instance M_ret : MRet M := @ret.
Global Instance M_bind : MBind M := fun A B k m => bind m k.

(** [Date.now()] *)
Definition Date_now : M Z :=
  fun w => (Ret (clock w (ticks w)),
            mkWorld (clock w) (S (ticks w)) (entropy w) (draws w)
                    (shell w) (calls w) (console w)).

(** [crypto.randomInt(max)]: an integer in [0, max). *)
Definition randomInt (max : nat) : M nat :=
  fun w => (Ret (entropy w (draws w) mod max),
            mkWorld (clock w) (ticks w) (entropy w) (S (draws w))
                    (shell w) (calls w) (console w)).

Definition print (l : Line) : M unit :=
  fun w => (Ret tt,
            mkWorld (clock w) (ticks w) (entropy w) (draws w)
                    (shell w) (calls w) (console w ++ [l])).

Definition console_log (text : string) : M unit := print (Out text).
Definition console_error (text : string) : M unit := print (Err text).

(** [execSync(command, { encoding: "utf8" })] *)
Definition execSync (command : string) : M string :=
  fun w =>
    let result := shell w (length (calls w)) command in
    let w' := mkWorld (clock w) (ticks w) (entropy w) (draws w)
                      (shell w) (calls w ++ [(command, result)]) (console w) in
    match result with
    | ExecOk out => (Ret out, w')
    | ExecFail out msg => (Throw (ChildProcessError msg out), w')
    end.

(** [array.sort(compare)]: an insertion sort that asks the comparator
    where each element goes.  Whatever the comparator answers, the result
    is a rearrangement of the array. *)
Fixpoint sort_insert {A} (compare : A -> A -> M Z) (x : A) (sorted : list A)
  : M (list A) :=
  match sorted with
  | [] => ret [x]
  | y :: ys =>
      c ← compare x y;
      if (c <? 0)%Z then ret (x :: y :: ys)
      else (r ← sort_insert compare x ys; ret (y :: r))
  end.

Fixpoint array_sort {A} (compare : A -> A -> M Z) (l : list A) : M (list A) :=
  match l with
  | [] => ret []
  | x :: xs => s ← array_sort compare xs; sort_insert compare x s
  end.

(** ** Objects created by an object literal *)

(** The names every such object inherits from Object.prototype. *)
Definition Object_prototype_keys : list string :=
  [ "constructor"; "__defineGetter__"; "__defineSetter__"; "hasOwnProperty";
    "__lookupGetter__"; "__lookupSetter__"; "isPrototypeOf";
    "propertyIsEnumerable"; "toString"; "valueOf"; "__proto__";
    "toLocaleString" ].

(** [obj[key]] and [obj.key]: own properties first, then the prototype. *)
Definition get_property (own : gmap string JsVal) (key : string) : JsVal :=
  match own !! key with
  | Some v => v
  | None =>
      if decide (key = "__proto__") then VObjectPrototype
      else if decide (key ∈ Object_prototype_keys) then VFun key
      else VUndefined
  end.

(** [key in obj] *)
Definition has_property (own : gmap string JsVal) (key : string) : bool :=
  bool_decide (is_Some (own !! key)) || bool_decide (key ∈ Object_prototype_keys).

(** [obj[key] = value] for a string [value]: the inherited [__proto__]
    setter ignores a value that is not an object, every other key becomes
    (or stays) an own property. *)
Definition set_property (own : gmap string JsVal) (key : string) (value : JsVal)
  : gmap string JsVal :=
  if decide (key = "__proto__") then own
  else <[key := value]> own.

(** ** The program *)

Definition IMAGE_PRESETS : gmap string JsVal :=
  list_to_map
    [ ("windows-11", VStr "MicrosoftWindowsDesktop:Windows-11:win11-23h2-pro:latest");
      ("windows-10", VStr "MicrosoftWindowsDesktop:Windows-10:win10-22h2-pro:latest");
      ("windows-server-2022", VStr "MicrosoftWindowsServer:WindowsServer:2022-datacenter:latest");
      ("windows-server-2019", VStr "MicrosoftWindowsServer:WindowsServer:2019-datacenter:latest");
      ("ubuntu", VStr "Canonical:0001-com-ubuntu-server-jammy:22_04-lts:latest");
      ("ubuntu-20", VStr "Canonical:0001-com-ubuntu-server-focal:20_04-lts:latest");
      ("debian", VStr "Debian:debian-11:11:latest");
      ("centos", VStr "OpenLogic:CentOS:7_9:latest");
      ("rhel", VStr "RedHat:RHEL:8-lvm:latest");
      ("suse", VStr "SUSE:sles-15-sp3:gen2:latest") ].

(** [detectOSType(image)] for a string [image]. *)
Definition detectOSType (image : string) : string :=
  let imageLower := Str.toLowerCase image in
  if Str.includes imageLower "windows" || Str.includes imageLower "win"
  then "windows"
  else "linux".

(** The call [detectOSType(v)] for whatever value [v] the image has
    become: only a string has a [toLowerCase] method, calling it on a
    function or on Object.prototype is a TypeError. *)
Definition call_detectOSType (v : JsVal) : M string :=
  match v with
  | VStr image => ret (detectOSType image)
  | _ => throw (TypeError "image.toLowerCase is not a function")
  end.

Module Password.

Definition length : nat := 16.
Definition lowercase : string := "abcdefghijklmnopqrstuvwxyz".
Definition uppercase : string := "ABCDEFGHIJKLMNOPQRSTUVWXYZ".
Definition digits : string := "0123456789".
Definition special : string := "!@#$%^&*()_+-=[]{}|;:,.<>?".
Definition allChars : string := lowercase +:+ uppercase +:+ digits +:+ special.

(** [chars[crypto.randomInt(chars.length)]]; an array element is a
    character or [undefined]. *)
Definition pick (chars : string) : M (option ascii) :=
  i ← randomInt (String.length chars);
  ret (Str.charAt chars i).

(** The [for] loop: [n] more pushes. *)
Fixpoint fill (n : nat) (password : list (option ascii))
  : M (list (option ascii)) :=
  match n with
  | O => ret password
  | S n' =>
      c ← pick allChars;
      fill n' (password ++ [c])
  end.

(** [() => crypto.randomInt(3) - 1] *)
Definition shuffle_compare (_ _ : option ascii) : M Z :=
  r ← randomInt 3;
  ret (Z.of_nat r - 1)%Z.

(** [array.join("")]: [undefined] elements contribute nothing. *)
Definition join (password : list (option ascii)) : string :=
  Str.join (omap id password).

End Password.

Definition generateSecurePassword : M string :=
  c1 ← Password.pick Password.lowercase;
  c2 ← Password.pick Password.uppercase;
  c3 ← Password.pick Password.digits;
  c4 ← Password.pick Password.special;
  let password := [c1; c2; c3; c4] in
  password ← Password.fill (Password.length - List.length password) password;
  shuffled ← array_sort Password.shuffle_compare password;
  ret (Password.join shuffled).

(** The object literal at the top of [parseArgs]; [now] is the clock
    reading taken for the default resource group. *)
Definition initial_args (now : Z) : gmap string JsVal :=
  list_to_map
    [ ("location", VStr "northeurope");
      ("name", VNull);
      ("size", VStr "Standard_D2s_v3");
      ("image", VStr "windows-11");
      ("resourceGroup", VStr ("vm-rg-" +:+ Str.ofNumber now));
      ("username", VStr "azureuser");
      ("password", VNull);
      ("os", VNull) ].

(** The two array elements bound by [const [key, value] = ...]. *)
Definition arg_key (arg : string) : string :=
  default "" (Str.split Str.equals (Str.substring_from 2 arg) !! 0).

Definition arg_value (arg : string) : JsVal :=
  match Str.split Str.equals (Str.substring_from 2 arg) !! 1 with
  | Some v => VStr v
  | None => VUndefined
  end.

(** One round of the [forEach] over the command-line tokens. *)
Definition apply_arg (args : gmap string JsVal) (arg : string)
  : gmap string JsVal :=
  if Str.startsWith arg "--" then
    if has_property args (arg_key arg) && truthy (arg_value arg)
    then set_property args (arg_key arg) (arg_value arg)
    else args
  else args.

(** [parseArgs()], reading [argv] for [process.argv.slice(2)]. *)
Definition parseArgs (argv : list string) : M (gmap string JsVal) :=
  now ← Date_now;
  let args := foldl apply_arg (initial_args now) argv in
  (* Resolve image preset if used *)
  let preset := get_property IMAGE_PRESETS (toString (get_property args "image")) in
  let args := if truthy preset then set_property args "image" preset else args in
  (* Detect OS type *)
  os ← call_detectOSType (get_property args "image");
  let args := set_property args "os" (VStr os) in
  (* Set VM name based on OS type if not provided *)
  args ← (if negb (truthy (get_property args "name")) then
            if decide (get_property args "os" = VStr "windows") then
              now ← Date_now;
              ret (set_property args "name"
                     (VStr ("win-" +:+ Str.slice_last 8 (Str.ofNumber now))))
            else
              now ← Date_now;
              ret (set_property args "name"
                     (VStr ("linux-vm-" +:+ Str.ofNumber now)))
          else ret args);
  (* Generate password if not provided *)
  args ← (if negb (truthy (get_property args "password")) then
            password ← generateSecurePassword;
            ret (set_property args "password" (VStr password))
          else ret args);
  ret args.

(** ** The provisioning sequence *)

(** What [JSON.parse] returns. *)
Inductive Json :=
| JNull
| JBool (b : bool)
| JNum (n : Z)
| JStr (s : string)
| JArr (items : list Json)
| JObj (fields : list (string * Json)).

Definition json_truthy (j : Json) : bool :=
  match j with
  | JNull => false
  | JBool b => b
  | JNum n => negb (n =? 0)%Z
  | JStr s => if decide (s = "") then false else true
  | JArr _ | JObj _ => true
  end.

(** Template interpolation of a parsed value; [None] is [undefined]. *)
Fixpoint json_toString (j : Json) : string :=
  match j with
  | JNull => "null"
  | JBool true => "true"
  | JBool false => "false"
  | JNum n => Str.ofNumber n
  | JStr s => s
  | JArr items =>
      String.concat ","
        (map (fun e => match e with JNull => "" | _ => json_toString e end) items)
  | JObj _ => "[object Object]"
  end.

Definition interpolate (v : option Json) : string :=
  match v with
  | None => "undefined"
  | Some j => json_toString j
  end.

(** [v.key] for the keys the program reads ([user], [name],
    [publicIpAddress]): reading from [null] or [undefined] throws, an
    object gives the field or [undefined], any other value [undefined]. *)
Definition member (v : option Json) (key : string) : M (option Json) :=
  match v with
  | None | Some JNull =>
      throw (TypeError ("Cannot read properties of " +:+ interpolate v))
  | Some (JObj fields) =>
      ret (snd <$> List.find (fun kv => bool_decide (fst kv = key)) fields)
  | Some _ => ret None
  end.

Definition nl : string := String "010"%char "".

Fixpoint repeat_string (s : string) (n : nat) : string :=
  match n with
  | O => ""
  | S n' => s +:+ repeat_string s n'
  end.

Section Provisioning.

(** [JSON.parse(text)]; [None] when it throws a SyntaxError. *)
Variable JSON_parse : string -> option Json.

Definition json_parse (text : string) : M Json :=
  match JSON_parse text with
  | Some j => ret j
  | None => throw (SyntaxError "Unexpected token in JSON")
  end.

(** [exec(command, silent = false)] *)
Definition exec (command : string) (silent : bool) : M string :=
  try_catch
    (_ ← (if negb silent then console_log ("➤ " +:+ command) else ret tt);
     out ← execSync command;
     ret (Str.trim out))
    (fun error =>
       if truthy (error_stdout error)
       then ret (Str.trim (toString (error_stdout error)))
       else throw error).

Definition checkAzureCli : M bool :=
  try_catch
    (_ ← exec "az --version" true;
     ret true)
    (fun _ =>
       _ ← console_error "❌ Azure CLI is not installed.";
       _ ← console_log "Please install it from: https://docs.microsoft.com/en-us/cli/azure/install-azure-cli";
       ret false).

Definition checkAzureLogin : M bool :=
  try_catch
    (account ← exec "az account show" true;
     accountData ← json_parse account;
     user ← member (Some accountData) "user";
     name ← member user "name";
     _ ← console_log ("✓ Logged in as: " +:+ interpolate name);
     ret true)
    (fun _ =>
       _ ← console_error "❌ Not logged in to Azure.";
       _ ← console_log "Please run: az login";
       ret false).

(** [`${args.key}`] *)
Definition field (args : gmap string JsVal) (key : string) : string :=
  toString (get_property args key).

Definition group_create_command (args : gmap string JsVal) : string :=
  "az group create --name " +:+ field args "resourceGroup" +:+
  " --location " +:+ field args "location".

Definition createResourceGroup (args : gmap string JsVal) : M bool :=
  _ ← console_log (nl +:+ "📦 Creating resource group...");
  try_catch
    (_ ← exec (group_create_command args) false;
     _ ← console_log ("✓ Resource group '" +:+ field args "resourceGroup" +:+
                      "' created in " +:+ field args "location");
     ret true)
    (fun error =>
       _ ← console_error ("❌ Failed to create resource group: " +:+
                          error_message error);
       ret false).

(** The two chained [replace] calls of [createVM]: first every double
    quote, then every dollar sign, gets a backslash in front. *)
Definition escapePassword (password : string) : string :=
  Str.replaceAll Str.dollar (String Str.backslash (String Str.dollar ""))
    (Str.replaceAll Str.dquote (String Str.backslash (String Str.dquote ""))
       password).

Definition osDisplay (args : gmap string JsVal) : string :=
  if decide (get_property args "os" = VStr "windows") then "Windows" else "Linux".

Definition nsgRule (args : gmap string JsVal) : string :=
  if decide (get_property args "os" = VStr "windows") then "RDP" else "SSH".

(** The receiver of [args.password.replace(...)]: only a string has a
    [replace] method; on [null] or [undefined] the property access is a
    TypeError, on any other value the call is. *)
Definition password_receiver (password : JsVal) : M string :=
  match password with
  | VStr text => ret text
  | VUndefined | VNull =>
      throw (TypeError ("Cannot read properties of " +:+ toString password +:+
                        " (reading 'replace')"))
  | VFun _ | VObjectPrototype =>
      throw (TypeError "args.password.replace is not a function")
  end.

(** The template literal of [createVM] around the escaped password; a
    backslash before a line break joins the lines, the indentation of the
    next line stays. *)
Definition vm_create_template (args : gmap string JsVal) (escapedPassword : string)
  : string :=
  "az vm create " +:+
  "    --resource-group " +:+ field args "resourceGroup" +:+ " " +:+
  "    --name " +:+ field args "name" +:+ " " +:+
  "    --image " +:+ field args "image" +:+ " " +:+
  "    --admin-username " +:+ field args "username" +:+ " " +:+
  "    --admin-password " +:+ String Str.dquote "" +:+
    escapedPassword +:+ String Str.dquote "" +:+ " " +:+
  "    --size " +:+ field args "size" +:+ " " +:+
  "    --public-ip-sku Standard " +:+
  "    --nsg-rule " +:+ nsgRule args.

(** The command [createVM] builds from a configuration whose password is
    a string (on a string, [field] gives the string itself). *)
Definition vm_create_command (args : gmap string JsVal) : string :=
  vm_create_template args (escapePassword (field args "password")).

(** [createVM(args)]; [JNull] is the [null] it returns on failure.  The
    password is escaped before the [try] block is entered, so a password
    that is not a string makes [createVM] itself throw. *)
Definition createVM (args : gmap string JsVal) : M Json :=
  _ ← console_log (nl +:+ "🖥️  Creating " +:+ osDisplay args +:+
                   " VM (this may take 2-3 minutes)...");
  password ← password_receiver (get_property args "password");
  let escapedPassword := escapePassword password in
  let command := vm_create_template args escapedPassword in
  try_catch
    (output ← exec command false;
     vmData ← json_parse output;
     _ ← console_log "✓ VM created successfully!";
     ret vmData)
    (fun error =>
       _ ← console_error ("❌ Failed to create VM: " +:+ error_message error);
       ret JNull).

(** [`${vmData.publicIpAddress}`]; [vmData] is truthy where this is used. *)
Definition publicIpAddress (vmData : Json) : string :=
  match vmData with
  | JObj fields =>
      interpolate
        (snd <$> List.find (fun kv => bool_decide (fst kv = "publicIpAddress")) fields)
  | _ => "undefined"
  end.

Definition log_lines (lines : list string) : M unit :=
  foldr (fun l k => _ ← console_log l; k) (ret tt) lines.

Definition displayWindowsConnectionDetails (args : gmap string JsVal)
    (vmData : Json) : M unit :=
  log_lines
    [ nl +:+ "🔌 To Connect (RDP):";
      "   1. Open Remote Desktop Connection";
      "   2. Enter IP: " +:+ publicIpAddress vmData;
      "   3. Username: .\" +:+ field args "username";
      "   4. Password: " +:+ field args "password";
      nl +:+ "💡 Tips:";
      "   - First RDP connection may take 5-10 minutes while Windows initializes";
      "   - Use " +:+ String Str.dquote "" +:+ ".\azureuser" +:+ String Str.dquote "" +:+
        " as username if " +:+ String Str.dquote "" +:+ "azureuser" +:+
        String Str.dquote "" +:+ " alone doesn't work" ].

Definition displayLinuxConnectionDetails (args : gmap string JsVal)
    (vmData : Json) : M unit :=
  log_lines
    [ nl +:+ "🔌 To Connect (SSH):";
      "   ssh " +:+ field args "username" +:+ "@" +:+ publicIpAddress vmData;
      "   Password: " +:+ field args "password";
      nl +:+ "💡 Tips:";
      "   - You can also use SSH key authentication for better security";
      "   - To enable GUI access, install a desktop environment and xrdp:";
      "     sudo apt update && sudo apt install ubuntu-desktop xrdp -y" ].

Definition displayConnectionDetails (args : gmap string JsVal)
    (vmData : Json) : M unit :=
  _ ← log_lines
    [ nl +:+ repeat_string "=" 50;
      "🎉 " +:+ osDisplay args +:+ " VM Created Successfully!";
      repeat_string "=" 50;
      nl +:+ "📋 VM Details:";
      "   IP Address: " +:+ publicIpAddress vmData;
      "   Username: " +:+ field args "username";
      "   Password: " +:+ field args "password";
      "   Location: " +:+ field args "location";
      "   VM Name: " +:+ field args "name";
      "   VM Size: " +:+ field args "size";
      "   OS Type: " +:+ osDisplay args ];
  _ ← (if decide (get_property args "os" = VStr "windows")
       then displayWindowsConnectionDetails args vmData
       else displayLinuxConnectionDetails args vmData);
  log_lines
    [ nl +:+ "⚡ Management Commands:";
      "   Stop VM:    az vm stop --resource-group " +:+ field args "resourceGroup" +:+
        " --name " +:+ field args "name";
      "   Start VM:   az vm start --resource-group " +:+ field args "resourceGroup" +:+
        " --name " +:+ field args "name";
      "   Delete all: az group delete --name " +:+ field args "resourceGroup" +:+ " --yes";
      "   - Stop the VM when not in use to save costs";
      nl +:+ repeat_string "=" 50 ].

Definition group_delete_command (args : gmap string JsVal) : string :=
  "az group delete --name " +:+ field args "resourceGroup" +:+ " --yes --no-wait".

(** The part of [main] after the configuration has been printed. *)
Definition provision (args : gmap string JsVal) : M unit :=
  ok ← createResourceGroup args;
  _ ← (if negb ok then process_exit 1 else ret tt);
  vmData ← createVM args;
  _ ← (if negb (json_truthy vmData) then
         (* Cleanup on failure *)
         _ ← console_log (nl +:+ "🧹 Cleaning up resources...");
         _ ← exec (group_delete_command args) false;
         process_exit 1
       else ret tt);
  displayConnectionDetails args vmData.

Definition main (argv : list string) : M unit :=
  _ ← console_log "🚀 Azure VM Creator";
  _ ← console_log ("===================" +:+ nl);
  ok ← checkAzureCli;
  _ ← (if negb ok then process_exit 1 else ret tt);
  ok ← checkAzureLogin;
  _ ← (if negb ok then process_exit 1 else ret tt);
  args ← parseArgs argv;
  _ ← log_lines
    [ nl +:+ "📝 Configuration:";
      "   Location: " +:+ field args "location";
      "   VM Name: " +:+ field args "name";
      "   VM Size: " +:+ field args "size";
      "   OS Type: " +:+ field args "os";
      "   Resource Group: " +:+ field args "resourceGroup" ];
  provision args.

(** The template literal of [showHelp], line by line; it starts and
    ends with a line break. *)
Definition usage_text : string :=
  String.concat nl
    [
      EmptyString;
      "Usage: node create-az-vm.js [options]";
      EmptyString;
      "Options:";
      "  --location=<location>    Azure region (default: northeurope)";
      "  --name=<name>            VM name (default: auto-generated)";
      "  --size=<size>            VM size (default: Standard_D2s_v3)";
      "  --image=<image>          OS image preset or full image URN (default: windows-11)";
      "  --resourceGroup=<name>   Resource group name (default: auto-generated)";
      "  --username=<username>    Admin username (default: azureuser)";
      "  --password=<password>    Admin password (default: auto-generated)";
      "  --help                   Show this help message";
      EmptyString;
      "Examples:";
      "  # Create Windows 11 VM (default)";
      "  node create-az-vm.js";
      "  ";
      "  # Create Ubuntu VM";
      "  node create-az-vm.js --image=ubuntu";
      "  ";
      "  # Create Windows 10 VM in UK South";
      "  node create-az-vm.js --image=windows-10 --location=uksouth";
      "  ";
      "  # Create custom VM with specific image URN";
      "  node create-az-vm.js --image=Canonical:0001-com-ubuntu-server-jammy:22_04-lts:latest";
      EmptyString;
      "Available Image Presets:";
      "  windows-11         - Windows 11 Pro (default)";
      "  windows-10         - Windows 10 Pro";
      "  windows-server-2022 - Windows Server 2022 Datacenter";
      "  windows-server-2019 - Windows Server 2019 Datacenter";
      "  ubuntu             - Ubuntu 22.04 LTS";
      "  ubuntu-20          - Ubuntu 20.04 LTS";
      "  debian             - Debian 11";
      "  centos             - CentOS 7.9";
      "  rhel               - Red Hat Enterprise Linux 8";
      "  suse               - SUSE Linux Enterprise Server 15";
      EmptyString;
      "Available VM Sizes:";
      "  Standard_D2s_v3    - 2 vCPUs, 8 GB RAM (default)";
      "  Standard_D4s_v3    - 4 vCPUs, 16 GB RAM";
      "  Standard_D8s_v3    - 8 vCPUs, 32 GB RAM";
      "  Standard_B2s       - 2 vCPUs, 4 GB RAM (burstable, cost-effective)";
      "  Standard_B2ms      - 2 vCPUs, 8 GB RAM (burstable)";
      EmptyString;
      "Common Locations:";
      "  northeurope        - Ireland (default)";
      "  uksouth            - UK South";
      "  ukwest             - UK West";
      "  westeurope         - Netherlands";
      "  eastus             - Virginia";
      "  westus             - California";
      "  eastus2            - Virginia";
      "  centralus          - Iowa";
      EmptyString ].

(** [showHelp()] *)
Definition showHelp : M unit := console_log usage_text.

(** The handler passed to [main().catch(...)]. *)
Definition on_unexpected_error (error : JsError) : M unit :=
  _ ← console_error (nl +:+ "❌ Unexpected error: " +:+ error_message error);
  process_exit 1.

(** The module body: the help flag, then [main().catch(...)].  [argv]
    stands for the tokens after the script name. *)
Definition program (argv : list string) : M unit :=
  if bool_decide ("--help" ∈ argv) then
    _ ← showHelp;
    process_exit 0
  else
    try_catch (main argv) on_unexpected_error.

(** The status the process ends with; an exception nobody caught would
    end it with status 1. *)
Definition exit_status (r : Res unit) : Z :=
  match r with
  | Ret _ => 0
  | Exit status => status
  | Throw _ => 1
  end.

End Provisioning.

(** * Properties *)

(** ** Strings *)

Section StringFacts.

Lemma str_app_nil_l (s : string) : "" +:+ s = s.
Proof. reflexivity. Qed.

Lemma str_app_cons (a : ascii) (s t : string) :
  String a s +:+ t = String a (s +:+ t).
Proof. reflexivity. Qed.

Lemma str_app_nil_r (s : string) : s +:+ "" = s.
Proof. induction s as [|a s IH]; [done|]. by rewrite str_app_cons, IH. Qed.

Lemma str_app_assoc (s t u : string) : (s +:+ t) +:+ u = s +:+ t +:+ u.
Proof. induction s as [|a s IH]; [done|]. by rewrite !str_app_cons, IH. Qed.

Lemma str_app_length (s t : string) :
  String.length (s +:+ t) = String.length s + String.length t.
Proof. induction s as [|a s IH]; [done|]. rewrite str_app_cons. simpl. lia. Qed.

Lemma startsWith_spec (s p : string) :
  Str.startsWith s p = true <-> exists rest, s = p +:+ rest.
Proof.
  revert s. induction p as [|a p IH]; intros s.
  - destruct s; simpl; split; eauto.
  - destruct s as [|b s]; simpl.
    + split; [done|]. intros [rest H]. by rewrite str_app_cons in H.
    + destruct (decide (a = b)) as [->|Hne].
      * rewrite IH. split; intros [rest H]; exists rest.
        -- by rewrite str_app_cons, H.
        -- rewrite str_app_cons in H. by injection H.
      * split; [done|]. intros [rest H]. rewrite str_app_cons in H.
        injection H as ? ?. congruence.
Qed.

Lemma includes_spec (s p : string) :
  Str.includes s p = true <-> exists pre post, s = pre +:+ p +:+ post.
Proof.
  induction s as [|b s IH].
  - cbn [Str.includes]. rewrite orb_false_r, startsWith_spec. split.
    + intros [rest H]. by exists "", rest.
    + intros (pre & post & H). destruct pre; [by exists post|].
      by rewrite str_app_cons in H.
  - cbn [Str.includes]. rewrite orb_true_iff, startsWith_spec, IH. split.
    + intros [[rest H]|(pre & post & H)].
      * by exists "", rest.
      * exists (String b pre), post. by rewrite str_app_cons, H.
    + intros (pre & post & H). destruct pre as [|c pre].
      * left. by exists post.
      * right. rewrite str_app_cons in H. injection H as _ H. by exists pre, post.
Qed.

Lemma code_inj (c d : ascii) : Str.code c = Str.code d -> c = d.
Proof.
  unfold Str.code. intros H.
  rewrite <- (ascii_nat_embedding c), <- (ascii_nat_embedding d). by rewrite H.
Qed.

Lemma code_lower_char (c : ascii) :
  Str.code (Str.lower_char c) =
  if Str.is_upper c then Str.code c + 32 else Str.code c.
Proof.
  unfold Str.lower_char. destruct (Str.is_upper c) eqn:E; [|done].
  unfold Str.code in *. apply nat_ascii_embedding.
  unfold Str.is_upper, Str.code in E.
  apply andb_true_iff in E as [_ E]. apply Nat.leb_le in E. lia.
Qed.

Lemma toLowerCase_app (s t : string) :
  Str.toLowerCase (s +:+ t) = Str.toLowerCase s +:+ Str.toLowerCase t.
Proof. induction s as [|a s IH]; [done|]. rewrite str_app_cons. simpl. by rewrite IH. Qed.

Lemma toLowerCase_app_inv (s a b : string) :
  Str.toLowerCase s = a +:+ b ->
  exists s1 s2, s = s1 +:+ s2 /\ Str.toLowerCase s1 = a /\ Str.toLowerCase s2 = b.
Proof.
  revert s. induction a as [|c a IH]; intros s H.
  - by exists "", s.
  - destruct s as [|d s]; [done|]. rewrite str_app_cons in H. simpl in H.
    injection H as Hc H. destruct (IH s H) as (s1 & s2 & -> & <- & <-).
    exists (String d s1), s2. by rewrite str_app_cons, <- Hc.
Qed.

End StringFacts.

(** ** OS family *)

(** Case-insensitive containment, said without [toLowerCase]: two code
    units are the same letter when they are equal or one is the capital
    of the other. *)
Definition same_letter (c d : ascii) : Prop :=
  c = d \/
  (Str.is_upper c = true /\ Str.code d = Str.code c + 32) \/
  (Str.is_upper d = true /\ Str.code c = Str.code d + 32).

Inductive eq_ignoring_case : string -> string -> Prop :=
| eq_ic_empty : eq_ignoring_case "" ""
| eq_ic_cons c d s t :
    same_letter c d -> eq_ignoring_case s t ->
    eq_ignoring_case (String c s) (String d t).

Definition contains_ignoring_case (s p : string) : Prop :=
  exists pre mid post, s = pre +:+ mid +:+ post /\ eq_ignoring_case mid p.

Lemma is_upper_bounds (c : ascii) :
  Str.is_upper c = true <-> 65 <= Str.code c <= 90.
Proof.
  unfold Str.is_upper. rewrite andb_true_iff, !Nat.leb_le. lia.
Qed.

Lemma same_letter_lower (c d : ascii) :
  same_letter c d <-> Str.lower_char c = Str.lower_char d.
Proof.
  split.
  - intros [->|[[Hc Hd]|[Hd Hc]]]; [done| |]; apply code_inj;
      rewrite !code_lower_char.
    + rewrite Hc. destruct (Str.is_upper d) eqn:E; [|lia].
      apply is_upper_bounds in Hc, E. lia.
    + rewrite Hd. destruct (Str.is_upper c) eqn:E; [|lia].
      apply is_upper_bounds in Hd, E. lia.
  - intros H. apply (f_equal Str.code) in H. rewrite !code_lower_char in H.
    destruct (Str.is_upper c) eqn:Ec, (Str.is_upper d) eqn:Ed.
    + left. apply code_inj. lia.
    + right. left. split; [done|lia].
    + right. right. split; [done|lia].
    + left. by apply code_inj.
Qed.

Lemma eq_ignoring_case_lower (s t : string) :
  eq_ignoring_case s t <-> Str.toLowerCase s = Str.toLowerCase t.
Proof.
  split.
  - induction 1 as [|c d s t Hcd _ IH]; [done|].
    simpl. apply same_letter_lower in Hcd. by rewrite Hcd, IH.
  - revert t. induction s as [|c s IH]; intros [|d t] H; try done.
    + constructor.
    + simpl in H. injection H as Hcd H. constructor.
      * by apply same_letter_lower.
      * by apply IH.
Qed.

Lemma includes_lower (s p : string) :
  Str.includes (Str.toLowerCase s) (Str.toLowerCase p) = true <->
  contains_ignoring_case s p.
Proof.
  rewrite includes_spec. split.
  - intros (a & b & H).
    apply toLowerCase_app_inv in H as (pre & rest & -> & <- & H).
    apply toLowerCase_app_inv in H as (mid & post & -> & H & <-).
    exists pre, mid, post. split; [done|]. by apply eq_ignoring_case_lower.
  - intros (pre & mid & post & -> & H). apply eq_ignoring_case_lower in H.
    exists (Str.toLowerCase pre), (Str.toLowerCase post).
    by rewrite !toLowerCase_app, H.
Qed.

Lemma detectOSType_windows (image : string) :
  detectOSType image = "windows" <->
  contains_ignoring_case image "windows" \/ contains_ignoring_case image "win".
Proof.
  rewrite <- !includes_lower. unfold detectOSType.
  change (Str.toLowerCase "windows") with "windows".
  change (Str.toLowerCase "win") with "win".
  destruct (Str.includes _ "windows"), (Str.includes _ "win"); simpl;
    intuition congruence.
Qed.

Lemma detectOSType_two_valued (image : string) :
  detectOSType image = "windows" \/ detectOSType image = "linux".
Proof. unfold detectOSType. destruct (_ || _); auto. Qed.

(** ** Computations that always return *)

Definition returns {A} (m : M A) (P : A -> Prop) : Prop :=
  forall w, exists a w', m w = (Ret a, w') /\ P a.

Lemma returns_ret {A} (a : A) (P : A -> Prop) : P a -> returns (ret a) P.
Proof. intros H w. by exists a, w. Qed.

Lemma returns_bind {A B} (m : M A) (k : A -> M B) (P : A -> Prop) (Q : B -> Prop) :
  returns m P -> (forall a, P a -> returns (k a) Q) -> returns (a ← m; k a) Q.
Proof.
  intros Hm Hk w. destruct (Hm w) as (a & w1 & E & Ha).
  destruct (Hk a Ha w1) as (b & w2 & E' & Hb). exists b, w2.
  unfold mbind, M_bind, bind. by rewrite E.
Qed.

Lemma returns_weaken {A} (m : M A) (P Q : A -> Prop) :
  returns m P -> (forall a, P a -> Q a) -> returns m Q.
Proof.
  intros Hm HPQ w. destruct (Hm w) as (a & w' & E & Ha). exists a, w'. auto.
Qed.

Lemma randomInt_returns (max : nat) :
  0 < max -> returns (randomInt max) (fun r => r < max).
Proof.
  intros Hmax w. eexists _, _. split; [reflexivity|].
  apply Nat.mod_upper_bound. lia.
Qed.

(** ** Credential generator *)

Definition chars (s : string) : list ascii := list_ascii_of_string s.

Definition lowercase_letter (c : ascii) : Prop := 97 <= Str.code c <= 122.
Definition uppercase_letter (c : ascii) : Prop := 65 <= Str.code c <= 90.
Definition decimal_digit (c : ascii) : Prop := 48 <= Str.code c <= 57.
Definition special_character (c : ascii) : Prop := c ∈ chars Password.special.

Definition contains_a (class : ascii -> Prop) (password : string) : Prop :=
  exists c, c ∈ chars password /\ class c.

Definition meets_policy (password : string) : Prop :=
  String.length password = 16 /\
  contains_a lowercase_letter password /\
  contains_a uppercase_letter password /\
  contains_a decimal_digit password /\
  contains_a special_character password.

Global Instance lowercase_letter_dec c : Decision (lowercase_letter c).
Proof. unfold lowercase_letter. apply _. Defined.
Global Instance uppercase_letter_dec c : Decision (uppercase_letter c).
Proof. unfold uppercase_letter. apply _. Defined.
Global Instance decimal_digit_dec c : Decision (decimal_digit c).
Proof. unfold decimal_digit. apply _. Defined.

Lemma lowercase_class : Forall lowercase_letter (chars Password.lowercase).
Proof. apply (bool_decide_unpack _). by vm_compute. Qed.

Lemma uppercase_class : Forall uppercase_letter (chars Password.uppercase).
Proof. apply (bool_decide_unpack _). by vm_compute. Qed.

Lemma digits_class : Forall decimal_digit (chars Password.digits).
Proof. apply (bool_decide_unpack _). by vm_compute. Qed.

Lemma get_chars (s : string) (i : nat) :
  i < String.length s -> exists c, String.get i s = Some c /\ c ∈ chars s.
Proof.
  revert i. induction s as [|a s IH]; intros i Hi; simpl in Hi; [lia|].
  destruct i as [|i]; simpl.
  - exists a. split; [done|]. unfold chars. simpl. left.
  - destruct (IH i) as (c & E & Hc); [lia|]. exists c. split; [done|].
    unfold chars. simpl. by right.
Qed.

(** An array element that is a character of [s], not [undefined]. *)
Definition char_of (s : string) (e : option ascii) : Prop :=
  exists c, e = Some c /\ c ∈ chars s.

Lemma pick_returns (s : string) :
  0 < String.length s -> returns (Password.pick s) (char_of s).
Proof.
  intros Hs. unfold Password.pick.
  eapply returns_bind; [by apply randomInt_returns|].
  intros i Hi. apply returns_ret. unfold Str.charAt. by apply get_chars.
Qed.

Lemma fill_returns (n : nat) (password : list (option ascii)) :
  returns (Password.fill n password)
    (fun l => exists more, l = password ++ more /\ List.length more = n /\
                           Forall (char_of Password.allChars) more).
Proof.
  revert password. induction n as [|n IH]; intros password; simpl.
  - apply returns_ret. exists []. by rewrite List.app_nil_r.
  - eapply returns_bind; [apply pick_returns; vm_compute; lia|].
    intros c Hc. eapply returns_weaken; [apply IH|].
    intros l (more & -> & Hlen & Hall). exists (c :: more).
    rewrite <- List.app_assoc. simpl. split; [done|]. split; [lia|].
    by constructor.
Qed.

Lemma sort_insert_returns {A} (compare : A -> A -> M Z) (x : A) (l : list A) :
  (forall a b, returns (compare a b) (fun _ => True)) ->
  returns (sort_insert compare x l) (fun r => r ≡ₚ x :: l).
Proof.
  intros Hcmp. induction l as [|y ys IH]; simpl.
  - by apply returns_ret.
  - eapply returns_bind; [apply Hcmp|]. intros c _.
    destruct (c <? 0)%Z.
    + by apply returns_ret.
    + eapply returns_bind; [apply IH|]. intros r Hr. apply returns_ret.
      rewrite Hr. apply perm_swap.
Qed.

Lemma array_sort_returns {A} (compare : A -> A -> M Z) (l : list A) :
  (forall a b, returns (compare a b) (fun _ => True)) ->
  returns (array_sort compare l) (fun r => r ≡ₚ l).
Proof.
  intros Hcmp. induction l as [|x xs IH]; simpl.
  - by apply returns_ret.
  - eapply returns_bind; [apply IH|]. intros s Hs.
    eapply returns_weaken; [by apply sort_insert_returns|].
    intros r Hr. by rewrite Hr, Hs.
Qed.

Lemma shuffle_compare_returns (a b : option ascii) :
  returns (Password.shuffle_compare a b) (fun _ => True).
Proof.
  unfold Password.shuffle_compare.
  eapply returns_bind; [apply (randomInt_returns 3); lia|].
  intros r _. by apply returns_ret.
Qed.

Lemma length_string_of_chars (cs : list ascii) :
  String.length (string_of_list_ascii cs) = List.length cs.
Proof. induction cs as [|c cs IH]; simpl; [done|]. by rewrite IH. Qed.

Lemma join_length (l : list (option ascii)) :
  Forall is_Some l -> String.length (Password.join l) = List.length l.
Proof.
  intros H. unfold Password.join, Str.join. rewrite length_string_of_chars.
  induction H as [|e l [c ->] _ IH]; [done|].
  change (omap id (Some c :: l)) with (c :: omap id l). simpl. by rewrite IH.
Qed.

Lemma join_contains (l : list (option ascii)) (c : ascii) :
  Some c ∈ l -> c ∈ chars (Password.join l).
Proof.
  intros H. unfold chars, Password.join, Str.join.
  rewrite list_ascii_of_string_of_list_ascii.
  apply list_elem_of_omap. by exists (Some c).
Qed.

(** Any rearrangement of sixteen characters that include the four seeded
    ones meets the policy: this is all that is needed of the sort. *)
Lemma policy_of_rearrangement (c1 c2 c3 c4 : option ascii)
    (more shuffled : list (option ascii)) :
  char_of Password.lowercase c1 -> char_of Password.uppercase c2 ->
  char_of Password.digits c3 -> char_of Password.special c4 ->
  List.length more = 12 -> Forall (char_of Password.allChars) more ->
  shuffled ≡ₚ [c1; c2; c3; c4] ++ more ->
  meets_policy (Password.join shuffled).
Proof.
  intros (a1 & -> & H1) (a2 & -> & H2) (a3 & -> & H3) (a4 & -> & H4)
    Hlen Hmore Hperm.
  assert (Hin : forall e, e ∈ [Some a1; Some a2; Some a3; Some a4] -> e ∈ shuffled).
  { intros e He. rewrite Hperm. apply elem_of_app. by left. }
  split; [|repeat split].
  - rewrite join_length.
    + rewrite Hperm, List.length_app, Hlen. done.
    + rewrite Hperm. apply Forall_app. split.
      * repeat constructor; eauto.
      * eapply Forall_impl; [exact Hmore|]. intros e (c & -> & _). eauto.
  - exists a1. split; [apply join_contains, Hin; repeat constructor|].
    by eapply (proj1 (Forall_forall _ _) lowercase_class).
  - exists a2. split; [apply join_contains, Hin; repeat constructor|].
    by eapply (proj1 (Forall_forall _ _) uppercase_class).
  - exists a3. split; [apply join_contains, Hin; repeat constructor|].
    by eapply (proj1 (Forall_forall _ _) digits_class).
  - exists a4. split; [apply join_contains, Hin; repeat constructor|]. done.
Qed.

(** What the generator returns: a rearrangement of four seeded characters,
    one of each class, and twelve more characters. *)
Definition seeded_shuffle (password : string) : Prop :=
  exists c1 c2 c3 c4 more shuffled,
    char_of Password.lowercase c1 /\ char_of Password.uppercase c2 /\
    char_of Password.digits c3 /\ char_of Password.special c4 /\
    List.length more = 12 /\ Forall (char_of Password.allChars) more /\
    shuffled ≡ₚ [c1; c2; c3; c4] ++ more /\
    password = Password.join shuffled.

Lemma generateSecurePassword_returns :
  returns generateSecurePassword seeded_shuffle.
Proof.
  unfold generateSecurePassword.
  eapply returns_bind; [apply pick_returns; vm_compute; lia|]. intros c1 H1.
  eapply returns_bind; [apply pick_returns; vm_compute; lia|]. intros c2 H2.
  eapply returns_bind; [apply pick_returns; vm_compute; lia|]. intros c3 H3.
  eapply returns_bind; [apply pick_returns; vm_compute; lia|]. intros c4 H4.
  eapply returns_bind; [apply fill_returns|].
  intros l (more & -> & Hlen & Hmore).
  eapply returns_bind;
    [apply array_sort_returns, shuffle_compare_returns|].
  intros shuffled Hperm. apply returns_ret.
  by exists c1, c2, c3, c4, more, shuffled.
Qed.

(** C1. Every run of the credential generator returns a password, and
    whatever the random source draws (the four seeded characters, the
    twelve fill characters, every answer of the shuffle comparator) the
    password is exactly 16 characters long and contains a lowercase
    letter, an uppercase letter, a digit and a character of the special
    set. *)
Theorem generateSecurePassword_policy (w : World) :
  exists password w',
    generateSecurePassword w = (Ret password, w') /\ meets_policy password.
Proof.
  destruct (generateSecurePassword_returns w)
    as (password & w' & Hrun & c1 & c2 & c3 & c4 & more & shuffled &
        H1 & H2 & H3 & H4 & Hlen & Hmore & Hperm & ->).
  exists (Password.join shuffled), w'. split; [exact Hrun|].
  exact (policy_of_rearrangement c1 c2 c3 c4 more shuffled H1 H2 H3 H4 Hlen Hmore Hperm).
Qed.

(** ** Computations that only consult the clock and the random source *)

(** The same world with another command-line tool, call history and
    console. *)
Definition with_tool (sh : nat -> string -> ExecResult)
    (cl : list (string * ExecResult)) (co : list Line) (w : World) : World :=
  mkWorld (clock w) (ticks w) (entropy w) (draws w) sh cl co.

(** [m] neither looks at nor changes the tool, the call history and the
    console. *)
Definition local {A} (m : M A) : Prop :=
  forall w sh cl co,
    m (with_tool sh cl co w) = (fst (m w), with_tool sh cl co (snd (m w))).

Lemma local_ret {A} (a : A) : local (ret a).
Proof. done. Qed.

Lemma local_throw {A} (e : JsError) : local (@throw A e).
Proof. done. Qed.

Lemma local_Date_now : local Date_now.
Proof. done. Qed.

Lemma local_randomInt (max : nat) : local (randomInt max).
Proof. done. Qed.

Lemma local_bind {A B} (m : M A) (k : A -> M B) :
  local m -> (forall a, local (k a)) -> local (a ← m; k a).
Proof.
  intros Hm Hk w sh cl co. unfold mbind, M_bind, bind. rewrite Hm.
  destruct (m w) as [[a|e|c] w1]; simpl; [apply Hk|done..].
Qed.

Lemma with_tool_same (w : World) :
  with_tool (shell w) (calls w) (console w) w = w.
Proof. by destruct w. Qed.

Lemma local_untouched {A} (m : M A) (w : World) :
  local m ->
  shell (snd (m w)) = shell w /\ calls (snd (m w)) = calls w /\
  console (snd (m w)) = console w.
Proof.
  intros Hm. specialize (Hm w (shell w) (calls w) (console w)).
  rewrite with_tool_same in Hm. apply (f_equal snd) in Hm. simpl in Hm.
  by rewrite Hm.
Qed.

Lemma local_oracle {A} (m : M A) (w1 w2 : World) :
  local m ->
  clock w1 = clock w2 -> ticks w1 = ticks w2 ->
  entropy w1 = entropy w2 -> draws w1 = draws w2 ->
  fst (m w1) = fst (m w2).
Proof.
  intros Hm Hc Ht He Hd.
  assert (w1 = with_tool (shell w1) (calls w1) (console w1) w2) as ->.
  { destruct w1, w2; simpl in *; by subst. }
  by rewrite Hm.
Qed.

Lemma local_sort_insert {A} (compare : A -> A -> M Z) (x : A) (l : list A) :
  (forall a b, local (compare a b)) -> local (sort_insert compare x l).
Proof.
  intros Hcmp. induction l as [|y ys IH]; simpl; [apply local_ret|].
  apply local_bind; [apply Hcmp|]. intros c. destruct (c <? 0)%Z.
  - apply local_ret.
  - apply local_bind; [apply IH|]. intros r. apply local_ret.
Qed.

Lemma local_array_sort {A} (compare : A -> A -> M Z) (l : list A) :
  (forall a b, local (compare a b)) -> local (array_sort compare l).
Proof.
  intros Hcmp. induction l as [|x xs IH]; simpl; [apply local_ret|].
  apply local_bind; [apply IH|]. intros s. by apply local_sort_insert.
Qed.

Lemma local_pick (s : string) : local (Password.pick s).
Proof.
  apply local_bind; [apply local_randomInt|]. intros i. apply local_ret.
Qed.

Lemma local_fill (n : nat) (password : list (option ascii)) :
  local (Password.fill n password).
Proof.
  revert password. induction n as [|n IH]; intros password; simpl.
  - apply local_ret.
  - apply local_bind; [apply local_pick|]. intros c. apply IH.
Qed.

Lemma local_generateSecurePassword : local generateSecurePassword.
Proof.
  unfold generateSecurePassword.
  repeat (apply local_bind; [apply local_pick|]; intros ?).
  apply local_bind; [apply local_fill|]. intros l.
  apply local_bind; [|intros ?; apply local_ret].
  apply local_array_sort. intros x y.
  apply local_bind; [apply local_randomInt|]. intros r. apply local_ret.
Qed.

Lemma local_call_detectOSType (v : JsVal) : local (call_detectOSType v).
Proof. destruct v; simpl; first [apply local_ret | apply local_throw]. Qed.

Lemma local_parseArgs (argv : list string) : local (parseArgs argv).
Proof.
  unfold parseArgs.
  apply local_bind; [apply local_Date_now|]. intros now.
  apply local_bind; [apply local_call_detectOSType|]. intros os.
  apply local_bind.
  { destruct (negb _); [|apply local_ret].
    destruct (decide _); (apply local_bind; [apply local_Date_now|]);
      intros ?; apply local_ret. }
  intros args. apply local_bind; [|intros ?; apply local_ret].
  destruct (negb _); [|apply local_ret].
  apply local_bind; [apply local_generateSecurePassword|].
  intros ?. apply local_ret.
Qed.

(** ** Argument resolver *)

Definition recognized_keys : list string :=
  [ "location"; "name"; "size"; "image"; "resourceGroup"; "username"; "password" ].

Definition config_fields : list string := recognized_keys ++ ["os"].

(** The stages of [parseArgs], named one by one. *)
Definition parsed_args (now : Z) (argv : list string) : gmap string JsVal :=
  foldl apply_arg (initial_args now) argv.

Definition resolve_preset (args : gmap string JsVal) : gmap string JsVal :=
  let preset := get_property IMAGE_PRESETS (toString (get_property args "image")) in
  if truthy preset then set_property args "image" preset else args.

Definition tick (w : World) : World := snd (Date_now w).

Definition auto_name (os : JsVal) (now : Z) : string :=
  if decide (os = VStr "windows")
  then "win-" +:+ Str.slice_last 8 (Str.ofNumber now)
  else "linux-vm-" +:+ Str.ofNumber now.

Definition name_stage (args : gmap string JsVal) (w : World)
  : gmap string JsVal * World :=
  if truthy (get_property args "name") then (args, w)
  else (set_property args "name"
          (VStr (auto_name (get_property args "os") (clock w (ticks w)))),
        tick w).

Definition generated_password (w : World) : string :=
  match fst (generateSecurePassword w) with
  | Ret password => password
  | _ => ""
  end.

Definition password_stage (args : gmap string JsVal) (w : World)
  : gmap string JsVal * World :=
  if truthy (get_property args "password") then (args, w)
  else (set_property args "password" (VStr (generated_password w)),
        snd (generateSecurePassword w)).

Definition image_error : JsError :=
  TypeError "image.toLowerCase is not a function".

(** What [parseArgs] does once the loop over the tokens has run. *)
Definition after_loop (args : gmap string JsVal) : M (gmap string JsVal) :=
  let args := resolve_preset args in
  os ← call_detectOSType (get_property args "image");
  let args := set_property args "os" (VStr os) in
  args ← (if negb (truthy (get_property args "name")) then
            if decide (get_property args "os" = VStr "windows") then
              now ← Date_now;
              ret (set_property args "name"
                     (VStr ("win-" +:+ Str.slice_last 8 (Str.ofNumber now))))
            else
              now ← Date_now;
              ret (set_property args "name"
                     (VStr ("linux-vm-" +:+ Str.ofNumber now)))
          else ret args);
  args ← (if negb (truthy (get_property args "password")) then
            password ← generateSecurePassword;
            ret (set_property args "password" (VStr password))
          else ret args);
  ret args.

Lemma parseArgs_after_loop (argv : list string) :
  parseArgs argv = (now ← Date_now; after_loop (parsed_args now argv)).
Proof. reflexivity. Qed.

Lemma after_loop_stages (args0 : gmap string JsVal) (w : World) :
  after_loop args0 w =
    let args := resolve_preset args0 in
    match get_property args "image" with
    | VStr image =>
        let named :=
          name_stage (set_property args "os" (VStr (detectOSType image))) w in
        let done := password_stage (fst named) (snd named) in
        (Ret (fst done), snd done)
    | _ => (Throw image_error, w)
    end.
Proof.
  unfold after_loop. cbv zeta. generalize (resolve_preset args0) as args.
  intros args. unfold mbind, M_bind, bind.
  destruct (get_property args "image") as [| |image| |]; try reflexivity.
  cbn [call_detectOSType ret]. unfold name_stage.
  generalize (set_property args "os" (VStr (detectOSType image))) as args1.
  intros args1.
  destruct (truthy (get_property args1 "name")); cbn [negb].
  - cbn [ret fst snd]. unfold password_stage.
    destruct (truthy (get_property args1 "password")); cbn [negb];
      [reflexivity|].
    unfold generated_password.
    destruct (generateSecurePassword_returns w) as (pw & w' & E & _).
    rewrite E. reflexivity.
  - unfold auto_name.
    assert (HD : Date_now w = (Ret (clock w (ticks w)), tick w)) by reflexivity.
    destruct (decide (get_property args1 "os" = VStr "windows"));
      cbv beta; rewrite HD; cbn [ret fst snd]; unfold password_stage;
      generalize (tick w) as w1; intros w1; clear HD;
      match goal with |- context [set_property args1 "name" ?v] =>
        generalize (set_property args1 "name" v) as args2; intros args2
      end;
      (destruct (truthy (get_property args2 "password")); cbn [negb ret];
       [reflexivity|]);
      unfold generated_password;
      destruct (generateSecurePassword_returns w1) as (pw & w' & E & _);
      rewrite E; reflexivity.
Qed.

Lemma parseArgs_stages (argv : list string) (w : World) :
  parseArgs argv w =
    let args := resolve_preset (parsed_args (clock w (ticks w)) argv) in
    match get_property args "image" with
    | VStr image =>
        let named :=
          name_stage (set_property args "os" (VStr (detectOSType image))) (tick w) in
        let done := password_stage (fst named) (snd named) in
        (Ret (fst done), snd done)
    | _ => (Throw image_error, tick w)
    end.
Proof.
  rewrite parseArgs_after_loop. unfold mbind, M_bind, bind at 1.
  cbn [Date_now]. apply after_loop_stages.
Qed.

(** *** Reading and writing properties *)

Lemma get_property_own (args : gmap string JsVal) (k : string) (v : JsVal) :
  args !! k = Some v -> get_property args k = v.
Proof. unfold get_property. by intros ->. Qed.

Lemma get_set_property_eq (args : gmap string JsVal) (k : string) (v : JsVal) :
  k <> "__proto__" -> get_property (set_property args k v) k = v.
Proof.
  intros Hk. unfold set_property. rewrite decide_False by done.
  apply get_property_own, lookup_insert_eq.
Qed.

Lemma lookup_set_property_ne (args : gmap string JsVal) (k k' : string) (v : JsVal) :
  k <> k' -> set_property args k' v !! k = args !! k.
Proof.
  intros Hk. unfold set_property. destruct (decide (k' = "__proto__")); [done|].
  by rewrite lookup_insert_ne.
Qed.

Lemma get_set_property_ne (args : gmap string JsVal) (k k' : string) (v : JsVal) :
  k <> k' -> get_property (set_property args k' v) k = get_property args k.
Proof. intros Hk. unfold get_property. by rewrite lookup_set_property_ne. Qed.

(** The key of a token that starts with two dashes. *)
Definition flag_key (arg : string) : option string :=
  if Str.startsWith arg "--" then Some (arg_key arg) else None.

(** A value that is a non-empty string. *)
Definition filled (v : JsVal) : Prop := exists s, v = VStr s /\ s <> "".

Lemma truthy_arg_value (arg : string) :
  truthy (arg_value arg) = true -> filled (arg_value arg).
Proof.
  unfold arg_value. destruct (_ !! 1) as [v|]; [|done]. simpl.
  destruct (decide (v = "")); [done|]. intros _. by exists v.
Qed.

Lemma filled_truthy (v : JsVal) : filled v -> truthy v = true.
Proof. intros (s & -> & Hs). simpl. by rewrite decide_False. Qed.

(** One token either leaves a property alone or sets it to a non-empty
    string, and only the token's own key can be set. *)
Lemma apply_arg_lookup (args : gmap string JsVal) (arg k : string) :
  apply_arg args arg !! k = args !! k \/
  (exists v, apply_arg args arg !! k = Some v /\ filled v /\
             flag_key arg = Some k /\ v = arg_value arg).
Proof.
  unfold apply_arg, flag_key. destruct (Str.startsWith arg "--"); [|by left].
  destruct (has_property args (arg_key arg)); [|by left]. simpl.
  destruct (truthy (arg_value arg)) eqn:Hv; [|by left].
  destruct (decide (k = arg_key arg)) as [->|Hne].
  - unfold set_property. destruct (decide (arg_key arg = "__proto__")); [by left|].
    right. exists (arg_value arg). rewrite lookup_insert_eq.
    auto using truthy_arg_value.
  - left. by apply lookup_set_property_ne.
Qed.

Lemma foldl_apply_arg_lookup (argv : list string) (args : gmap string JsVal)
    (k : string) :
  foldl apply_arg args argv !! k = args !! k \/
  (exists v, foldl apply_arg args argv !! k = Some v /\ filled v /\
             exists arg, arg ∈ argv /\ flag_key arg = Some k /\ v = arg_value arg).
Proof.
  revert args. induction argv as [|arg argv IH]; intros args; [by left|].
  simpl. destruct (IH (apply_arg args arg)) as [E|(v & E & Hv & a & Ha & Hk)].
  - rewrite E. destruct (apply_arg_lookup args arg k) as [E'|(v & E' & Hv & Hk & Hav)].
    + by left.
    + right. exists v. repeat split; [done..|]. exists arg. split; [left|done].
  - right. exists v. repeat split; [done..|]. exists a. split; [by right|done].
Qed.

(** The object literal, with the default resource group left open. *)
Definition initial_args_with (resourceGroup : JsVal) : gmap string JsVal :=
  list_to_map
    [ ("location", VStr "northeurope");
      ("name", VNull);
      ("size", VStr "Standard_D2s_v3");
      ("image", VStr "windows-11");
      ("resourceGroup", resourceGroup);
      ("username", VStr "azureuser");
      ("password", VNull);
      ("os", VNull) ].

Lemma initial_args_eq (now : Z) :
  initial_args now = initial_args_with (VStr ("vm-rg-" +:+ Str.ofNumber now)).
Proof. reflexivity. Qed.

Lemma initial_args_fields (rg : JsVal) :
  initial_args_with rg !! "location" = Some (VStr "northeurope") /\
  initial_args_with rg !! "name" = Some VNull /\
  initial_args_with rg !! "size" = Some (VStr "Standard_D2s_v3") /\
  initial_args_with rg !! "image" = Some (VStr "windows-11") /\
  initial_args_with rg !! "resourceGroup" = Some rg /\
  initial_args_with rg !! "username" = Some (VStr "azureuser") /\
  initial_args_with rg !! "password" = Some VNull /\
  initial_args_with rg !! "os" = Some VNull.
Proof. by vm_compute. Qed.

(** After the loop a field holds its default or a non-empty string taken
    from a token with that key. *)
Lemma parsed_args_field (now : Z) (argv : list string) (k : string) :
  parsed_args now argv !! k = initial_args now !! k \/
  (exists v, parsed_args now argv !! k = Some v /\ filled v /\
             exists arg, arg ∈ argv /\ flag_key arg = Some k /\ v = arg_value arg).
Proof. apply foldl_apply_arg_lookup. Qed.

(** *** Preset resolution *)

Lemma preset_filled (key : string) (v : JsVal) :
  IMAGE_PRESETS !! key = Some v -> filled v.
Proof.
  intros H. apply elem_of_list_to_map_2 in H.
  repeat (apply elem_of_cons in H as [H|H];
          [injection H as _ ->; eexists; split; [reflexivity|done]|]).
  by apply elem_of_nil in H.
Qed.

(** What [IMAGE_PRESETS[key]] evaluates to. *)
Lemma preset_lookup_cases (key : string) :
  (exists v, IMAGE_PRESETS !! key = Some v /\
             get_property IMAGE_PRESETS key = v /\ filled v) \/
  (IMAGE_PRESETS !! key = None /\ key ∈ Object_prototype_keys /\
   truthy (get_property IMAGE_PRESETS key) = true /\
   forall s, get_property IMAGE_PRESETS key <> VStr s) \/
  (IMAGE_PRESETS !! key = None /\ (key ∉ Object_prototype_keys) /\
   get_property IMAGE_PRESETS key = VUndefined).
Proof.
  unfold get_property. destruct (IMAGE_PRESETS !! key) as [v|] eqn:E.
  - left. exists v. eauto using preset_filled.
  - right. destruct (decide (key = "__proto__")) as [->|Hp].
    + left. split; [reflexivity|]. split; [|split; [reflexivity|discriminate]].
      apply (bool_decide_unpack _). by vm_compute.
    + destruct (decide (key ∈ Object_prototype_keys)); [left|right].
      * split; [reflexivity|]. split; [assumption|].
        split; [reflexivity|discriminate].
      * split; [reflexivity|]. split; [assumption|reflexivity].
Qed.

Lemma resolve_preset_other (args : gmap string JsVal) (k : string) :
  k <> "image" -> resolve_preset args !! k = args !! k.
Proof.
  intros Hk. unfold resolve_preset. destruct (truthy _); [|done].
  by apply lookup_set_property_ne.
Qed.

Lemma resolve_preset_image (args : gmap string JsVal) :
  get_property (resolve_preset args) "image" =
  let preset := get_property IMAGE_PRESETS (toString (get_property args "image")) in
  if truthy preset then preset else get_property args "image".
Proof.
  unfold resolve_preset. cbv zeta. destruct (truthy _); [|done].
  by apply get_set_property_eq.
Qed.

(** *** The fields of the configuration *)

Lemma name_stage_name (args : gmap string JsVal) (w : World) :
  get_property (fst (name_stage args w)) "name" =
  if truthy (get_property args "name") then get_property args "name"
  else VStr (auto_name (get_property args "os") (clock w (ticks w))).
Proof.
  unfold name_stage. destruct (truthy _); [done|]. by apply get_set_property_eq.
Qed.

Lemma name_stage_other (args : gmap string JsVal) (w : World) (k : string) :
  k <> "name" -> fst (name_stage args w) !! k = args !! k.
Proof.
  intros Hk. unfold name_stage. destruct (truthy _); [done|].
  by apply lookup_set_property_ne.
Qed.

Lemma password_stage_password (args : gmap string JsVal) (w : World) :
  get_property (fst (password_stage args w)) "password" =
  if truthy (get_property args "password") then get_property args "password"
  else VStr (generated_password w).
Proof.
  unfold password_stage. destruct (truthy _); [done|].
  by apply get_set_property_eq.
Qed.

Lemma password_stage_other (args : gmap string JsVal) (w : World) (k : string) :
  k <> "password" -> fst (password_stage args w) !! k = args !! k.
Proof.
  intros Hk. unfold password_stage. destruct (truthy _); [done|].
  by apply lookup_set_property_ne.
Qed.

Lemma generated_password_policy (w : World) : meets_policy (generated_password w).
Proof.
  unfold generated_password.
  destruct (generateSecurePassword_returns w)
    as (pw & w' & E & c1 & c2 & c3 & c4 & more & shuffled &
        H1 & H2 & H3 & H4 & Hlen & Hmore & Hperm & ->).
  rewrite E. by eapply policy_of_rearrangement.
Qed.

Lemma get_property_lookup_eq (a b : gmap string JsVal) (k : string) :
  a !! k = b !! k -> get_property a k = get_property b k.
Proof. unfold get_property. by intros ->. Qed.

(** The world in which the password is generated: one clock reading
    after the start, two when a name had to be generated. *)
Definition password_world (named : bool) (w : World) : World :=
  if named then tick w else tick (tick w).

(** What a configuration [cfg] holds when the loop left [parsed] and the
    resolved image is [image], for a run started in [w]. *)
Record configured (parsed cfg : gmap string JsVal) (image : string) (w : World)
  : Prop := {
  cfg_image : get_property cfg "image" = VStr image;
  cfg_os : get_property cfg "os" = VStr (detectOSType image);
  cfg_name :
    get_property cfg "name" =
    if truthy (get_property parsed "name") then get_property parsed "name"
    else VStr (auto_name (VStr (detectOSType image)) (clock w (S (ticks w))));
  cfg_password :
    get_property cfg "password" =
    if truthy (get_property parsed "password") then get_property parsed "password"
    else VStr (generated_password
                 (password_world (truthy (get_property parsed "name")) w));
  cfg_other :
    forall k, k ∈ ["location"; "size"; "resourceGroup"; "username"] ->
              get_property cfg k = get_property parsed k
}.

Lemma parseArgs_configured (argv : list string) (w : World) (image : string) :
  let parsed := parsed_args (clock w (ticks w)) argv in
  get_property (resolve_preset parsed) "image" = VStr image ->
  exists cfg w', parseArgs argv w = (Ret cfg, w') /\ configured parsed cfg image w.
Proof.
  intros parsed Himage. rewrite parseArgs_stages. fold parsed. cbv zeta.
  rewrite Himage. eexists _, _. split; [reflexivity|].
  set (args1 := set_property (resolve_preset parsed) "os" _).
  assert (Hname : get_property args1 "name" = get_property parsed "name").
  { unfold args1. rewrite get_set_property_ne by done.
    by apply get_property_lookup_eq, resolve_preset_other. }
  assert (Hos : get_property args1 "os" = VStr (detectOSType image)).
  { by apply get_set_property_eq. }
  assert (Hpw : get_property (fst (name_stage args1 (tick w))) "password"
                = get_property parsed "password").
  { erewrite get_property_lookup_eq by (by apply name_stage_other).
    unfold args1. rewrite get_set_property_ne by done.
    by apply get_property_lookup_eq, resolve_preset_other. }
  split.
  - erewrite get_property_lookup_eq by (by apply password_stage_other).
    erewrite get_property_lookup_eq by (by apply name_stage_other).
    unfold args1. by rewrite get_set_property_ne.
  - erewrite get_property_lookup_eq by (by apply password_stage_other).
    by erewrite get_property_lookup_eq by (by apply name_stage_other).
  - erewrite get_property_lookup_eq by (by apply password_stage_other).
    by rewrite name_stage_name, Hname, Hos.
  - rewrite password_stage_password, Hpw.
    destruct (truthy (get_property parsed "password")); [done|].
    unfold name_stage, password_world. rewrite Hname.
    by destruct (truthy (get_property parsed "name")).
  - intros k Hk.
    assert (k <> "password" /\ k <> "name" /\ k <> "os" /\ k <> "image") as (?&?&?&?).
    { repeat split; intros ->; revert Hk; apply (bool_decide_unpack _);
        by vm_compute. }
    erewrite get_property_lookup_eq by (by apply password_stage_other).
    erewrite get_property_lookup_eq by (by apply name_stage_other).
    unfold args1. rewrite get_set_property_ne by done.
    by apply get_property_lookup_eq, resolve_preset_other.
Qed.

Lemma parseArgs_throws (argv : list string) (w : World) :
  (forall image,
     get_property (resolve_preset (parsed_args (clock w (ticks w)) argv)) "image"
     <> VStr image) ->
  parseArgs argv w = (Throw image_error, tick w).
Proof.
  intros H. rewrite parseArgs_stages. cbv zeta.
  destruct (get_property _ "image") as [| |image| |]; try done.
  by destruct (H image).
Qed.

Lemma parseArgs_Ret_inv (argv : list string) (w w' : World)
    (cfg : gmap string JsVal) :
  parseArgs argv w = (Ret cfg, w') ->
  exists image,
    configured (parsed_args (clock w (ticks w)) argv) cfg image w.
Proof.
  intros H.
  destruct (get_property (resolve_preset (parsed_args (clock w (ticks w)) argv))
              "image") as [| |image| |] eqn:E.
  1,2,4,5: rewrite parseArgs_throws in H
    by (intros image; rewrite E; discriminate); discriminate H.
  destruct (parseArgs_configured argv w image E) as (cfg' & w'' & E' & Hc).
  rewrite E' in H. injection H as -> ->. by exists image.
Qed.

(** A world to run examples in: the clock starts at 1700000000000 and
    every command succeeds without output. *)
Definition sample_world : World :=
  mkWorld (fun n => Z.of_nat n + 1700000000000)%Z 0 (fun n => 7 * n + 3) 0
          (fun _ _ => ExecOk "") [] [].

(** The configuration a run ended with, if it returned one. *)
Definition config_of (r : Res (gmap string JsVal) * World)
  : option (gmap string JsVal) :=
  match fst r with
  | Ret cfg => Some cfg
  | _ => None
  end.

Definition returned {A} (r : Res A * World) : bool :=
  match fst r with
  | Ret _ => true
  | _ => false
  end.

Lemma returned_config (argv : list string) (w : World) :
  returned (parseArgs argv w) = true ->
  parseArgs argv w =
  (Ret (default ∅ (config_of (parseArgs argv w))), snd (parseArgs argv w)).
Proof.
  unfold config_of, returned.
  destruct (parseArgs argv w) as [[cfg|e|c] w']; simpl;
    intros H; [reflexivity|discriminate H..].
Defined.

(** C2. The OS family is [windows] exactly when the image string contains
    "windows" or "win" in any mix of cases, and [linux] otherwise; and
    the family stored in a configuration is this function of the
    resolved image stored next to it, whatever the tokens were. *)
Theorem osFamily_of_image :
  (forall image,
     (detectOSType image = "windows" <->
      contains_ignoring_case image "windows" \/ contains_ignoring_case image "win") /\
     (detectOSType image = "linux" <->
      ~ (contains_ignoring_case image "windows" \/ contains_ignoring_case image "win"))) /\
  (forall argv w cfg w',
     parseArgs argv w = (Ret cfg, w') ->
     exists image,
       get_property cfg "image" = VStr image /\
       get_property cfg "os" = VStr (detectOSType image)).
Proof.
  split.
  - intros image. split; [apply detectOSType_windows|].
    rewrite <- detectOSType_windows.
    destruct (detectOSType_two_valued image) as [E|E]; rewrite E; split; done.
  - intros argv w cfg w' H. apply parseArgs_Ret_inv in H as (image & Hc).
    exists image. split; [apply Hc|apply Hc].
Qed.

Lemma osFamily_of_image_witness :
  exists image,
    get_property (default ∅ (config_of (parseArgs ["--image=ubuntu"] sample_world)))
      "image" = VStr image /\
    get_property (default ∅ (config_of (parseArgs ["--image=ubuntu"] sample_world)))
      "os" = VStr (detectOSType image).
Proof.
  apply (proj2 osFamily_of_image ["--image=ubuntu"] sample_world _
           (snd (parseArgs ["--image=ubuntu"] sample_world))).
  apply returned_config. vm_compute. reflexivity.
Defined.

(** ** Credential escaping *)

(** What one character of the password becomes inside the double-quoted
    argument. *)
Definition escape_char (c : ascii) : string :=
  if decide (c = Str.dquote) then String Str.backslash (String Str.dquote "")
  else if decide (c = Str.dollar) then String Str.backslash (String Str.dollar "")
  else String c "".

Fixpoint escaped (password : string) : string :=
  match password with
  | EmptyString => EmptyString
  | String c rest => escape_char c +:+ escaped rest
  end.

Lemma escapePassword_escaped (password : string) :
  escapePassword password = escaped password.
Proof.
  unfold escapePassword. induction password as [|c s IH]; [done|].
  cbn [Str.replaceAll escaped]. unfold escape_char.
  destruct (decide (c = Str.dquote)) as [->|Hq].
  - rewrite !str_app_cons, str_app_nil_l. cbn [Str.replaceAll].
    rewrite !decide_False by done. by rewrite IH.
  - cbn [Str.replaceAll]. destruct (decide (c = Str.dollar)) as [->|Hd].
    + by rewrite IH.
    + rewrite str_app_cons, str_app_nil_l. by rewrite IH.
Qed.

Lemma exists_prefix (p x l : string) :
  (exists before, x = before +:+ l) -> exists before, p +:+ x = before +:+ l.
Proof.
  intros [before ->]. exists (p +:+ before). by rewrite str_app_assoc.
Qed.

(** The password used throughout the specification's example: a, a double
    quote, b, a dollar sign, c. *)
Definition example_password : string :=
  String "a" (String Str.dquote (String "b" (String Str.dollar (String "c" "")))).

Definition example_escaped : string :=
  String "a" (String Str.backslash (String Str.dquote
    (String "b" (String Str.backslash (String Str.dollar (String "c" "")))))).

(** C5. The text placed between the double quotes of the
    [--admin-password] argument of the VM-creation command is the password
    with every double quote replaced by backslash-quote and every dollar
    sign by backslash-dollar; the example password renders as expected. *)
Theorem admin_password_is_escaped (args : gmap string JsVal) (password : string) :
  get_property args "password" = VStr password ->
  escapePassword password = escaped password /\
  (exists before after,
     vm_create_command args =
       before +:+ "--admin-password " +:+ String Str.dquote "" +:+
       escaped password +:+ String Str.dquote "" +:+ after) /\
  escapePassword example_password = example_escaped.
Proof.
  intros Hpw. split; [apply escapePassword_escaped|]. split; [|reflexivity].
  cut (exists before,
         vm_create_command args =
         before +:+ "--admin-password " +:+ String Str.dquote "" +:+
         escaped password +:+ String Str.dquote "" +:+ " " +:+
         "    --size " +:+ field args "size" +:+ " " +:+
         "    --public-ip-sku Standard " +:+ "    --nsg-rule " +:+ nsgRule args).
  { intros [before E]. exists before. eexists. exact E. }
  unfold vm_create_command, field. rewrite Hpw, escapePassword_escaped.
  cbn [toString]. do 13 apply exists_prefix. by exists "    ".
Qed.

Lemma admin_password_is_escaped_witness :
  escapePassword example_password = escaped example_password /\
  (exists before after,
     vm_create_command {[ "password" := VStr example_password ]} =
       before +:+ "--admin-password " +:+ String Str.dquote "" +:+
       escaped example_password +:+ String Str.dquote "" +:+ after) /\
  escapePassword example_password = example_escaped.
Proof.
  apply (admin_password_is_escaped {[ "password" := VStr example_password ]}).
  vm_compute. reflexivity.
Defined.

(** ** Tokens with a second equals sign *)

Lemma split_without_separator (sep : ascii) (s : string) :
  sep ∉ chars s -> Str.split sep s = [s].
Proof.
  induction s as [|a s IH]; intros Hs; [done|]. simpl.
  assert (a <> sep /\ sep ∉ chars s) as [Ha Hs'].
  { unfold chars in *. simpl in Hs. apply not_elem_of_cons in Hs as [? ?]. auto. }
  rewrite decide_False by done. by rewrite IH.
Qed.

Lemma split_at_separator (sep : ascii) (s t : string) :
  sep ∉ chars s ->
  Str.split sep (s +:+ String sep t) = s :: Str.split sep t.
Proof.
  induction s as [|a s IH]; intros Hs.
  - rewrite str_app_nil_l. simpl. by rewrite decide_True.
  - assert (a <> sep /\ sep ∉ chars s) as [Ha Hs'].
    { unfold chars in *. simpl in Hs. apply not_elem_of_cons in Hs as [? ?]. auto. }
    rewrite str_app_cons. simpl. rewrite decide_False by done. by rewrite IH.
Qed.

(** A token [--key=v1=v2]. *)
Definition token3 (key v1 v2 : string) : string :=
  "--" +:+ key +:+ String Str.equals (v1 +:+ String Str.equals v2).

(** A token [--key=v1]. *)
Definition token2 (key v1 : string) : string :=
  "--" +:+ key +:+ String Str.equals v1.

Lemma token3_parts (key v1 v2 : string) :
  Str.equals ∉ chars key -> Str.equals ∉ chars v1 ->
  Str.startsWith (token3 key v1 v2) "--" = true /\
  arg_key (token3 key v1 v2) = key /\
  arg_value (token3 key v1 v2) = VStr v1.
Proof.
  intros Hk Hv. split; [by apply startsWith_spec; eexists|].
  unfold arg_key, arg_value, token3.
  change (Str.substring_from 2 ("--" +:+ ?x)) with x.
  rewrite (split_at_separator _ key) by done.
  rewrite (split_at_separator _ v1) by done. by split.
Qed.

Lemma token2_parts (key v1 : string) :
  Str.equals ∉ chars key -> Str.equals ∉ chars v1 ->
  Str.startsWith (token2 key v1) "--" = true /\
  arg_key (token2 key v1) = key /\
  arg_value (token2 key v1) = VStr v1.
Proof.
  intros Hk Hv. split; [by apply startsWith_spec; eexists|].
  unfold arg_key, arg_value, token2.
  change (Str.substring_from 2 ("--" +:+ ?x)) with x.
  rewrite (split_at_separator _ key) by done.
  rewrite (split_without_separator _ v1) by done. by split.
Qed.

Lemma apply_arg_by_parts (args : gmap string JsVal) (a b : string) :
  Str.startsWith a "--" = Str.startsWith b "--" ->
  arg_key a = arg_key b -> arg_value a = arg_value b ->
  apply_arg args a = apply_arg args b.
Proof. unfold apply_arg. by intros -> -> ->. Qed.

(** Every field of the argument object is an own property all along. *)
Lemma apply_arg_own (args : gmap string JsVal) (arg k : string) :
  is_Some (args !! k) -> is_Some (apply_arg args arg !! k).
Proof.
  intros H. destruct (apply_arg_lookup args arg k) as [->|(v & -> & _)]; eauto.
Qed.

Lemma parsed_args_own (now : Z) (argv : list string) (k : string) :
  k ∈ config_fields -> is_Some (parsed_args now argv !! k).
Proof.
  intros Hk. destruct (parsed_args_field now argv k) as [->|(v & -> & _)]; [|eauto].
  rewrite initial_args_eq. revert Hk. generalize (VStr ("vm-rg-" +:+ Str.ofNumber now)).
  intros rg Hk. destruct (initial_args_fields rg) as (?&?&?&?&?&?&?&?).
  unfold config_fields, recognized_keys in Hk. simpl in Hk.
  repeat (apply elem_of_cons in Hk as [->|Hk]; [eauto|]).
  by apply elem_of_nil in Hk.
Qed.

Lemma has_property_own (args : gmap string JsVal) (k : string) :
  is_Some (args !! k) -> has_property args k = true.
Proof.
  intros H. unfold has_property. by rewrite bool_decide_eq_true_2.
Qed.

Lemma recognized_not_proto (k : string) : k ∈ recognized_keys -> k <> "__proto__".
Proof.
  intros Hk ->. revert Hk. apply (bool_decide_unpack _). by vm_compute.
Qed.

Lemma parsed_args_snoc (now : Z) (argv : list string) (arg : string) :
  parsed_args now (argv ++ [arg]) = apply_arg (parsed_args now argv) arg.
Proof. unfold parsed_args. by rewrite foldl_app. Qed.

Lemma recognized_no_equals (k : string) :
  k ∈ recognized_keys -> Str.equals ∉ chars k.
Proof.
  intros Hk. unfold recognized_keys in Hk.
  repeat (apply elem_of_cons in Hk as [->|Hk];
          [apply (bool_decide_unpack _); by vm_compute|]).
  by apply elem_of_nil in Hk.
Qed.

Lemma recognized_is_field (k : string) : k ∈ recognized_keys -> k ∈ config_fields.
Proof. intros Hk. apply elem_of_app. by left. Qed.

Lemma second_equals_example (w : World) :
  exists cfg w',
    parseArgs [token3 "password" "a" "b"] w = (Ret cfg, w') /\
    get_property cfg "password" = VStr "a".
Proof.
  assert (Himg : get_property
            (resolve_preset (parsed_args (clock w (ticks w)) [token3 "password" "a" "b"]))
            "image" = VStr "MicrosoftWindowsDesktop:Windows-11:win11-23h2-pro:latest").
  { unfold parsed_args. rewrite initial_args_eq.
    generalize (VStr ("vm-rg-" +:+ Str.ofNumber (clock w (ticks w)))).
    intros rg. vm_compute. reflexivity. }
  destruct (parseArgs_configured _ w _ Himg) as (cfg & w' & E & Hc).
  exists cfg, w'. split; [done|]. rewrite (cfg_password _ _ _ _ Hc).
  assert (get_property (parsed_args (clock w (ticks w)) [token3 "password" "a" "b"])
            "password" = VStr "a") as ->; [|done].
  unfold parsed_args. rewrite initial_args_eq.
  generalize (VStr ("vm-rg-" +:+ Str.ofNumber (clock w (ticks w)))).
  intros rg. vm_compute. reflexivity.
Qed.

(** ** Preset resolution against the claim *)

Lemma preset_resolves (args : gmap string JsVal) (key : string) (v : JsVal) :
  IMAGE_PRESETS !! key = Some v ->
  get_property args "image" = VStr key ->
  get_property (resolve_preset args) "image" = v.
Proof.
  intros Hkey Himg. rewrite resolve_preset_image, Himg. cbn [toString]. cbv zeta.
  rewrite (get_property_own _ _ _ Hkey).
  by rewrite (filled_truthy v (preset_filled key v Hkey)).
Qed.

Lemma raw_image_kept (args : gmap string JsVal) (s : string) :
  IMAGE_PRESETS !! s = None -> s ∉ Object_prototype_keys ->
  get_property args "image" = VStr s ->
  get_property (resolve_preset args) "image" = VStr s.
Proof.
  intros Hnone Hs Himg. rewrite resolve_preset_image, Himg. cbn [toString]. cbv zeta.
  destruct (preset_lookup_cases s) as [(v & E & _)|[(_ & Hin & _)|(_ & _ & ->)]];
    [congruence|done|done].
Qed.

Lemma inherited_image_replaced (args : gmap string JsVal) (s : string) :
  IMAGE_PRESETS !! s = None -> s ∈ Object_prototype_keys ->
  get_property args "image" = VStr s ->
  forall image, get_property (resolve_preset args) "image" <> VStr image.
Proof.
  intros Hnone Hs Himg image. rewrite resolve_preset_image, Himg. cbn [toString].
  cbv zeta.
  destruct (preset_lookup_cases s) as [(v & E & _)|[(_ & _ & -> & Hv)|(_ & Hn & _)]];
    [congruence|apply Hv|done].
Qed.

Example image_toString_text : token2 "image" "toString" = "--image=toString".
Proof. reflexivity. Qed.

(** C3, at the input where the code departs from it.  "toString" is not a
    preset key, yet [IMAGE_PRESETS["toString"]] finds the function every
    object inherits, the image is replaced by that function, and
    [parseArgs] throws when it calls [toLowerCase] on it. *)
Theorem image_toString_is_not_kept (w : World) :
  IMAGE_PRESETS !! "toString" = None /\
  get_property (parsed_args (clock w (ticks w)) ["--image=toString"]) "image"
    = VStr "toString" /\
  get_property
    (resolve_preset (parsed_args (clock w (ticks w)) ["--image=toString"])) "image"
    = VFun "toString" /\
  parseArgs ["--image=toString"] w = (Throw image_error, tick w).
Proof.
  assert (H1 : get_property (parsed_args (clock w (ticks w)) ["--image=toString"])
                 "image" = VStr "toString").
  { unfold parsed_args. rewrite initial_args_eq.
    generalize (VStr ("vm-rg-" +:+ Str.ofNumber (clock w (ticks w)))).
    intros rg. vm_compute. reflexivity. }
  assert (H2 : get_property
                 (resolve_preset (parsed_args (clock w (ticks w)) ["--image=toString"]))
                 "image" = VFun "toString").
  { rewrite resolve_preset_image, H1. vm_compute. reflexivity. }
  split; [by vm_compute|]. split; [done|]. split; [done|].
  apply parseArgs_throws. intros image. by rewrite H2.
Qed.

(** ** Generated names *)

Lemma substring_from_length (k : nat) (s : string) :
  String.length (Str.substring_from k s) = String.length s - k.
Proof.
  revert s. induction k as [|k IH]; intros s; simpl; [lia|].
  destruct s as [|a s]; simpl; [done|]. apply IH.
Qed.

Lemma slice_last_length (n : nat) (s : string) :
  String.length (Str.slice_last n s) <= n.
Proof. unfold Str.slice_last. rewrite substring_from_length. lia. Qed.

Lemma pretty_N_go_length (x : N) (s : string) :
  String.length s <= String.length (pretty_N_go x s).
Proof.
  revert s. induction (N.lt_wf_0 x) as [x _ IH]; intros s.
  destruct (decide (x = 0)%N) as [->|Hx]; [by rewrite pretty_N_go_0|].
  rewrite pretty_N_go_step by lia.
  etrans; [|apply IH; apply N.div_lt; lia]. simpl. lia.
Qed.

Lemma pretty_N_go_digits (k : nat) (x : N) (s : string) :
  (10 ^ N.of_nat k <= x)%N ->
  String.length s + S k <= String.length (pretty_N_go x s).
Proof.
  revert x s. induction k as [|k IH]; intros x s Hx.
  - change (10 ^ N.of_nat 0)%N with 1%N in Hx.
    rewrite pretty_N_go_step by lia.
    etrans; [|apply pretty_N_go_length]. simpl. lia.
  - assert (0 < x)%N.
    { eapply N.lt_le_trans; [|exact Hx]. apply N.neq_0_lt_0. by apply N.pow_nonzero. }
    rewrite pretty_N_go_step by done.
    etrans; [|apply IH].
    + simpl. lia.
    + apply N.div_le_lower_bound; [done|].
      rewrite Nat2N.inj_succ, N.pow_succ_r' in Hx. lia.
Qed.

Lemma ofNumber_digits (now : Z) :
  (1000000 <= now)%Z -> 7 <= String.length (Str.ofNumber now).
Proof.
  intros H. destruct now as [|p|p]; try lia.
  unfold Str.ofNumber, pretty, pretty_Z, pretty, pretty_positive, pretty, pretty_N.
  rewrite decide_False by done.
  apply (pretty_N_go_digits 6 (N.pos p) ""). change (10 ^ N.of_nat 6)%N with 1000000%N. lia.
Qed.

Lemma no_name_flag_parsed (now : Z) (argv : list string) :
  (forall arg, arg ∈ argv -> flag_key arg <> Some "name") ->
  get_property (parsed_args now argv) "name" = VNull.
Proof.
  intros H. apply get_property_own.
  destruct (parsed_args_field now argv "name") as [->|(v & _ & _ & arg & Ha & Hk & _)].
  - rewrite initial_args_eq. apply initial_args_fields.
  - by destruct (H arg Ha).
Qed.

(** C4. When no token has the key [name], the generated name of a
    [windows] configuration is "win-" followed by the last eight digits
    of the clock reading and is at most 15 characters long; the generated
    name of a [linux] configuration is "linux-vm-" followed by the whole
    clock reading, which exceeds 15 characters for every reading of at
    least 1000000.  Which scheme is used depends on the OS family already
    stored in the configuration. *)
Theorem generated_name_length (argv : list string) (w w' : World)
    (cfg : gmap string JsVal) :
  (forall arg, arg ∈ argv -> flag_key arg <> Some "name") ->
  parseArgs argv w = (Ret cfg, w') ->
  exists name,
    get_property cfg "name" = VStr name /\
    (get_property cfg "os" = VStr "windows" ->
       name = "win-" +:+ Str.slice_last 8 (Str.ofNumber (clock w (S (ticks w)))) /\
       String.length name <= 15) /\
    (get_property cfg "os" = VStr "linux" ->
       name = "linux-vm-" +:+ Str.ofNumber (clock w (S (ticks w))) /\
       ((1000000 <= clock w (S (ticks w)))%Z -> 15 < String.length name)) /\
    (get_property cfg "os" = VStr "windows" \/ get_property cfg "os" = VStr "linux").
Proof.
  intros Hflag Hrun. apply parseArgs_Ret_inv in Hrun as (image & Hc).
  pose proof (cfg_name _ _ _ _ Hc) as Hname.
  rewrite (no_name_flag_parsed _ _ Hflag) in Hname. cbn [truthy] in Hname.
  rewrite Hname, (cfg_os _ _ _ _ Hc). eexists. split; [reflexivity|].
  unfold auto_name.
  destruct (detectOSType_two_valued image) as [E|E]; rewrite E.
  - rewrite decide_True by done. split; [|split; [done|by left]].
    intros _. split; [done|]. rewrite str_app_length.
    pose proof (slice_last_length 8 (Str.ofNumber (clock w (S (ticks w))))).
    simpl. lia.
  - rewrite decide_False by done. split; [done|]. split; [|by right].
    intros _. split; [done|]. intros Hnow. rewrite str_app_length.
    pose proof (ofNumber_digits _ Hnow). simpl. lia.
Qed.

Lemma generated_name_length_witness :
  exists name,
    get_property (default ∅ (config_of (parseArgs ["--image=ubuntu"] sample_world)))
      "name" = VStr name /\
    (get_property (default ∅ (config_of (parseArgs ["--image=ubuntu"] sample_world)))
       "os" = VStr "windows" ->
       name = "win-" +:+ Str.slice_last 8
                (Str.ofNumber (clock sample_world (S (ticks sample_world)))) /\
       String.length name <= 15) /\
    (get_property (default ∅ (config_of (parseArgs ["--image=ubuntu"] sample_world)))
       "os" = VStr "linux" ->
       name = "linux-vm-" +:+
              Str.ofNumber (clock sample_world (S (ticks sample_world))) /\
       ((1000000 <= clock sample_world (S (ticks sample_world)))%Z ->
        15 < String.length name)) /\
    (get_property (default ∅ (config_of (parseArgs ["--image=ubuntu"] sample_world)))
       "os" = VStr "windows" \/
     get_property (default ∅ (config_of (parseArgs ["--image=ubuntu"] sample_world)))
       "os" = VStr "linux").
Proof.
  apply (generated_name_length ["--image=ubuntu"] sample_world
           (snd (parseArgs ["--image=ubuntu"] sample_world))).
  - intros arg Harg. apply list_elem_of_singleton in Harg. subst arg.
    vm_compute. discriminate.
  - apply returned_config. vm_compute. reflexivity.
Defined.

Example generated_names :
  get_property (default ∅ (config_of (parseArgs [] sample_world))) "name"
    = VStr "win-00000001" /\
  get_property (default ∅ (config_of (parseArgs ["--image=ubuntu"] sample_world))) "name"
    = VStr "linux-vm-1700000000001".
Proof. split; vm_compute; reflexivity. Qed.

Lemma no_password_flag_parsed (now : Z) (argv : list string) :
  (forall arg, arg ∈ argv -> flag_key arg <> Some "password") ->
  get_property (parsed_args now argv) "password" = VNull.
Proof.
  intros H. apply get_property_own.
  destruct (parsed_args_field now argv "password")
    as [->|(v & _ & _ & arg & Ha & Hk & _)].
  - rewrite initial_args_eq. apply initial_args_fields.
  - by destruct (H arg Ha).
Qed.

(** X1. The password of a configuration resolved from tokens without a
    [password] key is a generated one and meets the policy. *)
Lemma defaulted_password_policy (argv : list string) (w w' : World)
    (cfg : gmap string JsVal) :
  (forall arg, arg ∈ argv -> flag_key arg <> Some "password") ->
  parseArgs argv w = (Ret cfg, w') ->
  exists password, get_property cfg "password" = VStr password /\
                   meets_policy password.
Proof.
  intros Hflag Hrun. apply parseArgs_Ret_inv in Hrun as (image & Hc).
  pose proof (cfg_password _ _ _ _ Hc) as Hpw.
  rewrite (no_password_flag_parsed _ _ Hflag) in Hpw. cbn [truthy] in Hpw.
  eexists. split; [exact Hpw|]. apply generated_password_policy.
Qed.

Lemma defaulted_password_policy_witness :
  exists password,
    get_property (default ∅ (config_of (parseArgs ["--image=ubuntu"] sample_world)))
      "password" = VStr password /\
    meets_policy password.
Proof.
  apply (defaulted_password_policy ["--image=ubuntu"] sample_world
           (snd (parseArgs ["--image=ubuntu"] sample_world))).
  - intros arg Harg. apply list_elem_of_singleton in Harg. subst arg.
    vm_compute. discriminate.
  - apply returned_config. vm_compute. reflexivity.
Defined.

(** ** Ignored tokens and populated fields *)

(** A token the loop acts on for one of the seven documented keys. *)
Definition effective (arg : string) : bool :=
  Str.startsWith arg "--" &&
  bool_decide (arg_key arg ∈ recognized_keys) &&
  truthy (arg_value arg).

Lemma apply_arg_ignored (args : gmap string JsVal) (arg k : string) :
  effective arg = false -> k ∈ recognized_keys ->
  apply_arg args arg !! k = args !! k.
Proof.
  intros Heff Hk. destruct (apply_arg_lookup args arg k)
    as [E|(v & _ & Hv & Hflag & ->)]; [done|].
  unfold flag_key in Hflag. unfold effective in Heff.
  destruct (Str.startsWith arg "--"); [|done]. injection Hflag as Hkey.
  rewrite Hkey, (filled_truthy _ Hv), bool_decide_eq_true_2 in Heff by done.
  done.
Qed.

(** Two argument objects that hold the same values under the seven keys. *)
Definition agree (a b : gmap string JsVal) : Prop :=
  forall k, k ∈ recognized_keys -> a !! k = b !! k /\ is_Some (a !! k).

Lemma apply_arg_effective (a b : gmap string JsVal) (arg : string) :
  effective arg = true -> agree a b -> agree (apply_arg a arg) (apply_arg b arg).
Proof.
  intros Heff Hab k Hk. unfold effective in Heff.
  apply andb_true_iff in Heff as [Heff Hv]. apply andb_true_iff in Heff as [Hs Hkey].
  apply bool_decide_eq_true_1 in Hkey.
  destruct (Hab _ Hkey) as [Eab Hown]. unfold apply_arg. rewrite Hs, Hv.
  rewrite !has_property_own by (by rewrite <- ?Eab). cbn [andb].
  destruct (Hab k Hk) as [Ek Hownk].
  destruct (decide (k = arg_key arg)) as [->|Hne].
  - unfold set_property. rewrite !decide_False by (by apply recognized_not_proto).
    rewrite !lookup_insert_eq. split; [reflexivity|by eexists].
  - rewrite !lookup_set_property_ne by done. by split.
Qed.

Lemma foldl_filter_agree (argv : list string) (a b : gmap string JsVal) :
  agree a b ->
  agree (foldl apply_arg a argv) (foldl apply_arg b (List.filter effective argv)).
Proof.
  revert a b. induction argv as [|arg argv IH]; intros a b Hab; [done|].
  simpl. destruct (effective arg) eqn:Heff; simpl.
  - by apply IH, apply_arg_effective.
  - apply IH. intros k Hk. rewrite (apply_arg_ignored a arg k Heff Hk). by apply Hab.
Qed.

Lemma parsed_args_agree (now : Z) (argv : list string) (k : string) :
  k ∈ recognized_keys ->
  get_property (parsed_args now argv) k =
  get_property (parsed_args now (List.filter effective argv)) k.
Proof.
  intros Hk. apply get_property_lookup_eq.
  refine (proj1 (foldl_filter_agree argv _ _ _ k Hk)).
  intros k' Hk'. split; [done|].
  apply (parsed_args_own now [] k'), recognized_is_field, Hk'.
Qed.

(** X2. Tokens that do not start with two dashes, tokens whose key is
    not one of the seven (an [--os=...] token among them, although the
    loop stores it: the family is derived from the image afterwards), and
    tokens without a value change nothing: the run with them and the run
    without them end alike, with the same error or with configurations
    that agree on every field. *)
Lemma ignored_tokens_have_no_effect (argv : list string) (w : World) :
  match fst (parseArgs argv w), fst (parseArgs (List.filter effective argv) w) with
  | Ret cfg, Ret cfg' =>
      forall k, k ∈ config_fields -> get_property cfg k = get_property cfg' k
  | Throw e, Throw e' => e = e'
  | _, _ => False
  end.
Proof.
  set (now := clock w (ticks w)).
  assert (Hagree : forall k, k ∈ recognized_keys ->
            get_property (parsed_args now argv) k =
            get_property (parsed_args now (List.filter effective argv)) k)
    by apply parsed_args_agree.
  assert (Himg : get_property (resolve_preset (parsed_args now argv)) "image" =
                 get_property (resolve_preset (parsed_args now (List.filter effective argv)))
                   "image").
  { rewrite !resolve_preset_image. rewrite <- (Hagree "image"); [done|].
    apply (bool_decide_unpack _). by vm_compute. }
  destruct (get_property (resolve_preset (parsed_args now argv)) "image")
    as [| |image| |] eqn:E.
  1,2,4,5:
    rewrite (parseArgs_throws argv w), (parseArgs_throws (List.filter effective argv) w);
    [reflexivity
    |intros ?; fold now; first [rewrite E | rewrite <- Himg]; discriminate..].
  destruct (parseArgs_configured argv w image E) as (cfg & w1 & -> & Hc).
  symmetry in Himg.
  destruct (parseArgs_configured _ w image Himg) as (cfg' & w2 & -> & Hc').
  cbn [fst]. fold now in Hc, Hc'. intros k Hk.
  unfold config_fields, recognized_keys in Hk. simpl in Hk.
  assert (Hn : "name" ∈ recognized_keys) by (apply (bool_decide_unpack _); by vm_compute).
  assert (Hp : "password" ∈ recognized_keys) by (apply (bool_decide_unpack _); by vm_compute).
  assert (Hother : forall k, k ∈ ["location"; "size"; "resourceGroup"; "username"] ->
            get_property cfg k = get_property cfg' k).
  { intros k' Hk'.
    rewrite (cfg_other _ _ _ _ Hc k' Hk'), (cfg_other _ _ _ _ Hc' k' Hk').
    apply Hagree.
    repeat (apply elem_of_cons in Hk' as [->|Hk'];
            [apply (bool_decide_unpack _); by vm_compute|]).
    by apply elem_of_nil in Hk'. }
  repeat (apply elem_of_cons in Hk as [->|Hk]).
  - apply Hother. apply (bool_decide_unpack _). by vm_compute.
  - by rewrite (cfg_name _ _ _ _ Hc), (cfg_name _ _ _ _ Hc'), (Hagree "name").
  - apply Hother. apply (bool_decide_unpack _). by vm_compute.
  - by rewrite (cfg_image _ _ _ _ Hc), (cfg_image _ _ _ _ Hc').
  - apply Hother. apply (bool_decide_unpack _). by vm_compute.
  - apply Hother. apply (bool_decide_unpack _). by vm_compute.
  - by rewrite (cfg_password _ _ _ _ Hc), (cfg_password _ _ _ _ Hc'),
         (Hagree "password"), (Hagree "name").
  - by rewrite (cfg_os _ _ _ _ Hc), (cfg_os _ _ _ _ Hc').
  - by apply elem_of_nil in Hk.
Qed.

Lemma parsed_field_cases (now : Z) (argv : list string) (k : string) :
  get_property (parsed_args now argv) k = get_property (initial_args now) k \/
  (filled (get_property (parsed_args now argv) k) /\
   exists arg, arg ∈ argv /\ flag_key arg = Some k /\
               get_property (parsed_args now argv) k = arg_value arg).
Proof.
  destruct (parsed_args_field now argv k) as [E|(v & E & Hv & arg & Ha & Hk & ->)].
  - left. by apply get_property_lookup_eq.
  - right. rewrite (get_property_own _ _ _ E). eauto.
Qed.

Lemma initial_fields (now : Z) :
  get_property (initial_args now) "location" = VStr "northeurope" /\
  get_property (initial_args now) "name" = VNull /\
  get_property (initial_args now) "size" = VStr "Standard_D2s_v3" /\
  get_property (initial_args now) "image" = VStr "windows-11" /\
  get_property (initial_args now) "resourceGroup" = VStr ("vm-rg-" +:+ Str.ofNumber now) /\
  get_property (initial_args now) "username" = VStr "azureuser" /\
  get_property (initial_args now) "password" = VNull.
Proof.
  rewrite initial_args_eq.
  destruct (initial_args_fields (VStr ("vm-rg-" +:+ Str.ofNumber now)))
    as (?&?&?&?&?&?&?&?).
  repeat split; by apply get_property_own.
Qed.

Lemma resolved_image_filled (now : Z) (argv : list string) (image : string) :
  get_property (resolve_preset (parsed_args now argv)) "image" = VStr image ->
  image <> "".
Proof.
  rewrite resolve_preset_image. cbv zeta.
  destruct (parsed_field_cases now argv "image") as [E|[(s & E & Hs) _]]; rewrite E.
  - destruct (initial_fields now) as (_&_&_&->&_). vm_compute. by intros [= <-].
  - cbn [toString].
    destruct (preset_lookup_cases s) as [(v & _ & -> & (p & -> & Hp))|[(_&_&->&Hv)|(_&_&->)]].
    + rewrite (filled_truthy (VStr p)) by (by exists p). by intros [= <-].
    + intros H. by destruct (Hv image).
    + cbn [truthy]. by intros [= <-].
Qed.

(** X3. Whenever [parseArgs] returns, each of the eight fields of the
    configuration holds a non-empty string. *)
Lemma parseArgs_populated (argv : list string) (w w' : World)
    (cfg : gmap string JsVal) :
  parseArgs argv w = (Ret cfg, w') ->
  forall k, k ∈ config_fields -> filled (get_property cfg k).
Proof.
  intros Hrun. pose proof Hrun as Hrun'.
  apply parseArgs_Ret_inv in Hrun as (image & Hc).
  set (now := clock w (ticks w)) in *.
  destruct (initial_fields now) as (Hloc & Hname & Hsize & Himage & Hrg & Huser & Hpw).
  assert (Hother : forall k, k ∈ ["location"; "size"; "resourceGroup"; "username"] ->
                             filled (get_property cfg k)).
  { intros k Hk. rewrite (cfg_other _ _ _ _ Hc k Hk).
    destruct (parsed_field_cases now argv k) as [->|[H _]]; [|done].
    repeat (apply elem_of_cons in Hk as [->|Hk]);
      [rewrite Hloc|rewrite Hsize|rewrite Hrg|rewrite Huser|by apply elem_of_nil in Hk];
      eexists; (split; [reflexivity|done]). }
  intros k Hk. unfold config_fields, recognized_keys in Hk. simpl in Hk.
  repeat (apply elem_of_cons in Hk as [->|Hk]).
  - apply Hother. apply (bool_decide_unpack _). by vm_compute.
  - rewrite (cfg_name _ _ _ _ Hc).
    destruct (parsed_field_cases now argv "name") as [->|[H _]].
    + rewrite Hname. cbn [truthy]. eexists. split; [reflexivity|].
      unfold auto_name. by destruct (decide _).
    + by rewrite (filled_truthy _ H).
  - apply Hother. apply (bool_decide_unpack _). by vm_compute.
  - rewrite (cfg_image _ _ _ _ Hc). exists image. split; [done|].
    apply (resolved_image_filled now argv).
    rewrite parseArgs_stages in Hrun'. cbv zeta in Hrun'. fold now in Hrun'.
    destruct (get_property (resolve_preset (parsed_args now argv)) "image")
      as [| |image'| |] eqn:E; try discriminate Hrun'.
    destruct (parseArgs_configured argv w image' E) as (cfg' & w'' & E' & Hc').
    rewrite parseArgs_stages in E'. cbv zeta in E'. fold now in E'. rewrite E in E'.
    rewrite E' in Hrun'. injection Hrun' as -> _.
    pose proof (cfg_image _ _ _ _ Hc) as H1. pose proof (cfg_image _ _ _ _ Hc') as H2.
    congruence.
  - apply Hother. apply (bool_decide_unpack _). by vm_compute.
  - apply Hother. apply (bool_decide_unpack _). by vm_compute.
  - rewrite (cfg_password _ _ _ _ Hc).
    destruct (parsed_field_cases now argv "password") as [->|[H _]].
    + rewrite Hpw. cbn [truthy]. eexists. split; [reflexivity|].
      intros E. pose proof (generated_password_policy
        (password_world (truthy (get_property (parsed_args now argv) "name")) w))
        as [Hlen _].
      by rewrite E in Hlen.
    + by rewrite (filled_truthy _ H).
  - rewrite (cfg_os _ _ _ _ Hc). eexists. split; [reflexivity|].
    by destruct (detectOSType_two_valued image) as [-> | ->].
  - by apply elem_of_nil in Hk.
Qed.

Lemma parseArgs_populated_witness :
  filled (get_property
            (default ∅ (config_of (parseArgs ["--image=ubuntu"] sample_world)))
            "name").
Proof.
  apply (parseArgs_populated ["--image=ubuntu"] sample_world
           (snd (parseArgs ["--image=ubuntu"] sample_world))).
  - apply returned_config. vm_compute. reflexivity.
  - apply (bool_decide_unpack _). vm_compute. exact I.
Defined.

(** A configuration whose password is a string. *)
Definition password_is_text (args : gmap string JsVal) : Prop :=
  exists password, get_property args "password" = VStr password.

Lemma parseArgs_password_text (argv : list string) (w w' : World)
    (cfg : gmap string JsVal) :
  parseArgs argv w = (Ret cfg, w') -> password_is_text cfg.
Proof.
  intros Hrun. apply parseArgs_Ret_inv in Hrun as (image & Hc).
  unfold password_is_text. rewrite (cfg_password _ _ _ _ Hc).
  destruct (parsed_field_cases (clock w (ticks w)) argv "password")
    as [->|[(s & -> & Hs) _]].
  - destruct (initial_fields (clock w (ticks w))) as (_&_&_&_&_&_&->).
    cbn [truthy]. by eexists.
  - rewrite (filled_truthy (VStr s)) by (by exists s). by exists s.
Qed.

(** A token that does not ask for an image named like a property every
    object inherits. *)
Definition plain_image (arg : string) : Prop :=
  flag_key arg = Some "image" -> toString (arg_value arg) ∉ Object_prototype_keys.

Lemma parseArgs_returns (argv : list string) (w : World) :
  Forall plain_image argv ->
  exists cfg w', parseArgs argv w = (Ret cfg, w').
Proof.
  intros Hplain. set (now := clock w (ticks w)).
  assert (exists image,
            get_property (resolve_preset (parsed_args now argv)) "image" = VStr image)
    as [image Himage].
  { rewrite resolve_preset_image. cbv zeta.
    destruct (parsed_field_cases now argv "image")
      as [E|[(s & E & Hs) (arg & Ha & Hflag & Hval)]]; rewrite E.
    - destruct (initial_fields now) as (_&_&_&->&_). eexists. vm_compute. reflexivity.
    - cbn [toString].
      destruct (preset_lookup_cases s)
        as [(v & _ & -> & (p & -> & Hp))|[(_&Hin&_)|(_&_&->)]].
      + rewrite (filled_truthy (VStr p)) by (by exists p). by exists p.
      + rewrite Forall_forall in Hplain. destruct (Hplain arg Ha Hflag).
        by rewrite <- Hval, E.
      + by exists s. }
  destruct (parseArgs_configured argv w image Himage) as (cfg & w' & E & _).
  by exists cfg, w'.
Qed.

(** C9, at an input where the code departs from it.  The only token has
    the recognized key [image], yet no configuration is produced:
    "constructor" names a property every object inherits, the preset
    lookup finds it, and [parseArgs] throws. *)
Theorem image_constructor_raises (w : World) :
  effective "--image=constructor" = true /\
  parseArgs ["--image=constructor"] w = (Throw image_error, tick w) /\
  config_of (parseArgs ["--image=constructor"] w) = None.
Proof.
  assert (H : parseArgs ["--image=constructor"] w = (Throw image_error, tick w)).
  { apply parseArgs_throws. intros image. rewrite resolve_preset_image.
    assert (get_property (parsed_args (clock w (ticks w)) ["--image=constructor"])
              "image" = VStr "constructor") as ->.
    { unfold parsed_args. rewrite initial_args_eq.
      generalize (VStr ("vm-rg-" +:+ Str.ofNumber (clock w (ticks w)))).
      intros rg. vm_compute. reflexivity. }
    vm_compute. discriminate. }
  split; [by vm_compute|]. split; [done|]. unfold config_of. by rewrite H.
Qed.

(** ** The last token for a key *)

(** No token of [argv] has the key [k]. *)
Definition absent (k : string) (argv : list string) : Prop :=
  forall arg, arg ∈ argv -> flag_key arg <> Some k.

Lemma parseArgs_Ret_image (argv : list string) (w w' : World)
    (cfg : gmap string JsVal) :
  parseArgs argv w = (Ret cfg, w') ->
  get_property cfg "image" =
  get_property (resolve_preset (parsed_args (clock w (ticks w)) argv)) "image".
Proof.
  intros H.
  destruct (get_property (resolve_preset (parsed_args (clock w (ticks w)) argv))
              "image") as [| |image| |] eqn:E.
  1,2,4,5: rewrite parseArgs_throws in H
    by (intros image; rewrite E; discriminate); discriminate H.
  destruct (parseArgs_configured argv w image E) as (cfg' & w'' & E' & Hc).
  rewrite E' in H. injection H as -> ->. apply Hc.
Qed.

Lemma effective_parts (arg : string) :
  effective arg = true ->
  Str.startsWith arg "--" = true /\ arg_key arg ∈ recognized_keys /\
  truthy (arg_value arg) = true.
Proof.
  unfold effective. intros H.
  apply andb_true_iff in H as [H Hv]. apply andb_true_iff in H as [Hs Hk].
  apply bool_decide_eq_true_1 in Hk. done.
Qed.

(** After the loop a field holds the value of the last token that set it. *)
Lemma last_flag_wins (now : Z) (pre post : list string) (arg : string) :
  effective arg = true -> absent (arg_key arg) post ->
  get_property (parsed_args now (pre ++ arg :: post)) (arg_key arg) = arg_value arg.
Proof.
  intros Heff Hpost. apply effective_parts in Heff as (Hs & Hk & Hv).
  apply get_property_own. unfold parsed_args. rewrite foldl_app. cbn [foldl].
  fold (parsed_args now pre).
  destruct (foldl_apply_arg_lookup post (apply_arg (parsed_args now pre) arg)
              (arg_key arg)) as [->|(v & _ & _ & a & Ha & Hflag & _)].
  - unfold apply_arg. rewrite Hs, Hv.
    rewrite has_property_own by (by apply parsed_args_own, recognized_is_field).
    cbn [andb]. unfold set_property.
    rewrite decide_False by (by apply recognized_not_proto).
    apply lookup_insert_eq.
  - by destruct (Hpost a Ha).
Qed.

Lemma recognized_cases (k : string) :
  k ∈ recognized_keys ->
  k = "name" \/ k = "image" \/ k = "password" \/
  k ∈ ["location"; "size"; "resourceGroup"; "username"].
Proof.
  intros Hk. unfold recognized_keys in Hk.
  repeat (apply elem_of_cons in Hk as [->|Hk]); auto;
    try (right; right; right; apply (bool_decide_unpack _); by vm_compute).
  by apply elem_of_nil in Hk.
Qed.

(** ** The value of a token stops at the second equals sign *)

Example token3_text : token3 "password" "a" "b" = "--password=a=b".
Proof. reflexivity. Qed.

Lemma second_equals_same_token (key v1 v2 : string) (args : gmap string JsVal) :
  key ∈ recognized_keys -> Str.equals ∉ chars v1 ->
  apply_arg args (token3 key v1 v2) = apply_arg args (token2 key v1).
Proof.
  intros Hkey Hv1. pose proof (recognized_no_equals key Hkey) as Hk.
  destruct (token3_parts key v1 v2 Hk Hv1) as (Hs3 & Hk3 & Hv3).
  destruct (token2_parts key v1 Hk Hv1) as (Hs2 & Hk2 & Hv2).
  apply apply_arg_by_parts; congruence.
Qed.

Lemma second_equals_effective (key v1 v2 : string) :
  key ∈ recognized_keys -> Str.equals ∉ chars v1 -> v1 <> "" ->
  effective (token3 key v1 v2) = true /\
  arg_key (token3 key v1 v2) = key /\ arg_value (token3 key v1 v2) = VStr v1.
Proof.
  intros Hkey Hv1 Hne. pose proof (recognized_no_equals key Hkey) as Hk.
  destruct (token3_parts key v1 v2 Hk Hv1) as (Hs3 & Hk3 & Hv3).
  split; [|done]. unfold effective. rewrite Hs3, Hk3, Hv3.
  rewrite bool_decide_eq_true_2 by done. cbn [truthy andb]. by rewrite decide_False.
Qed.

(** C10 as stated fails.  The text before the second equals sign is not
    always what the configuration holds: an image is looked up among the
    presets first ([--image=ubuntu=x] ends as the identifier of the
    [ubuntu] preset), and when that text is empty the token is dropped
    ([--password==b] leaves the password to the generator). *)
Lemma second_equals_value_is_not_always_stored :
  ~ (forall key v1 v2 w cfg w',
       key ∈ recognized_keys -> Str.equals ∉ chars v1 ->
       parseArgs [token3 key v1 v2] w = (Ret cfg, w') ->
       get_property cfg key = VStr v1) /\
  token3 "image" "ubuntu" "x" = "--image=ubuntu=x" /\
  get_property (default ∅ (config_of (parseArgs ["--image=ubuntu=x"] sample_world)))
    "image" = VStr "Canonical:0001-com-ubuntu-server-jammy:22_04-lts:latest" /\
  token3 "password" "" "b" = "--password==b" /\
  get_property (default ∅ (config_of (parseArgs ["--password==b"] sample_world)))
    "password" <> VStr "".
Proof.
  split; [|split; [reflexivity|split; [vm_compute; reflexivity|split; [reflexivity|]]]].
  - intros H.
    specialize (H "image" "ubuntu" "x" sample_world
                  (default ∅ (config_of (parseArgs ["--image=ubuntu=x"] sample_world)))
                  (snd (parseArgs ["--image=ubuntu=x"] sample_world))).
    assert (E : get_property
                  (default ∅ (config_of (parseArgs ["--image=ubuntu=x"] sample_world)))
                  "image" = VStr "ubuntu").
    { apply H.
      - apply (bool_decide_unpack _). vm_compute. exact I.
      - apply (bool_decide_unpack _). vm_compute. exact I.
      - apply (returned_config ["--image=ubuntu=x"] sample_world). vm_compute. reflexivity. }
    vm_compute in E. discriminate E.
  - vm_compute. discriminate.
Qed.

(** C10, amended.  For a recognized key and a text [v1] without an
    equals sign, a token [--key=v1=v2] is handled exactly like
    [--key=v1]: by the loop, and so by the whole resolution, wherever the
    token stands; what follows the second equals sign is discarded.
    When [v1] is empty the token changes nothing.  When [v1] is not empty
    and no later token has the key, the configuration holds [v1] under
    that key, except that an image is first looked up among the presets.
    A password given as [--password=a=b] resolves to the password "a". *)
Theorem value_stops_at_second_equals (key v1 v2 : string) :
  key ∈ recognized_keys -> Str.equals ∉ chars v1 ->
  (forall args, apply_arg args (token3 key v1 v2) = apply_arg args (token2 key v1)) /\
  (forall pre post w,
     parseArgs (pre ++ token3 key v1 v2 :: post) w =
     parseArgs (pre ++ token2 key v1 :: post) w) /\
  (v1 = "" -> forall args, apply_arg args (token3 key v1 v2) = args) /\
  (v1 <> "" ->
   forall pre post w cfg w',
     absent key post ->
     parseArgs (pre ++ token3 key v1 v2 :: post) w = (Ret cfg, w') ->
     get_property cfg key =
     if decide (key = "image") then default (VStr v1) (IMAGE_PRESETS !! v1)
     else VStr v1) /\
  (forall w, exists cfg w',
     parseArgs [token3 "password" "a" "b"] w = (Ret cfg, w') /\
     get_property cfg "password" = VStr "a").
Proof.
  intros Hkey Hv1.
  split; [|split; [|split; [|split; [|apply second_equals_example]]]].
  - intros args. by apply second_equals_same_token.
  - intros pre post w. rewrite !parseArgs_stages. unfold parsed_args.
    rewrite !foldl_app. cbn [foldl]. by rewrite second_equals_same_token.
  - intros -> args. pose proof (recognized_no_equals key Hkey) as Hk.
    destruct (token3_parts key "" v2 Hk Hv1) as (Hs3 & Hk3 & Hv3).
    unfold apply_arg. rewrite Hs3, Hk3, Hv3. cbn [truthy].
    rewrite decide_True by done. by rewrite andb_false_r.
  - intros Hne pre post w cfg w' Hpost Hrun.
    destruct (second_equals_effective key v1 v2 Hkey Hv1 Hne) as (Heff & Hk3 & Hv3).
    assert (Hlast : get_property
                      (parsed_args (clock w (ticks w)) (pre ++ token3 key v1 v2 :: post))
                      key = VStr v1).
    { rewrite <- Hv3. rewrite <- Hk3 at 2. apply last_flag_wins; [done|by rewrite Hk3]. }
    pose proof (parseArgs_Ret_image _ _ _ _ Hrun) as Himage.
    apply parseArgs_Ret_inv in Hrun as (image & Hc).
    destruct (decide (key = "image")) as [->|Himg].
    + rewrite Himage, resolve_preset_image, Hlast. cbn [toString]. cbv zeta.
      destruct (preset_lookup_cases v1)
        as [(v & -> & -> & Hv)|[(_ & _ & Ht & Hno)|(-> & _ & ->)]].
      * by rewrite (filled_truthy _ Hv).
      * exfalso. rewrite (cfg_image _ _ _ _ Hc), resolve_preset_image, Hlast in Himage.
        cbn [toString] in Himage. cbv zeta in Himage. rewrite Ht in Himage.
        by destruct (Hno image).
      * reflexivity.
    + assert (Ht : truthy (VStr v1) = true) by (cbn; by rewrite decide_False).
      destruct (recognized_cases _ Hkey) as [E|[E|[E|Hin]]]; [|done| |].
      * rewrite E in *. by rewrite (cfg_name _ _ _ _ Hc), Hlast, Ht.
      * rewrite E in *. by rewrite (cfg_password _ _ _ _ Hc), Hlast, Ht.
      * by rewrite (cfg_other _ _ _ _ Hc _ Hin).
Qed.

Lemma value_stops_at_second_equals_witness :
  (forall args,
     apply_arg args (token3 "password" "a" "b") = apply_arg args (token2 "password" "a")) /\
  (forall pre post w,
     parseArgs (pre ++ token3 "password" "a" "b" :: post) w =
     parseArgs (pre ++ token2 "password" "a" :: post) w) /\
  ("a" = "" -> forall args, apply_arg args (token3 "password" "a" "b") = args) /\
  ("a" <> "" ->
   forall pre post w cfg w',
     absent "password" post ->
     parseArgs (pre ++ token3 "password" "a" "b" :: post) w = (Ret cfg, w') ->
     get_property cfg "password" =
     if decide ("password" = "image") then default (VStr "a") (IMAGE_PRESETS !! "a")
     else VStr "a") /\
  (forall w, exists cfg w',
     parseArgs [token3 "password" "a" "b"] w = (Ret cfg, w') /\
     get_property cfg "password" = VStr "a").
Proof.
  apply (value_stops_at_second_equals "password" "a" "b").
  - apply (bool_decide_unpack _). vm_compute. exact I.
  - apply (bool_decide_unpack _). vm_compute. exact I.
Defined.

(** ** Resolution as a function of tokens, clock and random source *)

Definition later_world : World :=
  mkWorld (fun n => Z.of_nat n + 1700000086400)%Z 0 (fun n => 7 * n + 3) 0
          (fun _ _ => ExecOk "") [] [].

(** C6 as stated fails: the same (empty) token sequence resolves to two
    different configurations when the clock differs. *)
Lemma resolution_depends_on_the_clock :
  ~ (forall argv w1 w2, config_of (parseArgs argv w1) = config_of (parseArgs argv w2)).
Proof.
  intros H. specialize (H [] sample_world later_world).
  apply (f_equal (fun c => get_property (default ∅ c) "resourceGroup")) in H.
  vm_compute in H. discriminate H.
Qed.

Global Instance plain_image_dec (arg : string) : Decision (plain_image arg).
Proof. unfold plain_image. apply _. Defined.

(** C6, amended.  Argument resolution runs no command and prints
    nothing; its result is a function of the tokens together with the
    clock readings and random draws it takes, so two runs on the same
    tokens that see the same clock and random source end alike; and it
    returns a configuration whenever no [image] token names a property
    inherited from Object.prototype. *)
Theorem resolution_is_deterministic_and_quiet (argv : list string) (w : World) :
  (calls (snd (parseArgs argv w)) = calls w /\
   console (snd (parseArgs argv w)) = console w) /\
  (forall w2,
     clock w2 = clock w -> ticks w2 = ticks w ->
     entropy w2 = entropy w -> draws w2 = draws w ->
     fst (parseArgs argv w2) = fst (parseArgs argv w)) /\
  (Forall plain_image argv -> exists cfg w', parseArgs argv w = (Ret cfg, w')).
Proof.
  split; [|split].
  - destruct (local_untouched (parseArgs argv) w (local_parseArgs argv)) as (_ & ? & ?).
    by split.
  - intros w2 ? ? ? ?. by apply local_oracle; [apply local_parseArgs|..].
  - apply parseArgs_returns.
Qed.

(** A world with the clock and random source of [sample_world] in which
    every command fails and two commands have already run. *)
Definition failing_world : World :=
  mkWorld (clock sample_world) 0 (entropy sample_world) 0
          (fun _ _ => ExecFail "" "Command failed")
          [("az --version", ExecOk ""); ("az account show", ExecOk "")] [].

Lemma resolution_is_deterministic_and_quiet_witness :
  fst (parseArgs ["--image=ubuntu"; "--verbose"] failing_world) =
  fst (parseArgs ["--image=ubuntu"; "--verbose"] sample_world) /\
  exists cfg w', parseArgs ["--image=ubuntu"; "--verbose"] sample_world = (Ret cfg, w').
Proof.
  split.
  - apply (proj1 (proj2 (resolution_is_deterministic_and_quiet
                           ["--image=ubuntu"; "--verbose"] sample_world)));
      reflexivity.
  - apply (proj2 (proj2 (resolution_is_deterministic_and_quiet
                           ["--image=ubuntu"; "--verbose"] sample_world))).
    apply (bool_decide_unpack _). vm_compute. exact I.
Defined.

(** ** Runs of the provisioning sequence *)

(** [m] always ends with some result [r], having run the commands [new]
    and printed [lines], and [Q r new lines] holds. *)
Definition traced {A} (m : M A)
    (Q : Res A -> list (string * ExecResult) -> list Line -> Prop) : Prop :=
  forall w, exists r w' new lines,
    m w = (r, w') /\ calls w' = calls w ++ new /\
    console w' = console w ++ lines /\ Q r new lines.

(** *** Vocabulary *)

(** How a command ended, as [exec] sees it: a failure that wrote nothing
    to standard output is thrown, any other outcome is returned as text. *)
Definition exec_result (o : ExecResult) : Res string :=
  match o with
  | ExecOk out => Ret (Str.trim out)
  | ExecFail out msg =>
      if decide (out = "") then Throw (ChildProcessError msg out)
      else Ret (Str.trim out)
  end.

Definition no_error_line (lines : list Line) : Prop :=
  forall text, Err text ∉ lines.

(** Some command of [new] failed without writing to standard output. *)
Definition failure_in (new : list (string * ExecResult)) : Prop :=
  exists command message, (command, ExecFail "" message) ∈ new.

(** Some line of [lines] went to standard error. *)
Definition error_in (lines : list Line) : Prop :=
  exists text, Err text ∈ lines.

(** A step that returns, runs exactly the commands [commands], and after
    a failure without output returns a value that [signals] it and has
    printed an error. *)
Definition step {A} (commands : list string) (signals : A -> Prop)
    (r : Res A) (new : list (string * ExecResult)) (lines : list Line) : Prop :=
  exists a, r = Ret a /\ fst <$> new = commands /\
            (failure_in new -> signals a /\ error_in lines).

(** A step that runs nothing, prints nothing and does not end the
    process. *)
Definition quiet {A} (r : Res A) (new : list (string * ExecResult))
    (lines : list Line) : Prop :=
  new = [] /\ lines = [] /\ forall c, r <> Exit c.

(** A step that only prints to standard output. *)
Definition only_prints (r : Res unit) (new : list (string * ExecResult))
    (lines : list Line) : Prop :=
  r = Ret tt /\ new = [] /\ no_error_line lines.

Definition then_post {A B} (P : Res A -> list (string * ExecResult) -> list Line -> Prop)
    (Q : A -> Res B -> list (string * ExecResult) -> list Line -> Prop)
    (r : Res B) (new : list (string * ExecResult)) (lines : list Line) : Prop :=
  (exists e, r = Throw e /\ P (Throw e) new lines) \/
  (exists c, r = Exit c /\ P (Exit c) new lines) \/
  (exists a new1 lines1 new2 lines2,
     P (Ret a) new1 lines1 /\ Q a r new2 lines2 /\
     new = new1 ++ new2 /\ lines = lines1 ++ lines2).

Definition catch_post {A} (P : Res A -> list (string * ExecResult) -> list Line -> Prop)
    (Q : JsError -> Res A -> list (string * ExecResult) -> list Line -> Prop)
    (r : Res A) (new : list (string * ExecResult)) (lines : list Line) : Prop :=
  (exists a, r = Ret a /\ P (Ret a) new lines) \/
  (exists c, r = Exit c /\ P (Exit c) new lines) \/
  (exists e new1 lines1 new2 lines2,
     P (Throw e) new1 lines1 /\ Q e r new2 lines2 /\
     new = new1 ++ new2 /\ lines = lines1 ++ lines2).

Definition ends_with {A} (r0 : Res A) (lines0 : list Line)
    (r : Res A) (new : list (string * ExecResult)) (lines : list Line) : Prop :=
  r = r0 /\ new = [] /\ lines = lines0.

(** *** Rules *)

Lemma traced_weaken {A} (m : M A) (P Q : Res A -> _ -> _ -> Prop) :
  traced m P -> (forall r new lines, P r new lines -> Q r new lines) -> traced m Q.
Proof.
  intros Hm HPQ w. destruct (Hm w) as (r & w' & new & lines & E & Hc & Hl & HP).
  exists r, w', new, lines. auto.
Qed.

Lemma traced_pure {A} (r : Res A) (Q : Res A -> _ -> _ -> Prop) :
  Q r [] [] -> traced (fun w => (r, w)) Q.
Proof.
  intros HQ w. exists r, w, [], []. by rewrite !List.app_nil_r.
Qed.

Lemma traced_print (l : Line) (Q : Res unit -> _ -> _ -> Prop) :
  Q (Ret tt) [] [l] -> traced (print l) Q.
Proof.
  intros HQ w. eexists (Ret tt), _, [], [l]. split; [reflexivity|].
  cbn [calls console]. by rewrite List.app_nil_r.
Qed.

Lemma traced_bind {A B} (m : M A) (k : A -> M B)
    (P : Res A -> _ -> _ -> Prop) (Q : Res B -> _ -> _ -> Prop) :
  traced m P ->
  (forall a new1 lines1, P (Ret a) new1 lines1 ->
     traced (k a) (fun r new2 lines2 => Q r (new1 ++ new2) (lines1 ++ lines2))) ->
  (forall e new lines, P (Throw e) new lines -> Q (Throw e) new lines) ->
  (forall c new lines, P (Exit c) new lines -> Q (Exit c) new lines) ->
  traced (a ← m; k a) Q.
Proof.
  intros Hm Hk He Hc w. unfold mbind, M_bind, bind.
  destruct (Hm w) as (r & w1 & new1 & lines1 & E & Hcalls & Hcons & HP). rewrite E.
  destruct r as [a|e|c].
  - destruct (Hk a new1 lines1 HP w1) as (r & w2 & new2 & lines2 & E2 & Hc2 & Hl2 & HQ).
    exists r, w2, (new1 ++ new2), (lines1 ++ lines2).
    rewrite E2, Hc2, Hl2, Hcalls, Hcons, !List.app_assoc. auto.
  - exists (Throw e), w1, new1, lines1. auto.
  - exists (Exit c), w1, new1, lines1. auto.
Qed.

Lemma traced_try_catch {A} (body : M A) (handler : JsError -> M A)
    (P Q : Res A -> _ -> _ -> Prop) :
  traced body P ->
  (forall e new1 lines1, P (Throw e) new1 lines1 ->
     traced (handler e) (fun r new2 lines2 => Q r (new1 ++ new2) (lines1 ++ lines2))) ->
  (forall a new lines, P (Ret a) new lines -> Q (Ret a) new lines) ->
  (forall c new lines, P (Exit c) new lines -> Q (Exit c) new lines) ->
  traced (try_catch body handler) Q.
Proof.
  intros Hb Hh Hr Hc w. unfold try_catch.
  destruct (Hb w) as (r & w1 & new1 & lines1 & E & Hcalls & Hcons & HP). rewrite E.
  destruct r as [a|e|c].
  - exists (Ret a), w1, new1, lines1. auto.
  - destruct (Hh e new1 lines1 HP w1) as (r & w2 & new2 & lines2 & E2 & Hc2 & Hl2 & HQ).
    exists r, w2, (new1 ++ new2), (lines1 ++ lines2).
    rewrite E2, Hc2, Hl2, Hcalls, Hcons, !List.app_assoc. auto.
  - exists (Exit c), w1, new1, lines1. auto.
Qed.

Lemma traced_local {A} (m : M A) :
  local m -> traced m (fun _ new lines => new = [] /\ lines = []).
Proof.
  intros Hm w. destruct (local_untouched m w Hm) as (_ & Hc & Hl).
  exists (fst (m w)), (snd (m w)), [], [].
  rewrite Hc, Hl, !List.app_nil_r. by destruct (m w).
Qed.

Lemma traced_exec (command : string) (silent : bool) :
  traced (exec command silent)
    (fun r new lines =>
       exists o, new = [(command, o)] /\ r = exec_result o /\ no_error_line lines).
Proof.
  intros w. unfold exec, try_catch, mbind, M_bind, bind, execSync.
  destruct silent; cbn [negb console_log print ret];
    destruct (shell _ _ command) as [out|out msg] eqn:E;
    cbn [error_stdout truthy toString exec_result];
    try destruct (decide (out = "")) as [->|Hout];
    eexists _, _, [_], _; (split; [reflexivity|]); cbn [calls console];
    (split; [reflexivity|]);
    (split; [first [by rewrite List.app_nil_r | reflexivity]|]);
    eexists; (split; [reflexivity|]);
    (split; [cbn [exec_result]; try rewrite decide_True by done;
             try rewrite decide_False by done; reflexivity|]);
    intros text Htext;
    repeat (apply elem_of_cons in Htext as [Htext|Htext]; [discriminate Htext|]);
    by apply elem_of_nil in Htext.
Qed.

(** Forward rules: the strongest description of a composite run. *)

Lemma run_ret {A} (a : A) : traced (ret a) (ends_with (Ret a) []).
Proof. by apply traced_pure. Qed.

Lemma run_throw {A} (e : JsError) : traced (@throw A e) (ends_with (Throw e) []).
Proof. by apply traced_pure. Qed.

Lemma run_exit {A} (c : Z) : traced (@process_exit A c) (ends_with (Exit c) []).
Proof. by apply traced_pure. Qed.

Lemma run_log (text : string) : traced (console_log text) (ends_with (Ret tt) [Out text]).
Proof. by apply traced_print. Qed.

Lemma run_error (text : string) :
  traced (console_error text) (ends_with (Ret tt) [Err text]).
Proof. by apply traced_print. Qed.

Lemma run_bind {A B} (m : M A) (k : A -> M B) P Q :
  traced m P -> (forall a, traced (k a) (Q a)) ->
  traced (a ← m; k a) (then_post P Q).
Proof.
  intros Hm Hk. eapply traced_bind; [exact Hm|..].
  - intros a new1 lines1 HP. eapply traced_weaken; [apply Hk|].
    intros r new2 lines2 HQ. right. right. by exists a, new1, lines1, new2, lines2.
  - intros e new lines HP. left. eauto.
  - intros c new lines HP. right. left. eauto.
Qed.

Lemma run_bind_good {A B} (m : M A) (k : A -> M B) P Q (good : A -> Prop) :
  traced m P -> (forall w a w', m w = (Ret a, w') -> good a) ->
  (forall a, good a -> traced (k a) (Q a)) ->
  traced (a ← m; k a) (then_post P Q).
Proof.
  intros Hm Hgood Hk w. unfold mbind, M_bind, bind.
  destruct (Hm w) as (r & w1 & new1 & lines1 & E & Hcalls & Hcons & HP). rewrite E.
  destruct r as [a|e|c].
  - destruct (Hk a (Hgood _ _ _ E) w1) as (r & w2 & new2 & lines2 & E2 & Hc2 & Hl2 & HQ).
    exists r, w2, (new1 ++ new2), (lines1 ++ lines2).
    rewrite E2, Hc2, Hl2, Hcalls, Hcons, !List.app_assoc.
    repeat split. right. right. by exists a, new1, lines1, new2, lines2.
  - exists (Throw e), w1, new1, lines1. repeat split; [done..|]. left. eauto.
  - exists (Exit c), w1, new1, lines1. repeat split; [done..|]. right. left. eauto.
Qed.

Lemma run_try_catch {A} (body : M A) (handler : JsError -> M A) P Q :
  traced body P -> (forall e, traced (handler e) (Q e)) ->
  traced (try_catch body handler) (catch_post P Q).
Proof.
  intros Hb Hh. eapply traced_try_catch; [exact Hb|..].
  - intros e new1 lines1 HP. eapply traced_weaken; [apply Hh|].
    intros r new2 lines2 HQ. right. right. by exists e, new1, lines1, new2, lines2.
  - intros a new lines HP. left. eauto.
  - intros c new lines HP. right. left. eauto.
Qed.

Lemma run_if {A} (b : bool) (m1 m2 : M A) P1 P2 :
  traced m1 P1 -> traced m2 P2 ->
  traced (if b then m1 else m2) (fun r new lines =>
    if b then P1 r new lines else P2 r new lines).
Proof. by destruct b. Qed.

Lemma run_if_dec {A} {P Q : Prop} (d : {P} + {Q}) (m1 m2 : M A) P1 P2 :
  traced m1 P1 -> traced m2 P2 ->
  traced (if d then m1 else m2) (fun r new lines =>
    if d then P1 r new lines else P2 r new lines).
Proof. by destruct d. Qed.

Lemma run_log_lines (texts : list string) :
  traced (log_lines texts)
    (fun r new lines => r = Ret tt /\ new = [] /\ no_error_line lines).
Proof.
  induction texts as [|t texts IH].
  - apply traced_pure. repeat split. intros text H. by apply elem_of_nil in H.
  - cbn [log_lines foldr]. eapply traced_weaken.
    + eapply run_bind; [apply run_log|]. intros u. exact IH.
    + intros r new lines [(e & _ & [=] & _)|[(c & _ & [=] & _)|
        (a & n1 & l1 & n2 & l2 & (_ & -> & ->) & (-> & -> & Hl) & -> & ->)]].
      repeat split. intros text H. apply elem_of_app in H as [H|H].
      * apply elem_of_cons in H as [H|H]; [discriminate H|by apply elem_of_nil in H].
      * by apply (Hl text).
Qed.

Lemma run_json_parse (JSON_parse : string -> option Json) (text : string) :
  traced (json_parse JSON_parse text) quiet.
Proof. unfold json_parse. destruct (JSON_parse text); by apply traced_pure. Qed.

Lemma run_member (v : option Json) (key : string) : traced (member v key) quiet.
Proof. unfold member. destruct v as [[]|]; by apply traced_pure. Qed.

Lemma failure_in_nil : ~ failure_in [].
Proof. intros (c & m & H). by apply elem_of_nil in H. Qed.

Lemma failure_in_app (new1 new2 : list (string * ExecResult)) :
  failure_in (new1 ++ new2) <-> failure_in new1 \/ failure_in new2.
Proof.
  unfold failure_in. split.
  - intros (c & m & H). apply elem_of_app in H as [H|H]; eauto.
  - intros [(c & m & H)|(c & m & H)]; exists c, m; apply elem_of_app; auto.
Qed.

Lemma failure_in_single (command : string) (o : ExecResult) :
  failure_in [(command, o)] <-> exists message, o = ExecFail "" message.
Proof.
  unfold failure_in. split.
  - intros (c & m & H). apply list_elem_of_singleton in H. injection H as _ <-. eauto.
  - intros (m & ->). exists command, m. apply list_elem_of_here.
Qed.

Lemma exec_result_failure (o : ExecResult) :
  (exists message, o = ExecFail "" message) <-> exists e, exec_result o = Throw e.
Proof.
  split.
  - intros (m & ->). by eexists.
  - intros (e & H). destruct o as [out|out m]; [done|]. simpl in H.
    destruct (decide (out = "")) as [->|]; [eauto|done].
Qed.

Lemma error_in_app (lines1 lines2 : list Line) :
  error_in (lines1 ++ lines2) <-> error_in lines1 \/ error_in lines2.
Proof.
  unfold error_in. split.
  - intros (t & H). apply elem_of_app in H as [H|H]; eauto.
  - intros [(t & H)|(t & H)]; exists t; apply elem_of_app; auto.
Qed.

Lemma error_in_cons_err (text : string) (lines : list Line) :
  error_in (Err text :: lines).
Proof. exists text. apply list_elem_of_here. Qed.

Lemma exec_result_not_exit (o : ExecResult) (c : Z) : Exit c <> exec_result o.
Proof. destruct o as [out|out m]; simpl; [done|]. by destruct (decide _). Qed.

Lemma returned_no_failure (command out : string) (o : ExecResult) :
  Ret out = exec_result o -> ~ failure_in [(command, o)].
Proof.
  intros H Hf. apply failure_in_single, exec_result_failure in Hf as [e He].
  congruence.
Qed.

Lemma no_error_line_app (lines1 lines2 : list Line) :
  no_error_line lines1 -> no_error_line lines2 -> no_error_line (lines1 ++ lines2).
Proof.
  intros H1 H2 text H. apply elem_of_app in H as [H|H]; [by apply (H1 text)|by apply (H2 text)].
Qed.

Lemma run_parseArgs (argv : list string) :
  traced (parseArgs argv)
    (fun r new lines => new = [] /\ lines = [] /\ forall c, r <> Exit c).
Proof.
  intros w. destruct (traced_local _ (local_parseArgs argv) w)
    as (r & w' & new & lines & E & Hc & Hl & -> & ->).
  exists r, w', [], []. repeat split; try done.
  intros c ->. rewrite parseArgs_stages in E. cbv zeta in E.
  by destruct (get_property _ "image").
Qed.

(** What follows [parseArgs] in a run is given a configuration whose
    password is a string. *)
Lemma run_after_parseArgs {B} (argv : list string) (k : gmap string JsVal -> M B) Q :
  (forall cfg, password_is_text cfg -> traced (k cfg) (Q cfg)) ->
  traced (cfg ← parseArgs argv; k cfg)
    (then_post (fun r new lines => new = [] /\ lines = [] /\ forall c, r <> Exit c) Q).
Proof.
  intros Hk. eapply (run_bind_good _ _ _ _ password_is_text);
    [apply run_parseArgs|intros w cfg w'; apply parseArgs_password_text|exact Hk].
Qed.

(** *** Tactics *)

(** Describes a composite run by the forward rules; [component] supplies
    the description of the steps that have a lemma of their own. *)
Ltac run_with component :=
  repeat match goal with
    | |- traced (mbind _ (parseArgs _)) _ => eapply run_after_parseArgs; intros ? ?
    | |- traced (ret _) _ => apply run_ret
    | |- traced (throw _) _ => apply run_throw
    | |- traced (process_exit _) _ => apply run_exit
    | |- traced (console_log _) _ => apply run_log
    | |- traced (console_error _) _ => apply run_error
    | |- traced (exec _ _) _ => apply traced_exec
    | |- traced (log_lines _) _ => apply run_log_lines
    | |- traced (json_parse _ _) _ => apply run_json_parse
    | |- traced (member _ _) _ => apply run_member
    | |- traced (mbind _ _) _ => eapply run_bind; [|intros ?]
    | |- traced (try_catch _ _) _ => eapply run_try_catch; [|intros ?]
    | |- traced (if negb _ then _ else _) _ => apply run_if
    | |- traced (if decide _ then _ else _) _ => apply run_if_dec
    | |- traced _ _ => component
    end.

Ltac run_steps := run_with ltac:(fail).

(** Takes such a description apart, one path of the run per goal. *)
Ltac unpack :=
  repeat match goal with
    | H : then_post _ _ _ _ _ |- _ =>
        destruct H as [(?&?&H)|[(?&?&H)|(?&?&?&?&?&?&H&?&?)]]
    | H : catch_post _ _ _ _ _ |- _ =>
        destruct H as [(?&?&H)|[(?&?&H)|(?&?&?&?&?&?&H&?&?)]]
    | H : ends_with _ _ _ _ _ |- _ => destruct H as (?&?&?)
    | H : quiet _ _ _ |- _ => destruct H as (?&?&?)
    | H : step _ _ _ _ _ |- _ => destruct H as (?&?&?&?)
    | H : only_prints _ _ _ |- _ => destruct H as (?&?&?)
    | H : if negb ?b then _ else _ |- _ => destruct b eqn:?; cbn [negb] in H
    | H : if ?b then _ else _ |- _ => destruct b
    | H : exists _, _ |- _ => destruct H
    | H : _ /\ _ |- _ => destruct H
    | H : Ret _ = Ret _ |- _ => injection H as H
    | H : Throw _ = Throw _ |- _ => injection H as H
    | H : Exit _ = Exit _ |- _ => injection H as H
    | H : Ret _ = Throw _ |- _ => discriminate H
    | H : Ret _ = Exit _ |- _ => discriminate H
    | H : Throw _ = Ret _ |- _ => discriminate H
    | H : Throw _ = Exit _ |- _ => discriminate H
    | H : Exit _ = Ret _ |- _ => discriminate H
    | H : Exit _ = Throw _ |- _ => discriminate H
    | H : Exit _ = exec_result _ |- _ => destruct (exec_result_not_exit _ _ H)
    | H : forall c, Exit ?x <> Exit c |- _ => destruct (H x eq_refl)
    end; subst.

Ltac find_error :=
  first
    [ assumption
    | apply error_in_cons_err
    | apply error_in_app; first [left; find_error | right; find_error] ].

(** Splits a failure in a concatenation into its cases and closes the
    cases that the recorded results exclude. *)
Ltac split_failure H :=
  repeat match type of H with
    | failure_in (_ ++ _) => apply failure_in_app in H as [H|H]
    | failure_in [] => destruct (failure_in_nil H)
    | failure_in [(_, ?o)] =>
        match goal with
        | E : Ret _ = exec_result o |- _ => destruct (returned_no_failure _ _ _ E H)
        end
    end.

Ltac step_leaf :=
  eexists; split; [reflexivity|]; split;
  [rewrite ?fmap_app; reflexivity|];
  let Hf := fresh "Hf" in
  intros Hf; split_failure Hf; try (split; [reflexivity|find_error]).

(** Uses what a step guarantees after a failure found in its commands. *)
Ltac use_step Hf :=
  split_failure Hf;
  try match goal with
    | H : failure_in ?x -> _ /\ _ |- _ =>
        match type of Hf with failure_in x =>
          let Hs := fresh "Hs" in let He := fresh "He" in
          destruct (H Hf) as [Hs He]; try discriminate Hs; try subst
        end
    end.

Ltac commands_leaf :=
  rewrite ?fmap_app;
  repeat match goal with H : _.*1 = _ |- _ => rewrite H; clear H end;
  reflexivity.

(** *** What each step of the sequence guarantees *)

Lemma checkAzureCli_step :
  traced checkAzureCli (step ["az --version"] (fun ok => ok = false)).
Proof.
  unfold checkAzureCli. eapply traced_weaken; [run_steps|].
  intros r new lines H. unpack; step_leaf.
Qed.

Lemma checkAzureLogin_step (JSON_parse : string -> option Json) :
  traced (checkAzureLogin JSON_parse)
    (step ["az account show"] (fun ok => ok = false)).
Proof.
  unfold checkAzureLogin. eapply traced_weaken; [run_steps|].
  intros r new lines H. unpack; step_leaf.
Qed.

Lemma createResourceGroup_step (args : gmap string JsVal) :
  traced (createResourceGroup args)
    (step [group_create_command args] (fun ok => ok = false)).
Proof.
  unfold createResourceGroup. eapply traced_weaken; [run_steps|].
  intros r new lines H. unpack; step_leaf.
Qed.

(** What [createVM] does once its password has turned out to be a
    string. *)
Definition createVM_text (JSON_parse : string -> option Json)
    (args : gmap string JsVal) : M Json :=
  _ ← console_log (nl +:+ "🖥️  Creating " +:+ osDisplay args +:+
                   " VM (this may take 2-3 minutes)...");
  try_catch
    (output ← exec (vm_create_command args) false;
     vmData ← json_parse JSON_parse output;
     _ ← console_log "✓ VM created successfully!";
     ret vmData)
    (fun error =>
       _ ← console_error ("❌ Failed to create VM: " +:+ error_message error);
       ret JNull).

Lemma createVM_of_text (JSON_parse : string -> option Json) (args : gmap string JsVal) :
  password_is_text args -> createVM JSON_parse args = createVM_text JSON_parse args.
Proof.
  intros [password Hp]. unfold createVM, createVM_text, vm_create_command, field.
  rewrite Hp. reflexivity.
Qed.

(** With any other password [createVM] throws before it runs a command. *)
Lemma createVM_of_other (JSON_parse : string -> option Json) (args : gmap string JsVal)
    (w : World) :
  ~ password_is_text args ->
  exists message,
    createVM JSON_parse args w =
    (Throw (TypeError message),
     snd (console_log (nl +:+ "🖥️  Creating " +:+ osDisplay args +:+
                       " VM (this may take 2-3 minutes)...") w)).
Proof.
  intros Hno. unfold createVM, mbind, M_bind, bind. cbn [console_log print].
  destruct (get_property args "password") as [| |password| |] eqn:E;
    cbn [password_receiver throw]; try (eexists; reflexivity).
  destruct Hno. by exists password.
Qed.

Lemma createVM_step (JSON_parse : string -> option Json) (args : gmap string JsVal) :
  password_is_text args ->
  traced (createVM JSON_parse args)
    (step [vm_create_command args] (fun vmData => vmData = JNull)).
Proof.
  intros Hp. rewrite (createVM_of_text _ _ Hp). unfold createVM_text.
  eapply traced_weaken; [run_steps|].
  intros r new lines H. unpack; step_leaf.
Qed.

Lemma run_display (args : gmap string JsVal) (vmData : Json) :
  traced (displayConnectionDetails args vmData) only_prints.
Proof.
  unfold displayConnectionDetails, displayWindowsConnectionDetails,
    displayLinuxConnectionDetails.
  eapply traced_weaken; [run_steps|].
  intros r new lines H. unpack; repeat split; auto using no_error_line_app.
Qed.

(** How a run of [provision] can go: resource-group creation reported
    failure; both creations went through; or VM creation reported failure
    and the cleanup command was run. *)
Definition provision_post (args : gmap string JsVal) (r : Res unit)
    (new : list (string * ExecResult)) (lines : list Line) : Prop :=
  (fst <$> new = [group_create_command args] /\ r = Exit 1 /\
   (failure_in new -> error_in lines)) \/
  (fst <$> new = [group_create_command args; vm_create_command args] /\
   r = Ret tt /\ ~ failure_in new) \/
  (fst <$> new = [group_create_command args; vm_create_command args;
                  group_delete_command args] /\
   (r = Exit 1 \/ exists e, r = Throw e) /\
   (failure_in new -> r = Exit 1 -> error_in lines)).

Lemma provision_run (JSON_parse : string -> option Json) (args : gmap string JsVal) :
  password_is_text args ->
  traced (provision JSON_parse args) (provision_post args).
Proof.
  intros Hp. unfold provision. eapply traced_weaken.
  { run_with ltac:(idtac; lazymatch goal with
                   | |- traced (createResourceGroup _) _ => apply createResourceGroup_step
                   | |- traced (createVM _ _) _ => apply createVM_step; assumption
                   | |- traced (displayConnectionDetails _ _) _ => apply run_display
                   end). }
  intros r new lines H. unpack.
  - left. split; [commands_leaf|]. split; [done|].
    intros Hf. use_step Hf. find_error.
  - right. right. split; [commands_leaf|]. split; [right; by eexists|].
    intros _ [=].
  - right. right. split; [commands_leaf|]. split; [by left|].
    intros Hf _. use_step Hf. find_error.
  - right. left. split; [commands_leaf|]. split; [done|].
    intros Hf. use_step Hf. discriminate.
Qed.

(** The commands a run of the program can have issued, with the result
    it then ends with.  [escapes] says whether an exception may still be
    on its way to the top-level handler. *)
Definition path (escapes : bool) (r : Res unit) (commands : list string) : Prop :=
  (commands = [] /\ r = Exit 0) \/
  (commands = ["az --version"] /\ r = Exit 1) \/
  (commands = ["az --version"; "az account show"] /\
   (r = Exit 1 \/ (escapes = true /\ exists e, r = Throw e))) \/
  (exists args,
     (commands = ["az --version"; "az account show"; group_create_command args] /\
      r = Exit 1) \/
     (commands = ["az --version"; "az account show"; group_create_command args;
                  vm_create_command args] /\ r = Ret tt) \/
     (commands = ["az --version"; "az account show"; group_create_command args;
                  vm_create_command args; group_delete_command args] /\
      (r = Exit 1 \/ (escapes = true /\ exists e, r = Throw e)))).

Definition main_post (r : Res unit) (new : list (string * ExecResult))
    (lines : list Line) : Prop :=
  path true r (fst <$> new) /\
  (failure_in new -> (r = Exit 1 /\ error_in lines) \/ exists e, r = Throw e).

Definition program_post (r : Res unit) (new : list (string * ExecResult))
    (lines : list Line) : Prop :=
  path false r (fst <$> new) /\
  (failure_in new -> r = Exit 1 /\ error_in lines).

Lemma main_run (JSON_parse : string -> option Json) (argv : list string) :
  traced (main JSON_parse argv) main_post.
Proof.
  unfold main. eapply traced_weaken.
  { run_with ltac:(idtac; lazymatch goal with
                   | |- traced checkAzureCli _ => apply checkAzureCli_step
                   | |- traced (checkAzureLogin _) _ => apply checkAzureLogin_step
                   | |- traced (provision _ _) _ => apply provision_run; assumption
                   end). }
  intros r new lines H. unpack.
  - split.
    + right. left. split; [commands_leaf|done].
    + intros Hf. use_step Hf. left. split; [done|find_error].
  - split.
    + right. right. left. split; [commands_leaf|by left].
    + intros Hf. use_step Hf. left. split; [done|find_error].
  - split.
    + right. right. left. split; [commands_leaf|]. right. split; [done|by eexists].
    + intros _. right. by eexists.
  - destruct H as [(Hc & -> & Hp)|[(Hc & -> & Hp)|(Hc & Hr & Hp)]]; split.
    + right. right. right. eexists. left. split; [commands_leaf|done].
    + intros Hf. use_step Hf. specialize (Hp Hf). left. split; [done|find_error].
    + right. right. right. eexists. right. left. split; [commands_leaf|done].
    + intros Hf. use_step Hf. by destruct Hp.
    + right. right. right. eexists. right. right. split; [commands_leaf|].
      destruct Hr as [->|Hr]; [by left|right; by split].
    + intros Hf. use_step Hf.
      destruct Hr as [->|Hr]; [|by right].
      specialize (Hp Hf eq_refl). left. split; [done|find_error].
Qed.

Lemma path_settled (r : Res unit) (commands : list string) :
  path true r commands -> (forall e, r <> Throw e) -> path false r commands.
Proof.
  intros [H|[H|[(Hc & [Hr|(_ & e & Hr)])|(args & [H|[H|(Hc & [Hr|(_ & e & Hr)])]])]]] Hne;
    try (by destruct (Hne e)).
  - by left.
  - right. by left.
  - right. right. left. split; [done|by left].
  - right. right. right. exists args. by left.
  - right. right. right. exists args. right. by left.
  - right. right. right. exists args. right. right. split; [done|by left].
Qed.

Lemma path_caught (e : JsError) (commands : list string) :
  path true (Throw e) commands -> path false (Exit 1) commands.
Proof.
  intros [(_ & [=])|[(_ & [=])|[(Hc & [[=]|_])|(args & [(_ & [=])|[(_ & [=])|(Hc & [[=]|_])]])]]].
  - right. right. left. split; [done|by left].
  - right. right. right. exists args. right. right. split; [done|by left].
Qed.

Lemma program_run (JSON_parse : string -> option Json) (argv : list string) :
  traced (program JSON_parse argv) program_post.
Proof.
  unfold program. destruct (bool_decide ("--help" ∈ argv)).
  - unfold showHelp. eapply traced_weaken; [run_steps|].
    intros r new lines H. unpack. split.
    + by left.
    + intros Hf. by destruct (failure_in_nil Hf).
  - unfold on_unexpected_error. eapply traced_weaken.
    { run_with ltac:(idtac; lazymatch goal with
                     | |- traced (main _ _) _ => apply main_run
                     end). }
    intros r new lines H. unpack;
      match goal with Hm : main_post _ _ _ |- _ => destruct Hm as [Hpath Hfail] end.
    + split; [by apply path_settled|].
      intros Hf. by destruct (Hfail Hf) as [?|[e ?]].
    + split; [by apply path_settled|].
      intros Hf. by destruct (Hfail Hf) as [?|[e ?]].
    + split.
      * rewrite !List.app_nil_r. by eapply path_caught.
      * intros _. split; [done|find_error].
Qed.

(** *** Cleanup *)









(** The commands run, and the lines printed, between [w] and the end of
    the run [run] that started in [w]. *)
Definition calls_during {A} (w : World) (run : Res A * World)
  : list (string * ExecResult) :=
  drop (List.length (calls w)) (calls (snd run)).

Definition lines_during {A} (w : World) (run : Res A * World) : list Line :=
  drop (List.length (console w)) (console (snd run)).

Lemma program_run_during (JSON_parse : string -> option Json) (argv : list string)
    (w : World) :
  program_post (fst (program JSON_parse argv w))
    (calls_during w (program JSON_parse argv w))
    (lines_during w (program JSON_parse argv w)).
Proof.
  destruct (program_run JSON_parse argv w) as (r & w' & new & lines & E & Hc & Hl & H).
  unfold calls_during, lines_during. rewrite E. cbn [fst snd].
  by rewrite Hc, Hl, !drop_app_length.
Qed.


(** *** Examples of runs *)

Definition is_error_line (l : Line) : bool :=
  match l with
  | Err _ => true
  | Out _ => false
  end.

Definition has_error (lines : list Line) : bool := existsb is_error_line lines.

Lemma error_in_has_error (lines : list Line) :
  error_in lines <-> has_error lines = true.
Proof.
  unfold error_in, has_error. rewrite existsb_exists. split.
  - intros (text & H). exists (Err text). split; [by apply list_elem_of_In|done].
  - intros ([text|text] & H & Hl); [done|]. exists text. by apply list_elem_of_In.
Qed.

Global Instance ExecResult_eq_dec : EqDecision ExecResult.
Proof. solve_decision. Defined.

Lemma ret_run {A} (m : M A) (w : World) (a : A) :
  fst (m w) = Ret a -> m w = (Ret a, snd (m w)).
Proof. destruct (m w) as [r w']. simpl. by intros ->. Defined.

Definition q : string := String Str.dquote "".

(** The text [{"user":{"name":"me@example.com"}}]. *)
Definition account_text : string :=
  "{" +:+ q +:+ "user" +:+ q +:+ ":{" +:+ q +:+ "name" +:+ q +:+ ":" +:+
  q +:+ "me@example.com" +:+ q +:+ "}}".

(** The text [{"publicIpAddress":"203.0.113.7"}]. *)
Definition vm_text : string :=
  "{" +:+ q +:+ "publicIpAddress" +:+ q +:+ ":" +:+ q +:+ "203.0.113.7" +:+ q +:+ "}".

(** [JSON.parse] on the two texts the examples feed it; every other text
    is rejected here. *)
Definition sample_JSON_parse (text : string) : option Json :=
  if decide (text = account_text)
  then Some (JObj [("user", JObj [("name", JStr "me@example.com")])])
  else if decide (text = vm_text)
  then Some (JObj [("publicIpAddress", JStr "203.0.113.7")])
  else None.

(** The configuration resolved from no tokens in [sample_world]. *)
Definition sample_config : gmap string JsVal :=
  default ∅ (config_of (parseArgs [] sample_world)).

(** Resource-group creation succeeds; every later command fails without
    output. *)
Definition vm_failure_world : World :=
  mkWorld (clock sample_world) 0 (entropy sample_world) 0
          (fun n _ => match n with
                      | 0 => ExecOk "{}"
                      | _ => ExecFail "" "Command failed"
                      end)
          [] [].







(** ** Reporting of failed commands *)

(** The tool is present and the operator logged in; creating the resource
    group fails after writing a line to standard output; the VM is then
    created. *)
Definition swallowing_world : World :=
  mkWorld (clock sample_world) 0 (entropy sample_world) 0
          (fun n _ => match n with
                      | 0 => ExecOk "azure-cli 2.60.0"
                      | 1 => ExecOk account_text
                      | 2 => ExecFail "Deployment started" "Command failed: az group create"
                      | _ => ExecOk vm_text
                      end)
          [] [].

(** C7 as stated fails: a failed command that wrote to standard output
    is taken for a success.  Here resource-group creation fails, the
    program prints no error and ends normally (status 0). *)
Lemma failed_group_creation_is_swallowed :
  (("az group create --name vm-rg-1700000000000 --location northeurope",
    ExecFail "Deployment started" "Command failed: az group create")
     ∈ calls (snd (program sample_JSON_parse [] swallowing_world))) /\
  fst (program sample_JSON_parse [] swallowing_world) = Ret tt /\
  exit_status (fst (program sample_JSON_parse [] swallowing_world)) = 0%Z /\
  ~ error_in (console (snd (program sample_JSON_parse [] swallowing_world))).
Proof.
  split; [|split; [|split]].
  - apply (bool_decide_unpack _). vm_compute. exact I.
  - vm_compute. reflexivity.
  - vm_compute. reflexivity.
  - rewrite error_in_has_error. vm_compute. discriminate.
Qed.

Lemma exec_result_run (command : string) (silent : bool) (w : World) :
  fst (exec command silent w) = exec_result (shell w (List.length (calls w)) command).
Proof.
  unfold exec, try_catch, mbind, M_bind, bind, execSync.
  destruct silent; cbn [negb console_log print ret calls];
    destruct (shell _ _ command) as [out|out msg]; cbn [error_stdout truthy exec_result];
    try destruct (decide (out = "")); reflexivity.
Qed.

(** C7, amended.  No exception escapes the program.  Whenever a command
    run by the program failed without writing to standard output, the
    program has printed an error line and ends with status 1.  ([exec]
    hands back the standard output of a failed command as its result
    when there is some, and throws only when there is none.) *)
Theorem failures_without_output_are_reported (JSON_parse : string -> option Json)
    (argv : list string) (w : World) :
  (fst (program JSON_parse argv w) = Ret tt \/
   exists c, fst (program JSON_parse argv w) = Exit c) /\
  (forall command message,
     (command, ExecFail "" message) ∈ calls_during w (program JSON_parse argv w) ->
     fst (program JSON_parse argv w) = Exit 1 /\
     error_in (lines_during w (program JSON_parse argv w))) /\
  (forall command silent w0,
     fst (exec command silent w0) =
     exec_result (shell w0 (List.length (calls w0)) command)).
Proof.
  destruct (program_run_during JSON_parse argv w) as [Hpath Hfail].
  split; [|split].
  - destruct Hpath as [(_&->)|[(_&->)|[(_&[->|(?&_)])|(args&[(_&->)|[(_&->)|(_&[->|(?&_)])]])]]];
      try done; eauto.
  - intros command message H. apply Hfail. by exists command, message.
  - apply exec_result_run.
Qed.

(** The tool is present and the operator logged in; creating the resource
    group fails without output. *)
Definition group_failure_world : World :=
  mkWorld (clock sample_world) 0 (entropy sample_world) 0
          (fun n _ => match n with
                      | 0 => ExecOk "azure-cli 2.60.0"
                      | 1 => ExecOk account_text
                      | _ => ExecFail "" "Command failed: az group create"
                      end)
          [] [].

Lemma failures_without_output_are_reported_witness :
  fst (program sample_JSON_parse [] group_failure_world) = Exit 1 /\
  error_in (lines_during group_failure_world
              (program sample_JSON_parse [] group_failure_world)).
Proof.
  apply (proj1 (proj2 (failures_without_output_are_reported
                         sample_JSON_parse [] group_failure_world))
           "az group create --name vm-rg-1700000000000 --location northeurope"
           "Command failed: az group create").
  apply (bool_decide_unpack _). vm_compute. exact I.
Defined.

(** * Further properties *)

(** ** Argument resolver: supplied values and defaults *)



(** X5. A key that no token carries keeps the default written in the
    object literal: location, size and user name are fixed texts, the
    resource group is "vm-rg-" followed by the first clock reading, and
    the image is the Windows 11 preset, which makes the OS family
    [windows]. *)
Theorem defaults_fill_absent_keys (argv : list string) (w w' : World)
    (cfg : gmap string JsVal) :
  parseArgs argv w = (Ret cfg, w') ->
  (absent "location" argv -> get_property cfg "location" = VStr "northeurope") /\
  (absent "size" argv -> get_property cfg "size" = VStr "Standard_D2s_v3") /\
  (absent "username" argv -> get_property cfg "username" = VStr "azureuser") /\
  (absent "resourceGroup" argv ->
     get_property cfg "resourceGroup" =
     VStr ("vm-rg-" +:+ Str.ofNumber (clock w (ticks w)))) /\
  (absent "image" argv ->
     get_property cfg "image" =
       VStr "MicrosoftWindowsDesktop:Windows-11:win11-23h2-pro:latest" /\
     get_property cfg "os" = VStr "windows").
Proof.
  intros Hrun. pose proof (parseArgs_Ret_image _ _ _ _ Hrun) as Himage.
  apply parseArgs_Ret_inv in Hrun as (image & Hc).
  set (now := clock w (ticks w)) in *.
  destruct (initial_fields now) as (Hloc & _ & Hsize & Himg & Hrg & Huser & _).
  assert (Hkeep : forall k, absent k argv ->
            get_property (parsed_args now argv) k = get_property (initial_args now) k).
  { intros k Hk. destruct (parsed_field_cases now argv k) as [E|[_ (a & Ha & Hf & _)]];
      [done|by destruct (Hk a Ha)]. }
  split; [|split; [|split; [|split]]].
  - intros Hk. rewrite (cfg_other _ _ _ _ Hc), (Hkeep _ Hk); [done|].
    apply (bool_decide_unpack _). by vm_compute.
  - intros Hk. rewrite (cfg_other _ _ _ _ Hc), (Hkeep _ Hk); [done|].
    apply (bool_decide_unpack _). by vm_compute.
  - intros Hk. rewrite (cfg_other _ _ _ _ Hc), (Hkeep _ Hk); [done|].
    apply (bool_decide_unpack _). by vm_compute.
  - intros Hk. rewrite (cfg_other _ _ _ _ Hc), (Hkeep _ Hk); [done|].
    apply (bool_decide_unpack _). by vm_compute.
  - intros Hk.
    assert (E : VStr image = VStr "MicrosoftWindowsDesktop:Windows-11:win11-23h2-pro:latest").
    { rewrite <- (cfg_image _ _ _ _ Hc), Himage, resolve_preset_image, (Hkeep _ Hk), Himg.
      vm_compute. reflexivity. }
    injection E as ->. split; [apply Hc|]. rewrite (cfg_os _ _ _ _ Hc).
    vm_compute. reflexivity.
Qed.

Lemma defaults_fill_absent_keys_witness :
  get_property
    (default ∅ (config_of (parseArgs ["--size=Standard_B2s"; "notes.txt"] sample_world)))
    "location" = VStr "northeurope" /\
  get_property
    (default ∅ (config_of (parseArgs ["--size=Standard_B2s"; "notes.txt"] sample_world)))
    "resourceGroup" = VStr "vm-rg-1700000000000" /\
  get_property
    (default ∅ (config_of (parseArgs ["--size=Standard_B2s"; "notes.txt"] sample_world)))
    "os" = VStr "windows".
Proof.
  assert (Habsent : forall k, k <> "size" ->
            absent k ["--size=Standard_B2s"; "notes.txt"]).
  { intros k Hk a Ha. apply elem_of_cons in Ha as [->|Ha].
    - vm_compute. congruence.
    - apply list_elem_of_singleton in Ha. subst a. vm_compute. discriminate. }
  destruct (defaults_fill_absent_keys ["--size=Standard_B2s"; "notes.txt"] sample_world
              (snd (parseArgs ["--size=Standard_B2s"; "notes.txt"] sample_world))
              (default ∅ (config_of (parseArgs ["--size=Standard_B2s"; "notes.txt"]
                                       sample_world))))
    as (Hloc & _ & _ & Hrg & Himg).
  { apply returned_config. vm_compute. reflexivity. }
  split; [|split].
  - apply Hloc, Habsent. discriminate.
  - apply Hrg, Habsent. discriminate.
  - apply Himg, Habsent. discriminate.
Defined.





(** ** Credential generator: the alphabet *)

Lemma class_in_alphabet :
  Forall (fun c => c ∈ chars Password.allChars)
    (chars Password.lowercase ++ chars Password.uppercase ++
     chars Password.digits ++ chars Password.special).
Proof. apply (bool_decide_unpack _). by vm_compute. Qed.

Lemma char_of_alphabet (s : string) (e : option ascii) :
  s ∈ [Password.lowercase; Password.uppercase; Password.digits; Password.special;
       Password.allChars] ->
  char_of s e -> char_of Password.allChars e.
Proof.
  intros Hs (c & -> & Hc). exists c. split; [done|].
  pose proof (proj1 (Forall_forall _ _) class_in_alphabet c) as Hall.
  repeat (apply elem_of_cons in Hs as [->|Hs]);
    [apply Hall; rewrite !elem_of_app; auto ..| done |by apply elem_of_nil in Hs].
Qed.

Lemma join_chars (l : list (option ascii)) (c : ascii) :
  c ∈ chars (Password.join l) -> Some c ∈ l.
Proof.
  unfold chars, Password.join, Str.join.
  rewrite list_ascii_of_string_of_list_ascii.
  intros H. apply list_elem_of_omap in H as (e & He & E). simpl in E. by subst e.
Qed.

(** X8. Every character of a generated password comes from the alphabet
    of the generator: the 26 lowercase and 26 uppercase letters, the ten
    digits and the 26 listed special characters.  So a generated password
    never contains a double quote, a backslash or a space. *)
Theorem generated_password_alphabet (w : World) :
  exists password w',
    generateSecurePassword w = (Ret password, w') /\
    (forall c, c ∈ chars password -> c ∈ chars Password.allChars) /\
    String.length Password.allChars = 88 /\
    (Str.dquote ∉ chars password) /\ (Str.backslash ∉ chars password) /\
    (" "%char ∉ chars password).
Proof.
  destruct (generateSecurePassword_returns w)
    as (password & w' & Hrun & c1 & c2 & c3 & c4 & more & shuffled &
        H1 & H2 & H3 & H4 & Hlen & Hmore & Hperm & ->).
  exists (Password.join shuffled), w'. split; [exact Hrun|].
  assert (Hin : forall c, c ∈ chars (Password.join shuffled) ->
                          c ∈ chars Password.allChars).
  { intros c Hc. apply join_chars in Hc. rewrite Hperm in Hc.
    assert (char_of Password.allChars (Some c)) as (c' & [= <-] & Hc'); [|done].
    apply elem_of_app in Hc as [Hc|Hc].
    - repeat (apply elem_of_cons in Hc as [->|Hc]);
        [eapply char_of_alphabet; [|eassumption]; repeat constructor ..|].
      apply elem_of_nil in Hc. destruct Hc.
    - by apply (proj1 (Forall_forall _ _) Hmore). }
  split; [exact Hin|]. split; [reflexivity|].
  repeat split; intros Hc; apply Hin in Hc; revert Hc;
    apply (bool_decide_unpack _); by vm_compute.
Qed.

(** ** Escaping: reading the text back *)

(** Reading an escaped text back: a backslash followed by a double quote
    or a dollar sign stands for that character, everything else for
    itself. *)
Fixpoint unescape (s : string) : string :=
  match s with
  | EmptyString => EmptyString
  | String c rest =>
      match rest with
      | String d rest' =>
          if decide (c = Str.backslash /\ (d = Str.dquote \/ d = Str.dollar))
          then String d (unescape rest')
          else String c (unescape rest)
      | EmptyString => String c EmptyString
      end
  end.

Lemma escaped_head (s : string) (d : ascii) (t : string) :
  escaped s = String d t -> d <> Str.dquote /\ d <> Str.dollar.
Proof.
  destruct s as [|c s]; [done|]. cbn [escaped]. unfold escape_char.
  destruct (decide (c = Str.dquote)); [intros [= <- _]; done|].
  destruct (decide (c = Str.dollar)); [intros [= <- _]; done|].
  rewrite str_app_cons. by intros [= <- _].
Qed.

(** X9. Escaping loses nothing: reading the escaped text back, with a
    backslash before a double quote or a dollar sign standing for that
    character, gives the password again; hence two different passwords
    are never sent as the same text. *)
Theorem escapePassword_can_be_undone (password : string) :
  unescape (escapePassword password) = password /\
  forall other, escapePassword other = escapePassword password -> other = password.
Proof.
  cut (forall p, unescape (escapePassword p) = p).
  { intros H. split; [apply H|]. intros other E.
    by rewrite <- (H other), <- (H password), E. }
  clear password. intros password. rewrite escapePassword_escaped.
  induction password as [|c s IH]; [done|]. cbn [escaped]. unfold escape_char.
  destruct (decide (c = Str.dquote)) as [->|Hq].
  { rewrite !str_app_cons, str_app_nil_l. cbn [unescape].
    rewrite decide_True by auto. by rewrite IH. }
  destruct (decide (c = Str.dollar)) as [->|Hd].
  { rewrite !str_app_cons, str_app_nil_l. cbn [unescape].
    rewrite decide_True by auto. by rewrite IH. }
  rewrite str_app_cons, str_app_nil_l.
  destruct (escaped s) as [|d t] eqn:E.
  - destruct s as [|c' s]; [done|]. exfalso. revert E. cbn [escaped]. unfold escape_char.
    by repeat destruct (decide _).
  - change (unescape (String c (String d t))) with
      (if decide (c = Str.backslash /\ (d = Str.dquote \/ d = Str.dollar))
       then String d (unescape t) else String c (unescape (String d t))).
    destruct (escaped_head s d t E) as [? ?].
    rewrite decide_False by (intros [_ [?|?]]; done). by rewrite IH.
Qed.

Lemma escaped_app (a b : string) : escaped (a +:+ b) = escaped a +:+ escaped b.
Proof.
  induction a as [|c a IH]; [done|]. rewrite str_app_cons. cbn [escaped].
  by rewrite IH, str_app_assoc.
Qed.

(** X10. Escaping works one character at a time, so the escaped text of a
    concatenation is the concatenation of the escaped texts; a backslash
    is not escaped, so a password that ends in a backslash is sent with
    that backslash right before the closing double quote; and the escaped
    text is at least as long as the password and at most twice as long. *)
Theorem escapePassword_by_character (a b : string) :
  escapePassword (a +:+ b) = escapePassword a +:+ escapePassword b /\
  escapePassword (a +:+ String Str.backslash "")
    = escapePassword a +:+ String Str.backslash "" /\
  String.length a <= String.length (escapePassword a) <= 2 * String.length a.
Proof.
  rewrite !escapePassword_escaped. split; [apply escaped_app|]. split.
  - by rewrite escaped_app.
  - induction a as [|c a IH]; [simpl; lia|]. cbn [escaped].
    rewrite str_app_length. unfold escape_char.
    repeat destruct (decide _); simpl in *; lia.
Qed.

(** ** OS family: the two tests and the presets *)

Lemma contains_windows_win (image : string) :
  contains_ignoring_case image "windows" -> contains_ignoring_case image "win".
Proof.
  intros (pre & mid & post & -> & H).
  inversion H as [|c1 d1 s1 t1 H1 H']; subst.
  inversion H' as [|c2 d2 s2 t2 H2 H'']; subst.
  inversion H'' as [|c3 d3 s3 t3 H3 H''']; subst.
  exists pre, (String c1 (String c2 (String c3 ""))), (s3 +:+ post).
  split; [by rewrite !str_app_cons|].
  repeat (constructor; [assumption|]). constructor.
Qed.

(** X11. The test for "windows" adds nothing to the test for "win": an
    image is classified as [windows] exactly when it contains "win" in
    any mix of cases.  So every image whose name merely contains these
    three letters is taken for a Windows image. *)
Theorem detectOSType_win (image : string) :
  (detectOSType image = "windows" <-> contains_ignoring_case image "win") /\
  (forall pre post, detectOSType (pre +:+ "win" +:+ post) = "windows").
Proof.
  assert (H : detectOSType image = "windows" <-> contains_ignoring_case image "win").
  { rewrite detectOSType_windows. split; [|auto].
    intros [H|H]; [by apply contains_windows_win|done]. }
  split; [exact H|]. intros pre post. apply detectOSType_windows. right.
  exists pre, "win", post. split; [done|]. by apply eq_ignoring_case_lower.
Qed.

(** X12. The preset table and the OS detection agree: each of the four
    presets whose key starts with "windows" maps to an image that is
    classified as [windows], each of the six others to an image that is
    classified as [linux]. *)
Theorem presets_match_os_detection (key image : string) :
  IMAGE_PRESETS !! key = Some (VStr image) ->
  detectOSType image = (if Str.startsWith key "windows" then "windows" else "linux").
Proof.
  intros H. apply elem_of_list_to_map_2 in H.
  repeat (apply elem_of_cons in H as [H|H];
          [injection H as -> ->; vm_compute; reflexivity|]).
  by apply elem_of_nil in H.
Qed.

Lemma presets_match_os_detection_witness :
  detectOSType "SUSE:sles-15-sp3:gen2:latest" = "linux".
Proof.
  apply (presets_match_os_detection "suse" "SUSE:sles-15-sp3:gen2:latest").
  vm_compute. reflexivity.
Defined.

Lemma vm_create_command_rule (args : gmap string JsVal) :
  exists before,
    vm_create_command args = before +:+ "--nsg-rule " +:+ nsgRule args.
Proof.
  unfold vm_create_command. do 22 apply exists_prefix. by exists "    ".
Qed.

(** X13. The inbound rule is the last argument of the VM-creation command
    and follows the resolved image: RDP (and the display name Windows)
    when the image contains "win" in any mix of cases, SSH (and Linux)
    otherwise. *)
Theorem access_rule_follows_image (argv : list string) (w w' : World)
    (cfg : gmap string JsVal) :
  parseArgs argv w = (Ret cfg, w') ->
  exists image before,
    get_property cfg "image" = VStr image /\
    vm_create_command cfg = before +:+ "--nsg-rule " +:+ nsgRule cfg /\
    (contains_ignoring_case image "win" ->
       nsgRule cfg = "RDP" /\ osDisplay cfg = "Windows") /\
    (~ contains_ignoring_case image "win" ->
       nsgRule cfg = "SSH" /\ osDisplay cfg = "Linux").
Proof.
  intros Hrun. apply parseArgs_Ret_inv in Hrun as (image & Hc).
  destruct (vm_create_command_rule cfg) as [before Hcmd].
  exists image, before. split; [apply Hc|]. split; [exact Hcmd|].
  unfold nsgRule, osDisplay. rewrite (cfg_os _ _ _ _ Hc).
  assert (Hw : detectOSType image = "windows" <-> contains_ignoring_case image "win").
  { rewrite detectOSType_windows. split; [|auto].
    intros [H|H]; [by apply contains_windows_win|done]. }
  split; intros H.
  - apply Hw in H. rewrite H. by rewrite decide_True.
  - destruct (detectOSType_two_valued image) as [E|E]; [by apply Hw in E|].
    rewrite E. by rewrite decide_False.
Qed.

Lemma access_rule_follows_image_witness :
  exists image before,
    get_property (default ∅ (config_of (parseArgs ["--image=ubuntu"] sample_world)))
      "image" = VStr image /\
    vm_create_command (default ∅ (config_of (parseArgs ["--image=ubuntu"] sample_world)))
      = before +:+ "--nsg-rule " +:+
        nsgRule (default ∅ (config_of (parseArgs ["--image=ubuntu"] sample_world))) /\
    (contains_ignoring_case image "win" ->
       nsgRule (default ∅ (config_of (parseArgs ["--image=ubuntu"] sample_world)))
         = "RDP" /\
       osDisplay (default ∅ (config_of (parseArgs ["--image=ubuntu"] sample_world)))
         = "Windows") /\
    (~ contains_ignoring_case image "win" ->
       nsgRule (default ∅ (config_of (parseArgs ["--image=ubuntu"] sample_world)))
         = "SSH" /\
       osDisplay (default ∅ (config_of (parseArgs ["--image=ubuntu"] sample_world)))
         = "Linux").
Proof.
  apply (access_rule_follows_image ["--image=ubuntu"] sample_world
           (snd (parseArgs ["--image=ubuntu"] sample_world))).
  apply returned_config. vm_compute. reflexivity.
Defined.

(** ** What each check and each creation step answers *)

(** How the next run of [command] in [w] ends. *)
Definition outcome (w : World) (command : string) : ExecResult :=
  shell w (List.length (calls w)) command.

(** [w] after [command] has been run. *)
Definition record_call (command : string) (w : World) : World :=
  mkWorld (clock w) (ticks w) (entropy w) (draws w) (shell w)
          (calls w ++ [(command, outcome w command)]) (console w).

(** [w] after [lines] have been printed. *)
Definition printed (lines : list Line) (w : World) : World :=
  mkWorld (clock w) (ticks w) (entropy w) (draws w) (shell w) (calls w)
          (console w ++ lines).

(** A failure that left nothing on standard output. *)
Definition silent_failure (o : ExecResult) : Prop :=
  exists message, o = ExecFail "" message.

Lemma exec_silent (command : string) (w : World) :
  exec command true w = (exec_result (outcome w command), record_call command w).
Proof.
  unfold exec, try_catch, mbind, M_bind, bind, execSync, outcome, record_call.
  cbn [negb ret]. unfold outcome.
  destruct (shell w (List.length (calls w)) command) as [out|out msg];
    cbn [error_stdout truthy exec_result]; [reflexivity|].
  by destruct (decide (out = "")).
Qed.

Lemma exec_logged (command : string) (w : World) :
  exec command false w =
  (exec_result (outcome w command),
   record_call command (printed [Out ("➤ " +:+ command)] w)).
Proof.
  unfold exec, try_catch, mbind, M_bind, bind, execSync, outcome, record_call, printed.
  cbn [negb console_log print ret calls shell clock ticks entropy draws console].
  unfold outcome. cbn [calls shell].
  destruct (shell w (List.length (calls w)) command) as [out|out msg];
    cbn [error_stdout truthy exec_result]; [reflexivity|].
  by destruct (decide (out = "")).
Qed.

Lemma silent_failure_thrown (o : ExecResult) :
  silent_failure o <-> exists e, exec_result o = Throw e.
Proof. apply exec_result_failure. Qed.

(** X14. The check for the command-line tool runs [az --version] once
    and fails exactly when that command failed without writing to
    standard output; it then prints one error line and the install hint.
    A passed check prints nothing. *)
Theorem checkAzureCli_verdict (w : World) :
  exists ok,
    fst (checkAzureCli w) = Ret ok /\
    calls (snd (checkAzureCli w)) =
      calls w ++ [("az --version", outcome w "az --version")] /\
    (ok = false <-> silent_failure (outcome w "az --version")) /\
    console (snd (checkAzureCli w)) =
      console w ++
      (if ok then []
       else [Err "❌ Azure CLI is not installed.";
             Out "Please install it from: https://docs.microsoft.com/en-us/cli/azure/install-azure-cli"]).
Proof.
  unfold checkAzureCli, try_catch, mbind, M_bind, bind. rewrite exec_silent.
  pose proof (silent_failure_thrown (outcome w "az --version")) as Hs.
  destruct (exec_result (outcome w "az --version")) as [out|e|c] eqn:E.
  - exists true. cbn [ret fst snd record_call calls console].
    rewrite List.app_nil_r. repeat split; try done.
    intros Hf. apply Hs in Hf as [e He]. discriminate He.
  - exists false. cbn [console_error console_log print ret fst snd record_call calls console].
    rewrite <- List.app_assoc. repeat split; try done. intros _. apply Hs. by exists e.
  - by destruct (exec_result_not_exit _ _ (eq_sym E)).
Qed.

(** X15. Creating the resource group runs the creation command once and
    reports failure exactly when that command failed without writing to
    standard output; a command that failed after writing something is
    reported as a success. *)
Theorem createResourceGroup_verdict (args : gmap string JsVal) (w : World) :
  exists ok,
    fst (createResourceGroup args w) = Ret ok /\
    calls (snd (createResourceGroup args w)) =
      calls w ++ [(group_create_command args, outcome w (group_create_command args))] /\
    (ok = false <-> silent_failure (outcome w (group_create_command args))) /\
    (ok = false <-> error_in (lines_during w (createResourceGroup args w))).
Proof.
  unfold createResourceGroup, try_catch, mbind, M_bind, bind.
  cbn [console_log print]. rewrite exec_logged. unfold lines_during.
  change (outcome (mkWorld (clock w) (ticks w) (entropy w) (draws w) (shell w)
                     (calls w) ?l) ?c) with (outcome w c).
  pose proof (silent_failure_thrown (outcome w (group_create_command args))) as Hs.
  destruct (exec_result (outcome w (group_create_command args))) as [out|e|c] eqn:E.
  - exists true. cbn [console_log print ret fst snd record_call printed calls console].
    rewrite <- !List.app_assoc, drop_app_length.
    split; [done|]. split; [done|]. split; (split; [done|]).
    + intros Hf. apply Hs in Hf as [e He]. discriminate He.
    + rewrite error_in_has_error. cbn. done.
  - exists false.
    cbn [console_error console_log print ret fst snd record_call printed calls console].
    rewrite <- !List.app_assoc, drop_app_length.
    split; [done|]. split; [done|]. split; (split; [|done]); intros _.
    + apply Hs. by exists e.
    + rewrite error_in_has_error. reflexivity.
  - by destruct (exec_result_not_exit _ _ (eq_sym E)).
Qed.

(** The [user] member of the account description [text], when [text] is
    JSON for an object that has one. *)
Definition account_user (JSON_parse : string -> option Json) (text : string)
  : option Json :=
  match JSON_parse text with
  | Some (JObj fields) =>
      snd <$> List.find (fun kv => bool_decide (fst kv = "user")) fields
  | _ => None
  end.

(** An outcome of [az account show] that describes a logged-in user. *)
Definition logged_in (JSON_parse : string -> option Json) (o : ExecResult) : Prop :=
  exists account user,
    exec_result o = Ret account /\
    account_user JSON_parse account = Some user /\ user <> JNull.

(** The account name the login check prints: the [name] member of the
    [user] member when that is an object, "undefined" when it is a
    number, text, array or boolean; nothing when there is no [user] to
    read a name from. *)
Definition login_name (JSON_parse : string -> option Json) (text : string)
  : option string :=
  match account_user JSON_parse text with
  | None | Some JNull => None
  | Some (JObj names) =>
      Some (interpolate (snd <$> List.find (fun kv => bool_decide (fst kv = "name")) names))
  | Some _ => Some "undefined"
  end.

Definition not_logged_in : list Line :=
  [Err "❌ Not logged in to Azure."; Out "Please run: az login"].

Lemma checkAzureLogin_run (JSON_parse : string -> option Json) (w : World) :
  checkAzureLogin JSON_parse w =
  match exec_result (outcome w "az account show") with
  | Ret text =>
      match login_name JSON_parse text with
      | Some name =>
          (Ret true,
           printed [Out ("✓ Logged in as: " +:+ name)] (record_call "az account show" w))
      | None => (Ret false, printed not_logged_in (record_call "az account show" w))
      end
  | _ => (Ret false, printed not_logged_in (record_call "az account show" w))
  end.
Proof.
  assert (Hlines : forall w1 : World,
            printed [Out "Please run: az login"]
              (printed [Err "❌ Not logged in to Azure."] w1) = printed not_logged_in w1).
  { intros w1. unfold printed, not_logged_in. cbn [console]. by rewrite <- List.app_assoc. }
  unfold checkAzureLogin, try_catch, mbind, M_bind, bind. rewrite exec_silent.
  destruct (exec_result (outcome w "az account show")) as [out|e|c] eqn:E;
    [|apply (f_equal (pair _)), Hlines
     |by destruct (exec_result_not_exit _ _ (eq_sym E))].
  unfold json_parse, login_name, account_user.
  destruct (JSON_parse out) as [[| b | n | s | items | fields]|];
    cbn [ret throw member]; try apply (f_equal (pair _)), Hlines.
  destruct (List.find (fun kv => bool_decide (fst kv = "user")) fields)
    as [[key [| b | n | s | items | names]]|];
    cbn [fmap option_fmap option_map snd ret throw member interpolate];
    first [apply (f_equal (pair _)), Hlines | reflexivity].
Qed.

(** X16. The login check runs [az account show] once and never throws.
    It passes exactly when the command left text that parses as a JSON
    object with a [user] member other than [null]; it then prints one
    line naming the account.  In every other case (the command failed
    without output, the text is not JSON, the identity is missing) it
    prints the error line and the hint and answers [false]. *)
Theorem checkAzureLogin_verdict (JSON_parse : string -> option Json) (w : World) :
  exists ok,
    fst (checkAzureLogin JSON_parse w) = Ret ok /\
    calls (snd (checkAzureLogin JSON_parse w)) =
      calls w ++ [("az account show", outcome w "az account show")] /\
    (ok = true <-> logged_in JSON_parse (outcome w "az account show")) /\
    (ok = true ->
       exists name, console (snd (checkAzureLogin JSON_parse w)) =
                    console w ++ [Out ("✓ Logged in as: " +:+ name)]) /\
    (ok = false ->
       console (snd (checkAzureLogin JSON_parse w)) = console w ++ not_logged_in).
Proof.
  rewrite checkAzureLogin_run. unfold logged_in.
  destruct (exec_result (outcome w "az account show")) as [out|e|c].
  2,3: exists false; split; [done|]; split; [done|]; split; [|split; [done|done]];
       split; [done|]; by intros (text & user & [=] & _).
  unfold login_name.
  destruct (account_user JSON_parse out) as [user|] eqn:EU.
  2: { exists false; split; [done|]; split; [done|]; split; [|split; [done|done]].
       split; [done|]. intros (text & user & [= <-] & Hu & _). congruence. }
  destruct user as [| b | n | s | items | names].
  { exists false. split; [done|]. split; [done|]. split; [|split; [done|done]].
    split; [done|]. intros (text & user & [= <-] & Hu & Hn). congruence. }
  all: exists true; (split; [done|]); (split; [done|]);
    (split; [|split; [intros _; by eexists|done]]);
    (split; [|done]); intros _; exists out; eexists; (split; [done|]);
    (split; [exact EU|discriminate]).
Qed.

(** X17. With a password that is a string, creating the VM runs the
    creation command once and does not throw; the command line, password
    included, is echoed on standard output.  What comes back is the
    parsed standard output of the command, whether or not the command
    exited with a failure, and [null] when the command failed without
    output or its output is not JSON; exactly in these two cases an error
    line is printed.  With any other password (the [null] of the object
    literal, say) [createVM] throws a TypeError before it runs anything:
    the password is escaped outside the [try] block. *)
Theorem createVM_verdict (JSON_parse : string -> option Json)
    (args : gmap string JsVal) (w : World) :
  (password_is_text args ->
   exists vmData,
     fst (createVM JSON_parse args w) = Ret vmData /\
     calls (snd (createVM JSON_parse args w)) =
       calls w ++ [(vm_create_command args, outcome w (vm_create_command args))] /\
     Out ("➤ " +:+ vm_create_command args) ∈ lines_during w (createVM JSON_parse args w) /\
     (forall text,
        exec_result (outcome w (vm_create_command args)) = Ret text ->
        vmData = default JNull (JSON_parse text)) /\
     (silent_failure (outcome w (vm_create_command args)) -> vmData = JNull) /\
     (error_in (lines_during w (createVM JSON_parse args w)) <->
        silent_failure (outcome w (vm_create_command args)) \/
        exists text, exec_result (outcome w (vm_create_command args)) = Ret text /\
                     JSON_parse text = None)) /\
  (~ password_is_text args ->
   exists message,
     fst (createVM JSON_parse args w) = Throw (TypeError message) /\
     calls (snd (createVM JSON_parse args w)) = calls w /\
     ~ error_in (lines_during w (createVM JSON_parse args w))).
Proof.
  split; [intros Hp|intros Hno]; cycle 1.
  { destruct (createVM_of_other JSON_parse args w Hno) as [message ->].
    exists message. unfold lines_during.
    cbn [fst snd console_log print calls console].
    split; [done|]. split; [done|].
    rewrite drop_app_length. rewrite error_in_has_error. cbn. done. }
  rewrite (createVM_of_text _ _ Hp).
  unfold createVM_text, try_catch, mbind, M_bind, bind.
  cbn [console_log print]. rewrite exec_logged. unfold lines_during.
  change (outcome (mkWorld (clock w) (ticks w) (entropy w) (draws w) (shell w)
                     (calls w) ?l) ?c) with (outcome w c).
  pose proof (silent_failure_thrown (outcome w (vm_create_command args))) as Hs.
  destruct (exec_result (outcome w (vm_create_command args))) as [out|e|c] eqn:E;
    [| |by destruct (exec_result_not_exit _ _ (eq_sym E))].
  - unfold json_parse. destruct (JSON_parse out) as [j|] eqn:EP.
    + exists j. cbn [console_log print ret fst snd record_call printed calls console].
      rewrite <- !List.app_assoc, drop_app_length.
      split; [done|]. split; [done|].
      split; [cbn [app]; apply list_elem_of_further, list_elem_of_here|].
      split; [|split; [|split]].
      * intros text [= <-]. by rewrite EP.
      * intros Hf. apply Hs in Hf as [e He]. discriminate He.
      * rewrite error_in_has_error. cbn. done.
      * intros [Hf|(text & [= <-] & Hn)]; [|congruence].
        apply Hs in Hf as [e He]. discriminate He.
    + exists JNull.
      cbn [throw console_error console_log print ret fst snd record_call printed
           calls console].
      rewrite <- !List.app_assoc, drop_app_length.
      split; [done|]. split; [done|].
      split; [cbn [app]; apply list_elem_of_further, list_elem_of_here|].
      split; [|split; [done|split]].
      * intros text [= <-]. by rewrite EP.
      * intros _. right. by exists out.
      * intros _. rewrite error_in_has_error. reflexivity.
  - exists JNull.
    cbn [console_error console_log print ret fst snd record_call printed calls console].
    rewrite <- !List.app_assoc, drop_app_length.
    split; [done|]. split; [done|].
    split; [cbn [app]; apply list_elem_of_further, list_elem_of_here|].
    split; [done|]. split; [done|]. split.
    + intros _. left. apply Hs. by exists e.
    + intros _. rewrite error_in_has_error. reflexivity.
Qed.

Lemma createVM_verdict_witness :
  (exists vmData,
     fst (createVM sample_JSON_parse sample_config sample_world) = Ret vmData /\
     calls (snd (createVM sample_JSON_parse sample_config sample_world)) =
       calls sample_world ++
       [(vm_create_command sample_config,
         outcome sample_world (vm_create_command sample_config))] /\
     Out ("➤ " +:+ vm_create_command sample_config)
       ∈ lines_during sample_world
           (createVM sample_JSON_parse sample_config sample_world) /\
     (forall text,
        exec_result (outcome sample_world (vm_create_command sample_config)) = Ret text ->
        vmData = default JNull (sample_JSON_parse text)) /\
     (silent_failure (outcome sample_world (vm_create_command sample_config)) ->
      vmData = JNull) /\
     (error_in (lines_during sample_world
                  (createVM sample_JSON_parse sample_config sample_world)) <->
        silent_failure (outcome sample_world (vm_create_command sample_config)) \/
        exists text,
          exec_result (outcome sample_world (vm_create_command sample_config)) = Ret text /\
          sample_JSON_parse text = None)) /\
  (exists message,
     fst (createVM sample_JSON_parse (initial_args 0) sample_world)
       = Throw (TypeError message) /\
     calls (snd (createVM sample_JSON_parse (initial_args 0) sample_world))
       = calls sample_world /\
     ~ error_in (lines_during sample_world
                   (createVM sample_JSON_parse (initial_args 0) sample_world))).
Proof.
  split.
  - apply (proj1 (createVM_verdict sample_JSON_parse sample_config sample_world)).
    apply (parseArgs_password_text [] sample_world (snd (parseArgs [] sample_world))).
    apply returned_config. vm_compute. reflexivity.
  - apply (proj2 (createVM_verdict sample_JSON_parse (initial_args 0) sample_world)).
    intros [password H]. vm_compute in H. discriminate H.
Defined.

(** ** The connection details *)

Lemma printed_printed (l1 l2 : list Line) (w : World) :
  printed l2 (printed l1 w) = printed (l1 ++ l2) w.
Proof. unfold printed. cbn [clock ticks entropy draws shell calls console].
  by rewrite List.app_assoc. Qed.

Lemma log_lines_run (texts : list string) (w : World) :
  log_lines texts w = (Ret tt, printed (Out <$> texts) w).
Proof.
  revert w. induction texts as [|t texts IH]; intros w.
  - unfold printed. cbn. rewrite List.app_nil_r. by destruct w.
  - cbn [log_lines foldr]. unfold mbind, M_bind, bind. cbn [console_log print].
    fold (printed [Out t] w). fold (log_lines texts).
    by rewrite IH, printed_printed.
Qed.

(** X18. Showing the connection details of a created VM never fails
    and runs no command; everything goes to standard output, and the
    password is among what is shown, in clear: once in the VM details
    and once more in the connection instructions. *)
Theorem display_shows_password (args : gmap string JsVal) (vmData : Json) (w : World) :
  json_truthy vmData = true ->
  exists shown details instructions commands,
    displayConnectionDetails args vmData w = (Ret tt, printed shown w) /\
    no_error_line shown /\
    shown = details ++ instructions ++ commands /\
    Out ("   Password: " +:+ field args "password") ∈ details /\
    (exists label, Out (label +:+ "Password: " +:+ field args "password") ∈ instructions) /\
    Out ("   IP Address: " +:+ publicIpAddress vmData) ∈ details.
Proof.
  intros _. unfold displayConnectionDetails, mbind, M_bind, bind.
  rewrite log_lines_run.
  assert (exists instructions,
            (if decide (get_property args "os" = VStr "windows")
             then displayWindowsConnectionDetails args vmData
             else displayLinuxConnectionDetails args vmData) =
            log_lines instructions /\
            exists label, (label +:+ "Password: " +:+ field args "password") ∈ instructions)
    as (instructions & -> & label & Hlabel).
  { destruct (decide _); eexists; (split; [reflexivity|]).
    - exists "   4. ". repeat constructor.
    - exists "   ". repeat constructor. }
  rewrite !log_lines_run, !printed_printed. eexists _, _, _, _.
  split; [reflexivity|]. split; [|split; [reflexivity|]].
  - intros text H. rewrite <- !fmap_app in H.
    apply list_elem_of_fmap in H as (t & [=] & _).
  - split; [|split].
    + apply (list_elem_of_fmap_2 Out). repeat constructor.
    + exists label. by apply (list_elem_of_fmap_2 Out).
    + apply (list_elem_of_fmap_2 Out). repeat constructor.
Qed.

Lemma display_shows_password_witness :
  exists shown details instructions commands,
    displayConnectionDetails sample_config
      (JObj [("publicIpAddress", JStr "203.0.113.7")]) sample_world
      = (Ret tt, printed shown sample_world) /\
    no_error_line shown /\
    shown = details ++ instructions ++ commands /\
    Out ("   Password: " +:+ field sample_config "password") ∈ details /\
    (exists label,
       Out (label +:+ "Password: " +:+ field sample_config "password") ∈ instructions) /\
    Out ("   IP Address: " +:+
         publicIpAddress (JObj [("publicIpAddress", JStr "203.0.113.7")])) ∈ details.
Proof.
  apply (display_shows_password sample_config
           (JObj [("publicIpAddress", JStr "203.0.113.7")]) sample_world).
  reflexivity.
Defined.

(** ** Error lines and the exit status *)

(** A step that returns, and whose result [signals] it whenever the step
    has printed an error line. *)
Definition alarm {A} (signals : A -> Prop) (r : Res A)
    (new : list (string * ExecResult)) (lines : list Line) : Prop :=
  exists a, r = Ret a /\ (error_in lines -> signals a).

Lemma error_in_nil : ~ error_in [].
Proof. intros (t & H). by apply elem_of_nil in H. Qed.

Lemma error_in_out (text : string) : ~ error_in [Out text].
Proof. intros (t & H). apply list_elem_of_singleton in H. discriminate H. Qed.

Lemma no_error_line_error (lines : list Line) :
  no_error_line lines -> ~ error_in lines.
Proof. intros H (t & Ht). by apply (H t). Qed.

(** Splits an error line in a concatenation into its cases and closes
    the cases in which nothing went to standard error. *)
Ltac split_error H :=
  repeat match type of H with
    | error_in (_ ++ _) => apply error_in_app in H as [H|H]
    | error_in [] => destruct (error_in_nil H)
    | error_in [Out _] => destruct (error_in_out _ H)
    | error_in ?x =>
        match goal with
        | N : no_error_line x |- _ => destruct (no_error_line_error _ N H)
        end
    end.

Ltac alarm_leaf :=
  eexists; split; [reflexivity|];
  let He := fresh "He" in
  intros He; try reflexivity; split_error He.

Ltac unpack_alarm :=
  repeat (progress unpack ||
          match goal with H : alarm _ _ _ _ |- _ => destruct H as (?&?&?) end);
  subst.

Lemma checkAzureCli_alarm : traced checkAzureCli (alarm (fun ok => ok = false)).
Proof.
  unfold checkAzureCli. eapply traced_weaken; [run_steps|].
  intros r new lines H. unpack; alarm_leaf.
Qed.

Lemma checkAzureLogin_alarm (JSON_parse : string -> option Json) :
  traced (checkAzureLogin JSON_parse) (alarm (fun ok => ok = false)).
Proof.
  unfold checkAzureLogin. eapply traced_weaken; [run_steps|].
  intros r new lines H. unpack; alarm_leaf.
Qed.

Lemma createResourceGroup_alarm (args : gmap string JsVal) :
  traced (createResourceGroup args) (alarm (fun ok => ok = false)).
Proof.
  unfold createResourceGroup. eapply traced_weaken; [run_steps|].
  intros r new lines H. unpack; alarm_leaf.
Qed.

Lemma createVM_alarm (JSON_parse : string -> option Json) (args : gmap string JsVal) :
  password_is_text args ->
  traced (createVM JSON_parse args) (alarm (fun vmData => vmData = JNull)).
Proof.
  intros Hp. rewrite (createVM_of_text _ _ Hp). unfold createVM_text.
  eapply traced_weaken; [run_steps|].
  intros r new lines H. unpack; alarm_leaf.
Qed.

(** A run that has printed an error line does not go on to return. *)
Definition stops_after_error (r : Res unit) (new : list (string * ExecResult))
    (lines : list Line) : Prop :=
  error_in lines -> r = Exit 1 \/ exists e, r = Throw e.

Lemma provision_stops_after_error (JSON_parse : string -> option Json)
    (args : gmap string JsVal) :
  password_is_text args ->
  traced (provision JSON_parse args) stops_after_error.
Proof.
  intros Hp. unfold provision. eapply traced_weaken.
  { run_with ltac:(idtac; lazymatch goal with
                   | |- traced (createResourceGroup _) _ => apply createResourceGroup_alarm
                   | |- traced (createVM _ _) _ => apply createVM_alarm; assumption
                   | |- traced (displayConnectionDetails _ _) _ => apply run_display
                   end). }
  intros r new lines H He. unpack_alarm; eauto.
  all: split_error He;
    repeat match goal with
      | H : error_in ?x -> _, E : error_in ?x |- _ => specialize (H E)
      end; try discriminate; subst; try discriminate.
Qed.

Lemma main_stops_after_error (JSON_parse : string -> option Json)
    (argv : list string) :
  traced (main JSON_parse argv) stops_after_error.
Proof.
  unfold main. eapply traced_weaken.
  { run_with ltac:(idtac; lazymatch goal with
                   | |- traced checkAzureCli _ => apply checkAzureCli_alarm
                   | |- traced (checkAzureLogin _) _ => apply checkAzureLogin_alarm
                   | |- traced (provision _ _) _ =>
                       apply provision_stops_after_error; assumption
                   end). }
  intros r new lines H He. unpack_alarm; eauto.
  all: split_error He;
    repeat match goal with
      | H : error_in ?x -> _, E : error_in ?x |- _ => specialize (H E)
      end; try discriminate; subst; try discriminate; eauto.
Qed.

Lemma program_stops_after_error (JSON_parse : string -> option Json)
    (argv : list string) :
  traced (program JSON_parse argv) (fun r new lines => error_in lines -> r = Exit 1).
Proof.
  unfold program. destruct (bool_decide ("--help" ∈ argv)).
  - unfold showHelp. eapply traced_weaken; [run_steps|].
    intros r new lines H He. unpack. split_error He.
  - unfold on_unexpected_error. eapply traced_weaken.
    { run_with ltac:(idtac; lazymatch goal with
                     | |- traced (main _ _) _ => apply main_stops_after_error
                     end). }
    intros r new lines H He. unpack; try reflexivity;
      match goal with
      | Hm : stops_after_error _ _ _ |- _ => destruct (Hm He) as [?|[? ?]]; congruence
      end.
Qed.

(** X19. Whenever the program has printed a line to standard error, it
    ends with status 1: no run reports an error and then goes on to a
    normal end. *)
Theorem error_line_means_status_1 (JSON_parse : string -> option Json)
    (argv : list string) (w : World) :
  error_in (lines_during w (program JSON_parse argv w)) ->
  fst (program JSON_parse argv w) = Exit 1 /\
  exit_status (fst (program JSON_parse argv w)) = 1%Z.
Proof.
  destruct (program_stops_after_error JSON_parse argv w)
    as (r & w' & new & lines & E & Hc & Hl & H).
  unfold lines_during. rewrite E. cbn [fst snd]. rewrite Hl, drop_app_length.
  intros He. by rewrite (H He).
Qed.

Lemma error_line_means_status_1_witness :
  fst (program sample_JSON_parse [] vm_failure_world) = Exit 1 /\
  exit_status (fst (program sample_JSON_parse [] vm_failure_world)) = 1%Z.
Proof.
  apply (error_line_means_status_1 sample_JSON_parse [] vm_failure_world).
  rewrite error_in_has_error. vm_compute. reflexivity.
Defined.

(** ** The help flag and the first command *)

Lemma main_starts_with_version (JSON_parse : string -> option Json)
    (argv : list string) :
  traced (main JSON_parse argv)
    (fun r new lines => exists o rest, new = ("az --version", o) :: rest).
Proof.
  unfold main. eapply traced_weaken.
  { run_with ltac:(idtac; lazymatch goal with
                   | |- traced checkAzureCli _ => apply checkAzureCli_step
                   | |- traced (checkAzureLogin _) _ => apply checkAzureLogin_step
                   | |- traced (provision _ _) _ => apply provision_run; assumption
                   end). }
  intros r new lines H. unpack;
    match goal with
    | Hv : ?x.*1 = ["az --version"] |- _ =>
        destruct x as [|[c o] [|]]; try discriminate Hv; injection Hv as ->
    end; cbn [app]; eauto.
Qed.

(** X20. With [--help] among the tokens the program ends with status 0
    without running any command and without an error line, whatever the
    other tokens are.  Without it, the first command run is always
    [az --version]. *)
Theorem help_runs_nothing (JSON_parse : string -> option Json)
    (argv : list string) (w : World) :
  ("--help" ∈ argv ->
     fst (program JSON_parse argv w) = Exit 0 /\
     calls (snd (program JSON_parse argv w)) = calls w /\
     ~ error_in (lines_during w (program JSON_parse argv w))) /\
  (("--help" ∉ argv) ->
     exists o rest,
       calls_during w (program JSON_parse argv w) = ("az --version", o) :: rest).
Proof.
  unfold program, calls_during, lines_during. split; intros Hhelp.
  - rewrite bool_decide_eq_true_2 by done.
    unfold showHelp, mbind, M_bind, bind. cbn [console_log print process_exit fst snd
                                              calls console].
    split; [done|]. split; [done|]. rewrite drop_app_length. apply error_in_out.
  - rewrite bool_decide_eq_false_2 by done. unfold try_catch.
    destruct (main_starts_with_version JSON_parse argv w)
      as (r & w' & new & lines & E & Hc & Hl & o & rest & ->).
    rewrite E. exists o.
    destruct r as [a|e|c]; cbn [snd on_unexpected_error]; [| |].
    + exists rest. by rewrite Hc, drop_app_length.
    + unfold on_unexpected_error, mbind, M_bind, bind.
      cbn [console_error print process_exit snd calls].
      exists rest. by rewrite Hc, drop_app_length.
    + exists rest. by rewrite Hc, drop_app_length.
Qed.

Lemma help_runs_nothing_witness :
  (fst (program sample_JSON_parse ["--image=toString"; "--help"] failing_world) = Exit 0 /\
   calls (snd (program sample_JSON_parse ["--image=toString"; "--help"] failing_world))
     = calls failing_world /\
   ~ error_in (lines_during failing_world
                 (program sample_JSON_parse ["--image=toString"; "--help"] failing_world))) /\
  exists o rest,
    calls_during sample_world (program sample_JSON_parse ["--image=ubuntu"] sample_world)
      = ("az --version", o) :: rest.
Proof.
  split.
  - apply (proj1 (help_runs_nothing sample_JSON_parse ["--image=toString"; "--help"]
                    failing_world)).
    apply (bool_decide_unpack _). vm_compute. exact I.
  - apply (proj2 (help_runs_nothing sample_JSON_parse ["--image=ubuntu"] sample_world)).
    apply (bool_decide_unpack _). vm_compute. exact I.
Defined.

(** ** The run in which everything goes well *)

(** How the command [command] ends when it is run after [i] other
    commands have been run since [w]. *)
Definition later_outcome (w : World) (i : nat) (command : string) : ExecResult :=
  shell w (List.length (calls w) + i) command.

Lemma checkAzureCli_passes (w : World) :
  ~ silent_failure (outcome w "az --version") ->
  checkAzureCli w = (Ret true, record_call "az --version" w).
Proof.
  intros Hok. unfold checkAzureCli, try_catch, mbind, M_bind, bind. rewrite exec_silent.
  destruct (exec_result (outcome w "az --version")) as [out|e|c] eqn:E.
  - reflexivity.
  - destruct Hok. apply silent_failure_thrown. by exists e.
  - by destruct (exec_result_not_exit _ _ (eq_sym E)).
Qed.

Lemma createResourceGroup_passes (args : gmap string JsVal) (w : World) :
  ~ silent_failure (outcome w (group_create_command args)) ->
  createResourceGroup args w =
  (Ret true,
   printed [Out ("✓ Resource group '" +:+ field args "resourceGroup" +:+
                 "' created in " +:+ field args "location")]
     (record_call (group_create_command args)
        (printed [Out (nl +:+ "📦 Creating resource group...");
                  Out ("➤ " +:+ group_create_command args)] w))).
Proof.
  intros Hok. unfold createResourceGroup, try_catch, mbind, M_bind, bind.
  cbn [console_log print]. fold (printed [Out (nl +:+ "📦 Creating resource group...")] w).
  rewrite exec_logged, printed_printed. cbn [app].
  change (outcome (printed ?l w) ?c) with (outcome w c).
  destruct (exec_result (outcome w (group_create_command args))) as [out|e|c] eqn:E.
  - reflexivity.
  - destruct Hok. apply silent_failure_thrown. by exists e.
  - by destruct (exec_result_not_exit _ _ (eq_sym E)).
Qed.

Lemma createVM_passes (JSON_parse : string -> option Json) (args : gmap string JsVal)
    (w : World) (text : string) (vmData : Json) :
  password_is_text args ->
  exec_result (outcome w (vm_create_command args)) = Ret text ->
  JSON_parse text = Some vmData ->
  createVM JSON_parse args w =
  (Ret vmData,
   printed [Out "✓ VM created successfully!"]
     (record_call (vm_create_command args)
        (printed [Out (nl +:+ "🖥️  Creating " +:+ osDisplay args +:+
                       " VM (this may take 2-3 minutes)...");
                  Out ("➤ " +:+ vm_create_command args)] w))).
Proof.
  intros Hp Hout Hjson. rewrite (createVM_of_text _ _ Hp).
  unfold createVM_text, try_catch, mbind, M_bind, bind.
  cbn [console_log print].
  match goal with |- context [exec _ false ?w0] =>
    change w0 with (printed [Out (nl +:+ "🖥️  Creating " +:+ osDisplay args +:+
                                  " VM (this may take 2-3 minutes)...")] w)
  end.
  rewrite exec_logged, printed_printed. cbn [app].
  change (outcome (printed ?l w) ?c) with (outcome w c).
  rewrite Hout. unfold json_parse. rewrite Hjson. reflexivity.
Qed.

Lemma checkAzureLogin_passes (JSON_parse : string -> option Json) (w : World)
    (account : string) (user : Json) :
  exec_result (outcome w "az account show") = Ret account ->
  account_user JSON_parse account = Some user -> user <> JNull ->
  exists name,
    checkAzureLogin JSON_parse w =
    (Ret true,
     printed [Out ("✓ Logged in as: " +:+ name)] (record_call "az account show" w)).
Proof.
  intros Hout Huser Hnull. rewrite checkAzureLogin_run, Hout. unfold login_name.
  rewrite Huser. destruct user; try done; by eexists.
Qed.

Lemma outcome_later (w w' : World) (i : nat) (new : list (string * ExecResult))
    (command : string) :
  shell w' = shell w -> calls w' = calls w ++ new -> List.length new = i ->
  outcome w' command = later_outcome w i command.
Proof.
  intros Hs Hc Hi. unfold outcome, later_outcome.
  by rewrite Hs, Hc, List.length_app, Hi.
Qed.

(** X21. The run in which everything goes well.  Without [--help], when
    [az --version] does not fail without output, [az account show]
    describes a logged-in user, the tokens resolve to a
    configuration, the group-creation command does not fail without
    output and the VM-creation command leaves JSON for a truthy value,
    the program runs exactly these four commands in this order, prints no
    error line and ends normally, which is status 0. *)
Theorem successful_run (JSON_parse : string -> option Json) (argv : list string)
    (w : World) (cfg : gmap string JsVal) (text : string) (vmData : Json) :
  ("--help" ∉ argv) ->
  ~ silent_failure (later_outcome w 0 "az --version") ->
  logged_in JSON_parse (later_outcome w 1 "az account show") ->
  fst (parseArgs argv w) = Ret cfg ->
  ~ silent_failure (later_outcome w 2 (group_create_command cfg)) ->
  exec_result (later_outcome w 3 (vm_create_command cfg)) = Ret text ->
  JSON_parse text = Some vmData -> json_truthy vmData = true ->
  fst (program JSON_parse argv w) = Ret tt /\
  exit_status (fst (program JSON_parse argv w)) = 0%Z /\
  calls_during w (program JSON_parse argv w) =
    [ ("az --version", later_outcome w 0 "az --version");
      ("az account show", later_outcome w 1 "az account show");
      (group_create_command cfg, later_outcome w 2 (group_create_command cfg));
      (vm_create_command cfg, later_outcome w 3 (vm_create_command cfg)) ] /\
  ~ error_in (lines_during w (program JSON_parse argv w)).
Proof.
  intros Hhelp Hcli (account & user & Hacct & Huser & Hnull) Hcfg Hgroup Hvm Hjson
    Htruthy.
  (* the two checks *)
  set (w0 := printed [Out "🚀 Azure VM Creator"; Out ("===================" +:+ nl)] w).
  assert (H1 : checkAzureCli w0 = (Ret true, record_call "az --version" w0)).
  { apply checkAzureCli_passes.
    by rewrite (outcome_later w w0 0 []) by (rewrite ?List.app_nil_r; done). }
  set (w1 := record_call "az --version" w0) in *.
  destruct (checkAzureLogin_passes JSON_parse w1 account user) as [name H2];
    [|done|done|].
  { rewrite (outcome_later w w1 1 [("az --version", outcome w0 "az --version")]); done. }
  set (w2 := printed [Out ("✓ Logged in as: " +:+ name)]
               (record_call "az account show" w1)) in *.
  (* argument resolution *)
  assert (H3 : parseArgs argv w2 = (Ret cfg, snd (parseArgs argv w2))).
  { apply ret_run. rewrite <- Hcfg. by apply local_oracle; [apply local_parseArgs|..]. }
  destruct (local_untouched (parseArgs argv) w2 (local_parseArgs argv))
    as (Hs3 & Hc3 & Hl3).
  set (w3 := snd (parseArgs argv w2)) in *.
  set (summary := [ nl +:+ "📝 Configuration:";
                    "   Location: " +:+ field cfg "location";
                    "   VM Name: " +:+ field cfg "name";
                    "   VM Size: " +:+ field cfg "size";
                    "   OS Type: " +:+ field cfg "os";
                    "   Resource Group: " +:+ field cfg "resourceGroup" ]).
  (* the two creations *)
  assert (H4 : exists w4,
            createResourceGroup cfg (printed (Out <$> summary) w3) = (Ret true, w4) /\
            shell w4 = shell w /\
            calls w4 = calls w ++
              [ ("az --version", later_outcome w 0 "az --version");
                ("az account show", later_outcome w 1 "az account show");
                (group_create_command cfg, later_outcome w 2 (group_create_command cfg)) ]).
  { assert (Ho : outcome (printed (Out <$> summary) w3) (group_create_command cfg) =
                 later_outcome w 2 (group_create_command cfg)).
    { eapply (outcome_later w _ 2); [exact Hs3|..].
      - cbn [printed calls]. rewrite Hc3. unfold w2, w1, w0.
        cbn [printed record_call calls]. rewrite <- List.app_assoc. reflexivity.
      - reflexivity. }
    eexists. split; [apply createResourceGroup_passes; by rewrite Ho|].
    cbn [printed record_call shell calls]. split; [exact Hs3|].
    rewrite Hc3. unfold w2, w1, w0. cbn [printed record_call calls].
    rewrite <- !List.app_assoc. cbn [app]. repeat f_equal.
    + by rewrite (outcome_later w (printed _ w) 0 []) by (rewrite ?List.app_nil_r; done).
    + by eapply (outcome_later w _ 1 [_]).
    + fold (printed (Out <$> summary) w3). exact Ho. }
  destruct H4 as (w4 & H4 & Hs4 & Hc4).
  assert (Ho5 : outcome w4 (vm_create_command cfg) =
                later_outcome w 3 (vm_create_command cfg)).
  { by eapply (outcome_later w w4 3). }
  pose proof (createVM_passes JSON_parse cfg w4 text vmData) as H5.
  rewrite Ho5 in H5.
  specialize (H5 (parseArgs_password_text _ _ _ _ H3) Hvm Hjson).
  match type of H5 with _ = (_, ?w') => set (w5 := w') in * end.
  assert (Hc5 : calls w5 = calls w4 ++
            [(vm_create_command cfg, later_outcome w 3 (vm_create_command cfg))]).
  { unfold w5. cbn [printed record_call calls]. by rewrite <- Ho5. }
  destruct (run_display cfg vmData w5)
    as (r & w6 & new & lines & H6 & Hc6 & _ & -> & -> & _).
  (* the whole run *)
  assert (Hrun : program JSON_parse argv w = (Ret tt, w6)).
  { unfold program. rewrite bool_decide_eq_false_2 by done.
    unfold try_catch, main, provision, mbind, M_bind, bind.
    cbn [console_log print clock ticks entropy draws shell calls console].
    rewrite <- List.app_assoc. cbn [app]. fold (printed [Out "🚀 Azure VM Creator";
                                                    Out ("===================" +:+ nl)] w).
    fold w0. rewrite H1. cbn [negb ret]. rewrite H2. cbn [negb ret]. rewrite H3.
    rewrite log_lines_run. fold summary. rewrite H4. cbn [negb ret]. rewrite H5, Htruthy.
    cbn [negb ret]. by rewrite H6. }
  rewrite Hrun. cbn [fst snd exit_status]. split; [done|]. split; [done|].
  split.
  - unfold calls_during. cbn [snd]. rewrite Hc6, List.app_nil_r, Hc5, Hc4.
    rewrite <- List.app_assoc. by rewrite drop_app_length.
  - intros He.
    destruct (program_stops_after_error JSON_parse argv w)
      as (r & w' & new & lines' & E & _ & Hl & Hstop).
    rewrite Hrun in E. injection E as <- <-.
    unfold lines_during in He. cbn [snd] in He. rewrite Hl, drop_app_length in He.
    by specialize (Hstop He).
Qed.

(** A world in which the tool is present, the operator is logged in and
    both creations succeed. *)
Definition healthy_world : World :=
  mkWorld (clock sample_world) 0 (entropy sample_world) 0
          (fun n _ => match n with
                      | 0 => ExecOk "azure-cli 2.60.0"
                      | 1 => ExecOk account_text
                      | 2 => ExecOk "{}"
                      | _ => ExecOk vm_text
                      end)
          [] [].

Lemma returned_result (argv : list string) (w : World) :
  returned (parseArgs argv w) = true ->
  fst (parseArgs argv w) = Ret (default ∅ (config_of (parseArgs argv w))).
Proof.
  unfold config_of, returned.
  destruct (parseArgs argv w) as [[cfg|e|c] w']; simpl;
    intros H; [reflexivity|discriminate H..].
Defined.

Lemma successful_run_witness :
  fst (program sample_JSON_parse ["--image=ubuntu"] healthy_world) = Ret tt /\
  exit_status (fst (program sample_JSON_parse ["--image=ubuntu"] healthy_world)) = 0%Z /\
  calls_during healthy_world (program sample_JSON_parse ["--image=ubuntu"] healthy_world) =
    [ ("az --version", later_outcome healthy_world 0 "az --version");
      ("az account show", later_outcome healthy_world 1 "az account show");
      (group_create_command
         (default ∅ (config_of (parseArgs ["--image=ubuntu"] healthy_world))),
       later_outcome healthy_world 2
         (group_create_command
            (default ∅ (config_of (parseArgs ["--image=ubuntu"] healthy_world)))));
      (vm_create_command
         (default ∅ (config_of (parseArgs ["--image=ubuntu"] healthy_world))),
       later_outcome healthy_world 3
         (vm_create_command
            (default ∅ (config_of (parseArgs ["--image=ubuntu"] healthy_world))))) ] /\
  ~ error_in (lines_during healthy_world
                (program sample_JSON_parse ["--image=ubuntu"] healthy_world)).
Proof.
  apply (successful_run sample_JSON_parse ["--image=ubuntu"] healthy_world
           (default ∅ (config_of (parseArgs ["--image=ubuntu"] healthy_world)))
           vm_text (JObj [("publicIpAddress", JStr "203.0.113.7")])).
  - apply (bool_decide_unpack _). vm_compute. exact I.
  - intros [message H]. discriminate H.
  - exists account_text, (JObj [("name", JStr "me@example.com")]).
    split; [vm_compute; reflexivity|]. split; [vm_compute; reflexivity|discriminate].
  - apply returned_result. vm_compute. reflexivity.
  - intros [message H]. discriminate H.
  - reflexivity.
  - vm_compute. reflexivity.
  - reflexivity.
Defined.

(** ** Failed checks *)

Definition not_installed : list Line :=
  [Err "❌ Azure CLI is not installed.";
   Out "Please install it from: https://docs.microsoft.com/en-us/cli/azure/install-azure-cli"].

Lemma checkAzureCli_fails (w : World) :
  silent_failure (outcome w "az --version") ->
  checkAzureCli w = (Ret false, printed not_installed (record_call "az --version" w)).
Proof.
  intros Hf. apply silent_failure_thrown in Hf as [e He].
  unfold checkAzureCli, try_catch, mbind, M_bind, bind. rewrite exec_silent, He.
  cbn [console_error console_log print ret]. unfold printed, not_installed.
  cbn [clock ticks entropy draws shell calls console]. by rewrite <- List.app_assoc.
Qed.

Lemma checkAzureLogin_fails (JSON_parse : string -> option Json) (w : World) :
  ~ logged_in JSON_parse (outcome w "az account show") ->
  checkAzureLogin JSON_parse w =
  (Ret false, printed not_logged_in (record_call "az account show" w)).
Proof.
  intros Hno. rewrite checkAzureLogin_run.
  destruct (exec_result (outcome w "az account show")) as [account|e|c] eqn:E;
    try reflexivity.
  unfold login_name.
  destruct (account_user JSON_parse account) as [user|] eqn:Eu; [|reflexivity].
  destruct user; try reflexivity;
    (destruct Hno; exists account; eexists; split; [exact E|]; split;
     [exact Eu|discriminate]).
Qed.

(** X22. A failed check stops the run before anything is created.
    Without [--help], when [az --version] fails without output the
    program runs this one command, prints an error line and ends with
    status 1; when it passes but [az account show] does not describe a
    logged-in user, the program runs these two commands, prints an error
    line and ends with status 1. *)
Theorem failed_check_stops_the_run (JSON_parse : string -> option Json)
    (argv : list string) (w : World) :
  ("--help" ∉ argv) ->
  (silent_failure (later_outcome w 0 "az --version") ->
     fst (program JSON_parse argv w) = Exit 1 /\
     calls_during w (program JSON_parse argv w) =
       [("az --version", later_outcome w 0 "az --version")] /\
     error_in (lines_during w (program JSON_parse argv w))) /\
  (~ silent_failure (later_outcome w 0 "az --version") ->
   ~ logged_in JSON_parse (later_outcome w 1 "az account show") ->
     fst (program JSON_parse argv w) = Exit 1 /\
     calls_during w (program JSON_parse argv w) =
       [("az --version", later_outcome w 0 "az --version");
        ("az account show", later_outcome w 1 "az account show")] /\
     error_in (lines_during w (program JSON_parse argv w))).
Proof.
  intros Hhelp.
  set (w0 := printed [Out "🚀 Azure VM Creator"; Out ("===================" +:+ nl)] w).
  assert (Ho0 : outcome w0 "az --version" = later_outcome w 0 "az --version").
  { by rewrite (outcome_later w w0 0 []) by (rewrite ?List.app_nil_r; done). }
  assert (Ho1 : outcome (record_call "az --version" w0) "az account show" =
                later_outcome w 1 "az account show").
  { by eapply (outcome_later w _ 1 [_]). }
  assert (Hmain : program JSON_parse argv w =
            (let (r, w') := main JSON_parse argv w in
             match r with
             | Throw e => on_unexpected_error e w'
             | _ => (r, w')
             end)).
  { unfold program. rewrite bool_decide_eq_false_2 by done.
    unfold try_catch. by destruct (main JSON_parse argv w) as [[?|?|?] ?]. }
  rewrite Hmain. clear Hmain.
  unfold main, mbind, M_bind, bind.
  cbn [console_log print clock ticks entropy draws shell calls console].
  rewrite <- List.app_assoc. cbn [app].
  fold (printed [Out "🚀 Azure VM Creator"; Out ("===================" +:+ nl)] w).
  fold w0. unfold calls_during, lines_during. split.
  - intros Hf. rewrite checkAzureCli_fails by (by rewrite Ho0).
    cbn [negb process_exit fst snd printed record_call calls console w0].
    rewrite Ho0. split; [done|]. split.
    + by rewrite drop_app_length.
    + rewrite <- !List.app_assoc, drop_app_length. apply error_in_has_error. reflexivity.
  - intros Hok Hno. rewrite checkAzureCli_passes by (by rewrite Ho0).
    cbn [negb ret]. rewrite checkAzureLogin_fails by (by rewrite Ho1).
    cbn [negb process_exit fst snd]. split; [done|]. split.
    + unfold w0. cbn [printed record_call calls]. rewrite <- List.app_assoc.
      rewrite drop_app_length. cbn [app]. fold w0. by rewrite Ho0, Ho1.
    + unfold w0. cbn [printed record_call console].
      rewrite <- !List.app_assoc, drop_app_length. apply error_in_has_error. reflexivity.
Qed.

Lemma failed_check_stops_the_run_witness :
  (fst (program sample_JSON_parse [] failing_world) = Exit 1 /\
   calls_during failing_world (program sample_JSON_parse [] failing_world) =
     [("az --version", later_outcome failing_world 0 "az --version")] /\
   error_in (lines_during failing_world (program sample_JSON_parse [] failing_world))) /\
  (fst (program sample_JSON_parse [] vm_failure_world) = Exit 1 /\
   calls_during vm_failure_world (program sample_JSON_parse [] vm_failure_world) =
     [("az --version", later_outcome vm_failure_world 0 "az --version");
      ("az account show", later_outcome vm_failure_world 1 "az account show")] /\
   error_in (lines_during vm_failure_world
               (program sample_JSON_parse [] vm_failure_world))).
Proof.
  split.
  - apply (proj1 (failed_check_stops_the_run sample_JSON_parse [] failing_world
                    (not_elem_of_nil "--help"))).
    exists "Command failed". reflexivity.
  - apply (proj2 (failed_check_stops_the_run sample_JSON_parse [] vm_failure_world
                    (not_elem_of_nil "--help"))).
    + intros [message H]. discriminate H.
    + intros (account & user & H & _). vm_compute in H. discriminate H.
Defined.

(** ** Errors of the argument resolver inside a run *)

(** X23. When both checks have passed and the argument resolver throws,
    the program reports an unexpected error with the message of the
    exception and ends with status 1; no further command is run, so
    nothing has been created. *)
Theorem resolution_error_stops_the_run (JSON_parse : string -> option Json)
    (argv : list string) (w w1 w2 w3 : World) (e : JsError) :
  ("--help" ∉ argv) ->
  checkAzureCli (printed [Out "🚀 Azure VM Creator"; Out ("===================" +:+ nl)] w)
    = (Ret true, w1) ->
  checkAzureLogin JSON_parse w1 = (Ret true, w2) ->
  parseArgs argv w2 = (Throw e, w3) ->
  program JSON_parse argv w =
    (Exit 1, printed [Err (nl +:+ "❌ Unexpected error: " +:+ error_message e)] w3) /\
  calls w3 = calls w2.
Proof.
  intros Hhelp H1 H2 H3. unfold program. rewrite bool_decide_eq_false_2 by done.
  unfold try_catch, main, mbind, M_bind, bind. cbn [console_log print].
  assert (Hw : mkWorld (clock w) (ticks w) (entropy w) (draws w) (shell w) (calls w)
                 ((console w ++ [Out "🚀 Azure VM Creator"]) ++
                  [Out ("===================" +:+ nl)]) =
               printed [Out "🚀 Azure VM Creator"; Out ("===================" +:+ nl)] w).
  { unfold printed. by rewrite <- List.app_assoc. }
  cbn [clock ticks entropy draws shell calls console]. rewrite Hw, H1.
  cbn [negb ret]. rewrite H2. cbn [negb ret]. rewrite H3.
  split; [reflexivity|].
  pose proof (local_untouched (parseArgs argv) w2 (local_parseArgs argv)) as (_ & Hc & _).
  by rewrite H3 in Hc.
Qed.

Lemma throw_run {A} (m : M A) (w : World) (e : JsError) :
  fst (m w) = Throw e -> m w = (Throw e, snd (m w)).
Proof. destruct (m w) as [r w']. simpl. by intros ->. Defined.

Definition greeted (w : World) : World :=
  printed [Out "🚀 Azure VM Creator"; Out ("===================" +:+ nl)] w.

Lemma resolution_error_stops_the_run_witness :
  program sample_JSON_parse ["--image=toString"] swallowing_world =
    (Exit 1,
     printed [Err (nl +:+ "❌ Unexpected error: " +:+ error_message image_error)]
       (snd (parseArgs ["--image=toString"]
               (snd (checkAzureLogin sample_JSON_parse
                       (snd (checkAzureCli (greeted swallowing_world)))))))) /\
  calls (snd (parseArgs ["--image=toString"]
                (snd (checkAzureLogin sample_JSON_parse
                        (snd (checkAzureCli (greeted swallowing_world))))))) =
  calls (snd (checkAzureLogin sample_JSON_parse
                (snd (checkAzureCli (greeted swallowing_world))))).
Proof.
  apply (resolution_error_stops_the_run sample_JSON_parse ["--image=toString"]
           swallowing_world
           (snd (checkAzureCli (greeted swallowing_world)))
           (snd (checkAzureLogin sample_JSON_parse
                   (snd (checkAzureCli (greeted swallowing_world)))))).
  - apply (bool_decide_unpack _). vm_compute. exact I.
  - apply ret_run. vm_compute. reflexivity.
  - apply ret_run. vm_compute. reflexivity.
  - apply throw_run. vm_compute. reflexivity.
Defined.
